(** * Tactical map overlay: view transform, pan clamp, gestures, expiry, undo

    A shallow embedding of the two canvas components of the drawing overlay:

    - [CollaborativeDrawingTool] (variant 1): the component with the
      long-hand [clampPan]; [scale], [panX], [panY] and the gesture flags are
      separate state cells;
    - [RealTimeMapApp] (variant 2, "v4.3"): [pan] is one point, the gesture
      flags live in refs, a right click opens the radial menu.

    How the code is read:

    - A JavaScript number is a [number]: an exact rational, [Infinity],
      [-Infinity] or [NaN].  Rounding and the sign of zero are left out;
      what the handlers test for is kept: comparisons that fail on [NaN],
      [=== Infinity], falsy values, division by zero.
    - React state is passed explicitly.  A handler takes the state of the
      render it closes over and returns the state after its [set...] calls;
      every event is handled against the state the previous one left.
    - The DOM is what the handlers read of it: whether the container and its
      canvas are mounted, the canvas's [width] / [height] and bounding
      rectangle, the size of the background image.  [Date.now()] is an
      argument of the handlers that call it.
    - The 2D context records the calls made on it; [Math.sqrt], [Math.atan2],
      [Math.cos], [Math.sin], [Math.hypot] and [Math.PI] are an interface,
      [MathLib], and every statement about drawing holds for all of its
      implementations. *)

From Stdlib Require Import QArith Qminmax Qabs Lqa Lia ZArith List String Ascii Bool.
Import ListNotations.

Open Scope Q_scope.

(* ------------------------------------------------------------------------- *)
(** ** JavaScript values                                                      *)
(* ------------------------------------------------------------------------- *)

Module JS.

(** A JavaScript number, without rounding and without the sign of zero. *)
Inductive number : Type :=
| NaN
| NegInfinity
| Fin (q : Q)
| Infinity.

Definition sgn (a : number) : comparison :=
  match a with
  | NaN => Eq
  | NegInfinity => Lt
  | Fin q => q ?= 0
  | Infinity => Gt
  end.

Definition sgn_mul (c d : comparison) : comparison :=
  match c, d with
  | Eq, _ | _, Eq => Eq
  | Lt, Lt | Gt, Gt => Gt
  | Lt, Gt | Gt, Lt => Lt
  end.

(** The infinity of a given sign; the sign [Eq] stands for an undefined
    product or quotient. *)
Definition inf_of_sgn (c : comparison) : number :=
  match c with
  | Lt => NegInfinity
  | Eq => NaN
  | Gt => Infinity
  end.

(** Unary minus. *)
Definition neg (a : number) : number :=
  match a with
  | NaN => NaN
  | NegInfinity => Infinity
  | Fin q => Fin (- q)
  | Infinity => NegInfinity
  end.

(** [a + b] *)
Definition add (a b : number) : number :=
  match a, b with
  | NaN, _ | _, NaN => NaN
  | Fin p, Fin q => Fin (p + q)
  | Infinity, NegInfinity | NegInfinity, Infinity => NaN
  | Infinity, _ | _, Infinity => Infinity
  | NegInfinity, _ | _, NegInfinity => NegInfinity
  end.

(** [a - b] *)
Definition sub (a b : number) : number := add a (neg b).

(** [a * b] *)
Definition mul (a b : number) : number :=
  match a, b with
  | NaN, _ | _, NaN => NaN
  | Fin p, Fin q => Fin (p * q)
  | _, _ => inf_of_sgn (sgn_mul (sgn a) (sgn b))
  end.

(** [a / b]; a zero divisor counts as [+0]. *)
Definition div (a b : number) : number :=
  match a, b with
  | NaN, _ | _, NaN => NaN
  | Fin p, Fin q =>
      if Qeq_bool q 0 then inf_of_sgn (p ?= 0) else Fin (p / q)
  | Fin _, _ => Fin 0
  | _, Fin q => if Qeq_bool q 0 then a else inf_of_sgn (sgn_mul (sgn a) (q ?= 0))
  | _, _ => NaN
  end.

(** [a < b] *)
Definition lt (a b : number) : bool :=
  match a, b with
  | NaN, _ | _, NaN => false
  | Fin p, Fin q => match p ?= q with Lt => true | _ => false end
  | NegInfinity, NegInfinity => false
  | NegInfinity, _ => true
  | _, NegInfinity => false
  | Infinity, _ => false
  | _, Infinity => true
  end.

(** [a > b] *)
Definition gt (a b : number) : bool := lt b a.

(** [a === b] on numbers. *)
Definition strict_eq (a b : number) : bool :=
  match a, b with
  | Fin p, Fin q => Qeq_bool p q
  | Infinity, Infinity | NegInfinity, NegInfinity => true
  | _, _ => false
  end.

(** [Math.max(a, b)] and [Math.min(a, b)]. *)
Definition max (a b : number) : number :=
  match a, b with
  | NaN, _ | _, NaN => NaN
  | _, _ => if lt a b then b else a
  end.

Definition min (a b : number) : number :=
  match a, b with
  | NaN, _ | _, NaN => NaN
  | _, _ => if lt b a then b else a
  end.

(** ToBoolean on a number: [0] and [NaN] are falsy. *)
Definition truthy (a : number) : bool :=
  match a with
  | NaN => false
  | Fin q => negb (Qeq_bool q 0)
  | _ => true
  end.

(** ToBoolean on an optional property: [undefined] is falsy. *)
Definition truthy_opt (a : option number) : bool :=
  match a with
  | None => false
  | Some v => truthy v
  end.

(** [a === b] and [now < a] when [a] is an optional property: [undefined]
    is no number, and compares as [NaN]. *)
Definition strict_eq_opt (a : option number) (b : number) : bool :=
  match a with
  | None => false
  | Some v => strict_eq v b
  end.

Definition lt_opt (now : number) (a : option number) : bool :=
  match a with
  | None => false
  | Some v => lt now v
  end.

(** Two numbers denote the same value. *)
Definition same (a b : number) : Prop :=
  match a, b with
  | NaN, NaN | NegInfinity, NegInfinity | Infinity, Infinity => True
  | Fin p, Fin q => p == q
  | _, _ => False
  end.

Definition finite (a : number) : Prop :=
  match a with Fin _ => True | _ => False end.

(** [Array.prototype.slice(start, end)] with its relative (negative)
    indices. *)
Definition rel_index (len : nat) (i : Z) : nat :=
  if (i <? 0)%Z then Z.to_nat (Z.max (Z.of_nat len + i) 0)
  else Nat.min (Z.to_nat i) len.

Definition slice {A : Type} (l : list A) (s e : Z) : list A :=
  let k := rel_index (List.length l) s in
  let final := rel_index (List.length l) e in
  firstn (final - k) (skipn k l).

(** [String.prototype.toLowerCase], on the ASCII letters. *)
Definition lower_ascii (c : ascii) : ascii :=
  let n := nat_of_ascii c in
  if ((65 <=? n) && (n <=? 90))%nat then ascii_of_nat (n + 32) else c.

Fixpoint toLowerCase (s : string) : string :=
  match s with
  | EmptyString => EmptyString
  | String c r => String (lower_ascii c) (toLowerCase r)
  end.

End JS.

Import JS.

Declare Scope js_scope.
Delimit Scope js_scope with js.
Bind Scope js_scope with number.
Infix "+" := add : js_scope.
Infix "-" := sub : js_scope.
Infix "*" := mul : js_scope.
Infix "/" := div : js_scope.
Infix "<?" := lt : js_scope.
Infix ">?" := gt : js_scope.
Infix "===" := strict_eq (at level 70) : js_scope.
Notation "- a" := (neg a) : js_scope.

Coercion Fin : Q >-> number.

(** A point [{ x, y }]. *)
Record Point : Type := mkPoint { x : number; y : number }.

Definition same_point (p q : Point) : Prop :=
  same (x p) (x q) /\ same (y p) (y q).

(* ------------------------------------------------------------------------- *)
(** ** The DOM pieces the handlers read                                       *)
(* ------------------------------------------------------------------------- *)

(** [canvas.getBoundingClientRect()] *)
Record DOMRect : Type := mkRect {
  rect_left : number;
  rect_top : number;
  rect_width : number;
  rect_height : number
}.

(** The [<canvas>] element: its [width] / [height] attributes and its place
    on screen. *)
Record Canvas : Type := mkCanvas {
  width : number;
  height : number;
  getBoundingClientRect : DOMRect
}.

(** The container [<div>]; [querySelector('canvas')] may find nothing. *)
Record Container : Type := mkContainer {
  querySelector_canvas : option Canvas
}.

(** [HTMLImageElement], as far as the clamp reads it. *)
Record Image : Type := mkImage {
  img_width : number;
  img_height : number
}.

(** [containerRef.current?.querySelector('canvas')] *)
Definition find_canvas (containerRef : option Container) : option Canvas :=
  match containerRef with
  | None => None
  | Some c => querySelector_canvas c
  end.

(** A mouse or wheel event, as far as the handlers read it. *)
Record MouseEvent : Type := mkMouse {
  clientX : number;
  clientY : number;
  button : Z;
  ctrlKey : bool;
  deltaY : number
}.

(** A keyboard event. *)
Record KeyboardEvent : Type := mkKey {
  key : string;
  key_ctrlKey : bool;
  key_metaKey : bool
}.

Inductive ToolType : Type := pen | arrow | circle | emoji.

(** [EMOJIS[0]] of RealTimeMapApp, the grinning face. *)
Definition EMOJIS_0 : string := "😀".

Definition ToolType_eqb (a b : ToolType) : bool :=
  match a, b with
  | pen, pen | arrow, arrow | circle, circle | emoji, emoji => true
  | _, _ => false
  end.

(** The [DrawAction] interface; its fields are read as [Act.userId],
    [Act.expireAt], ...  ([end_] and [emoji_] stand for [end] and [emoji],
    which are taken.)  An optional field is an [option]. *)
Module Act.
Record DrawAction : Type := mkAction {
  userId : string;
  userName : string;
  color : string;
  tool : ToolType;
  lineWidth : number;
  start : Point;
  end_ : Point;
  emoji_ : option string;
  expireAt : option number
}.
End Act.

Definition DrawAction : Type := Act.DrawAction.

(* ------------------------------------------------------------------------- *)
(** ** The 2D canvas context                                                  *)
(* ------------------------------------------------------------------------- *)

(** The current transformation matrix [[a c e; b d f; 0 0 1]]. *)
Record Matrix : Type := mkMatrix {
  m_a : number; m_b : number; m_c : number;
  m_d : number; m_e : number; m_f : number
}.

Definition identity_matrix : Matrix := mkMatrix 1 0 0 1 0 0.

(** Calls that reach the canvas; [stroke], [fill] and [fillText] carry the
    style they paint with. *)
Inductive CanvasCall : Type :=
| clearRect (px py w h : number)
| drawImage (img : Image) (px py : number)
| beginPath
| moveTo (px py : number)
| lineTo (px py : number)
| arc (px py radius startAngle endAngle : number)
| closePath
| stroke (style : string) (w : number)
| fill (style : string)
| fillText (text font style : string) (px py : number).

Record Context2D : Type := mkCtx {
  strokeStyle : string;
  fillStyle : string;
  ctx_lineWidth : number;
  font : string;
  transform : Matrix;
  calls : list CanvasCall
}.

(** The state of a context whose canvas has just been resized. *)
Definition freshContext : Context2D :=
  mkCtx "#000000" "#000000" 1 "10px sans-serif" identity_matrix [].

Definition set_strokeStyle (s : string) (ctx : Context2D) : Context2D :=
  mkCtx s (fillStyle ctx) (ctx_lineWidth ctx) (font ctx) (transform ctx) (calls ctx).

Definition set_fillStyle (s : string) (ctx : Context2D) : Context2D :=
  mkCtx (strokeStyle ctx) s (ctx_lineWidth ctx) (font ctx) (transform ctx) (calls ctx).

Definition set_lineWidth (w : number) (ctx : Context2D) : Context2D :=
  mkCtx (strokeStyle ctx) (fillStyle ctx) w (font ctx) (transform ctx) (calls ctx).

Definition set_font (f : string) (ctx : Context2D) : Context2D :=
  mkCtx (strokeStyle ctx) (fillStyle ctx) (ctx_lineWidth ctx) f (transform ctx) (calls ctx).

Definition set_transform (m : Matrix) (ctx : Context2D) : Context2D :=
  mkCtx (strokeStyle ctx) (fillStyle ctx) (ctx_lineWidth ctx) (font ctx) m (calls ctx).

Definition call (c : CanvasCall) (ctx : Context2D) : Context2D :=
  mkCtx (strokeStyle ctx) (fillStyle ctx) (ctx_lineWidth ctx) (font ctx)
        (transform ctx) (calls ctx ++ [c]).

Definition ctx_stroke (ctx : Context2D) : Context2D :=
  call (stroke (strokeStyle ctx) (ctx_lineWidth ctx)) ctx.

Definition ctx_fill (ctx : Context2D) : Context2D :=
  call (fill (fillStyle ctx)) ctx.

Definition ctx_fillText (text : string) (px py : number) (ctx : Context2D) : Context2D :=
  call (fillText text (font ctx) (fillStyle ctx) px py) ctx.

(** [ctx.restore()] after a [ctx.save()] taken at [saved]: styles and matrix
    come back, what was painted stays. *)
Definition ctx_restore (saved ctx : Context2D) : Context2D :=
  mkCtx (strokeStyle saved) (fillStyle saved) (ctx_lineWidth saved) (font saved)
        (transform saved) (calls ctx).

(** [ctx.translate(tx, ty)]: the matrix is multiplied on the right. *)
Definition ctx_translate (tx ty : number) (ctx : Context2D) : Context2D :=
  let m := transform ctx in
  set_transform
    (mkMatrix (m_a m) (m_b m) (m_c m) (m_d m)
              (m_a m * tx + m_c m * ty + m_e m)%js
              (m_b m * tx + m_d m * ty + m_f m)%js) ctx.

(** [ctx.scale(sx, sy)] *)
Definition ctx_scale (sx sy : number) (ctx : Context2D) : Context2D :=
  let m := transform ctx in
  set_transform
    (mkMatrix (m_a m * sx)%js (m_b m * sx)%js (m_c m * sy)%js (m_d m * sy)%js
              (m_e m) (m_f m)) ctx.

(** Where the matrix sends a point of user space, in canvas pixels. *)
Definition apply_matrix (m : Matrix) (p : Point) : Point :=
  mkPoint (m_a m * x p + m_c m * y p + m_e m)%js
          (m_b m * x p + m_d m * y p + m_f m)%js.

(** A canvas that is laid out at its own size shows canvas pixel [p] at the
    client position [rect.left + p.x, rect.top + p.y]. *)
Definition canvasToClient (rect : DOMRect) (p : Point) : Point :=
  mkPoint (rect_left rect + x p)%js (rect_top rect + y p)%js.

(** The functions of [Math] that round or are transcendental. *)
Class MathLib : Type := {
  Math_PI : number;
  Math_sqrt : number -> number;
  Math_hypot : number -> number -> number;
  Math_atan2 : number -> number -> number;
  Math_cos : number -> number;
  Math_sin : number -> number
}.

(* ------------------------------------------------------------------------- *)
(** ** Variant 1: CollaborativeDrawingTool                                    *)
(* ------------------------------------------------------------------------- *)

Module CollaborativeDrawingTool.

Definition parseFadeTime (value : string) : number :=
  if String.eqb value "10s" then 10000
  else if String.eqb value "30s" then 30000
  else if String.eqb value "1m" then 60000
  else if String.eqb value "5m" then 300000
  else if String.eqb value "10m" then 600000
  else Infinity.

(** [EMOJIS[0]] as this file spells it: the bytes of the grinning face read
    in a one-byte encoding and written back, four characters long. *)
Definition EMOJIS_0 : string := "ðŸ˜€".

Record State : Type := mkState {
  userId : string;
  userName : string;
  userColor : string;
  activeTool : ToolType;
  selectedEmoji : string;
  lineWidth : number;
  fadeSetting : string;
  drawActions : list DrawAction;
  isDrawing : bool;
  startPoint : Point;
  backgroundImage : option Image;
  scale : number;
  panX : number;
  panY : number;
  isPanning : bool;
  panStart : Point
}.

Definition initialState (uid name : string) : State :=
  mkState uid name "#ff0000" arrow EMOJIS_0 10 "permanent" []
          false (mkPoint 0 0) None 1 0 0 false (mkPoint 0 0).

Definition setDrawActions (f : list DrawAction -> list DrawAction) (s : State) : State :=
  mkState (userId s) (userName s) (userColor s) (activeTool s) (selectedEmoji s)
          (lineWidth s) (fadeSetting s) (f (drawActions s)) (isDrawing s)
          (startPoint s) (backgroundImage s) (scale s) (panX s) (panY s)
          (isPanning s) (panStart s).

Definition setIsDrawing (v : bool) (s : State) : State :=
  mkState (userId s) (userName s) (userColor s) (activeTool s) (selectedEmoji s)
          (lineWidth s) (fadeSetting s) (drawActions s) v
          (startPoint s) (backgroundImage s) (scale s) (panX s) (panY s)
          (isPanning s) (panStart s).

Definition setStartPoint (v : Point) (s : State) : State :=
  mkState (userId s) (userName s) (userColor s) (activeTool s) (selectedEmoji s)
          (lineWidth s) (fadeSetting s) (drawActions s) (isDrawing s)
          v (backgroundImage s) (scale s) (panX s) (panY s)
          (isPanning s) (panStart s).

Definition setScale (v : number) (s : State) : State :=
  mkState (userId s) (userName s) (userColor s) (activeTool s) (selectedEmoji s)
          (lineWidth s) (fadeSetting s) (drawActions s) (isDrawing s)
          (startPoint s) (backgroundImage s) v (panX s) (panY s)
          (isPanning s) (panStart s).

Definition setPanX (v : number) (s : State) : State :=
  mkState (userId s) (userName s) (userColor s) (activeTool s) (selectedEmoji s)
          (lineWidth s) (fadeSetting s) (drawActions s) (isDrawing s)
          (startPoint s) (backgroundImage s) (scale s) v (panY s)
          (isPanning s) (panStart s).

Definition setPanY (v : number) (s : State) : State :=
  mkState (userId s) (userName s) (userColor s) (activeTool s) (selectedEmoji s)
          (lineWidth s) (fadeSetting s) (drawActions s) (isDrawing s)
          (startPoint s) (backgroundImage s) (scale s) (panX s) v
          (isPanning s) (panStart s).

Definition setIsPanning (v : bool) (s : State) : State :=
  mkState (userId s) (userName s) (userColor s) (activeTool s) (selectedEmoji s)
          (lineWidth s) (fadeSetting s) (drawActions s) (isDrawing s)
          (startPoint s) (backgroundImage s) (scale s) (panX s) (panY s)
          v (panStart s).

Definition setPanStart (v : Point) (s : State) : State :=
  mkState (userId s) (userName s) (userColor s) (activeTool s) (selectedEmoji s)
          (lineWidth s) (fadeSetting s) (drawActions s) (isDrawing s)
          (startPoint s) (backgroundImage s) (scale s) (panX s) (panY s)
          (isPanning s) v.

(** The period of the fade interval, in milliseconds. *)
Definition fadeIntervalMs : Z := 2000.

Section Handlers.

(** [containerRef.current] of the render the handlers close over. *)
Variable containerRef : option Container.

(** The fade mechanism: the filter of one tick of the interval. *)
Definition keepAction (now : number) (action : DrawAction) : bool :=
  if negb (truthy_opt (Act.expireAt action))
     || strict_eq_opt (Act.expireAt action) Infinity
  then true
  else lt_opt now (Act.expireAt action).

Definition fadeTick (now : number) (s : State) : State :=
  setDrawActions (filter (keepAction now)) s.

Definition screenToWorld (s : State) (screenX screenY : number) : Point :=
  match containerRef with
  | None => mkPoint screenX screenY
  | Some container =>
      match querySelector_canvas container with
      | None => mkPoint screenX screenY
      | Some canvas =>
          let rect := getBoundingClientRect canvas in
          let localX := (screenX - rect_left rect)%js in
          let localY := (screenY - rect_top rect)%js in
          let worldX := (localX / scale s + panX s)%js in
          let worldY := (localY / scale s + panY s)%js in
          mkPoint worldX worldY
      end
  end.

Definition clampPan (s : State) (px py sc : number) : Point :=
  match find_canvas containerRef with
  | None => mkPoint px py
  | Some canvas =>
      let cw := width canvas in
      let ch := height canvas in
      match backgroundImage s with
      | None => mkPoint px py
      | Some img =>
          let bgw := img_width img in
          let bgh := img_height img in
          let minPanX : number := 0 in
          let minPanY : number := 0 in
          let maxPanX := (bgw - cw / sc)%js in
          let maxPanX := if (maxPanX <? 0)%js then Fin 0 else maxPanX in
          let maxPanY := (bgh - ch / sc)%js in
          let maxPanY := if (maxPanY <? 0)%js then Fin 0 else maxPanY in
          let clampedX := px in
          let clampedY := py in
          let clampedX := if (clampedX <? minPanX)%js then minPanX else clampedX in
          let clampedX := if (clampedX >? maxPanX)%js then maxPanX else clampedX in
          let clampedY := if (clampedY <? minPanY)%js then minPanY else clampedY in
          let clampedY := if (clampedY >? maxPanY)%js then maxPanY else clampedY in
          mkPoint clampedX clampedY
      end
  end.

Definition handleMouseDown (e : MouseEvent) (s : State) : State :=
  match containerRef with
  | None => s
  | Some _ =>
      if ctrlKey e then
        setPanStart (mkPoint (clientX e) (clientY e)) (setIsPanning true s)
      else
        let p := screenToWorld s (clientX e) (clientY e) in
        setIsDrawing true (setStartPoint (mkPoint (x p) (y p)) s)
  end.

(** [expireAt] of an action created at [Date.now() = now]. *)
Definition newExpireAt (now : number) (s : State) : number :=
  let fadeMs := parseFadeTime (fadeSetting s) in
  if (fadeMs === Infinity)%js then Infinity else (now + fadeMs)%js.

Definition handleMouseMove (now : number) (e : MouseEvent) (s : State) : State :=
  if isPanning s then
    let dx := (clientX e - x (panStart s))%js in
    let dy := (clientY e - y (panStart s))%js in
    let nx := (panX s - dx / scale s)%js in
    let ny := (panY s - dy / scale s)%js in
    let clamped := clampPan s nx ny (scale s) in
    setPanY (y clamped)
      (setPanX (x clamped)
         (setPanStart (mkPoint (clientX e) (clientY e)) s))
  else if negb (isDrawing s) then s
  else if ToolType_eqb (activeTool s) pen then
    let p := screenToWorld s (clientX e) (clientY e) in
    let newAction :=
      Act.mkAction (userId s) (userName s) (userColor s) pen (lineWidth s)
               (mkPoint (x (startPoint s)) (y (startPoint s)))
               (mkPoint (x p) (y p)) None (Some (newExpireAt now s)) in
    setStartPoint (mkPoint (x p) (y p))
      (setDrawActions (fun prev => prev ++ [newAction]) s)
  else s.

Definition handleMouseUp (now : number) (e : MouseEvent) (s : State) : State :=
  if isPanning s then setIsPanning false s
  else if negb (isDrawing s) then s
  else
    let p := screenToWorld s (clientX e) (clientY e) in
    let s' :=
      if ToolType_eqb (activeTool s) arrow
         || ToolType_eqb (activeTool s) circle
         || ToolType_eqb (activeTool s) emoji
      then
        let newAction :=
          Act.mkAction (userId s) (userName s) (userColor s) (activeTool s)
                   (lineWidth s)
                   (mkPoint (x (startPoint s)) (y (startPoint s)))
                   (mkPoint (x p) (y p)) (Some (selectedEmoji s))
                   (Some (newExpireAt now s)) in
        setDrawActions (fun prev => prev ++ [newAction]) s
      else s in
    setIsDrawing false s'.

(** The undo shortcuts. *)
Definition handleKeyDown (e : KeyboardEvent) (s : State) : State :=
  if String.eqb (key e) "Backspace" then
    setDrawActions (fun prev => slice prev 0 (-1)) s
  else
    let isCtrlOrCmd := key_ctrlKey e || key_metaKey e in
    if isCtrlOrCmd && String.eqb (toLowerCase (key e)) "z" then
      setDrawActions (fun prev => slice prev 0 (-1)) s
    else s.

Definition handleWheel (e : MouseEvent) (s : State) : State :=
  match find_canvas containerRef with
  | None => s
  | Some canvas =>
      let rect := getBoundingClientRect canvas in
      let mouseX := (clientX e - rect_left rect)%js in
      let mouseY := (clientY e - rect_top rect)%js in
      let newScale := scale s in
      let newScale :=
        if (deltaY e <? 0)%js then
          let newScale := (newScale * Fin (11 # 10))%js in
          if (newScale >? 4)%js then Fin 4 else newScale
        else
          let newScale := (newScale / Fin (11 # 10))%js in
          if (newScale <? 1)%js then Fin 1 else newScale in
      let worldXBefore := (mouseX / scale s + panX s)%js in
      let worldYBefore := (mouseY / scale s + panY s)%js in
      let worldXAfter := worldXBefore in
      let worldYAfter := worldYBefore in
      let newPanX := (worldXAfter - mouseX / newScale)%js in
      let newPanY := (worldYAfter - mouseY / newScale)%js in
      let clamped := clampPan s newPanX newPanY newScale in
      setPanY (y clamped) (setPanX (x clamped) (setScale newScale s))
  end.

Definition zoomAroundCenter (newScale : number) (s : State) : State :=
  match find_canvas containerRef with
  | None => setScale newScale s
  | Some canvas =>
      let rect := getBoundingClientRect canvas in
      let centerX := (rect_width rect / 2)%js in
      let centerY := (rect_height rect / 2)%js in
      let worldXBefore := (centerX / scale s + panX s)%js in
      let worldYBefore := (centerY / scale s + panY s)%js in
      let newPanX := (worldXBefore - centerX / newScale)%js in
      let newPanY := (worldYBefore - centerY / newScale)%js in
      let clamped := clampPan s newPanX newPanY newScale in
      setPanY (y clamped) (setPanX (x clamped) (setScale newScale s))
  end.

Definition zoomIn (s : State) : State :=
  let newScale := (scale s * Fin (11 # 10))%js in
  let newScale := if (newScale >? 4)%js then Fin 4 else newScale in
  zoomAroundCenter newScale s.

Definition zoomOut (s : State) : State :=
  let newScale := (scale s / Fin (11 # 10))%js in
  let newScale := if (newScale <? 1)%js then Fin 1 else newScale in
  zoomAroundCenter newScale s.

Definition resetZoom (s : State) : State :=
  setPanY 0 (setPanX 0 (setScale 1 s)).

End Handlers.

(** *** Draw helpers *)

Section Draw.
Context {M : MathLib}.

Definition drawArrowHead (ctx : Context2D)
           (xTip yTip angle lw headLength : number) : Context2D :=
  let ctx := call beginPath ctx in
  let ctx := call (moveTo xTip yTip) ctx in
  let ctx :=
    call (lineTo (xTip - headLength * Math_cos (angle - Math_PI / 6))
                 (yTip - headLength * Math_sin (angle - Math_PI / 6)))%js ctx in
  let ctx :=
    call (lineTo (xTip - headLength * Math_cos (angle + Math_PI / 6))
                 (yTip - headLength * Math_sin (angle + Math_PI / 6)))%js ctx in
  let ctx := call closePath ctx in
  let ctx := set_fillStyle (strokeStyle ctx) ctx in
  ctx_fill ctx.

Definition drawArrow (ctx : Context2D) (action : DrawAction) : Context2D :=
  let x1 := x (Act.start action) in
  let y1 := y (Act.start action) in
  let x2 := x (Act.end_ action) in
  let y2 := y (Act.end_ action) in
  let lw := Act.lineWidth action in
  let angle := Math_atan2 (y2 - y1)%js (x2 - x1)%js in
  let dx := (x2 - x1)%js in
  let dy := (y2 - y1)%js in
  let dist := Math_sqrt (dx * dx + dy * dy)%js in
  let headLength := (lw * 3)%js in
  let lineEndDistance := (lw * Fin (3 # 2))%js in
  if (dist <? lineEndDistance)%js then
    drawArrowHead ctx x2 y2 angle lw headLength
  else
    let xBase := (x2 - lineEndDistance * Math_cos angle)%js in
    let yBase := (y2 - lineEndDistance * Math_sin angle)%js in
    let ctx := call beginPath ctx in
    let ctx := set_strokeStyle (Act.color action) ctx in
    let ctx := set_lineWidth lw ctx in
    let ctx := call (moveTo x1 y1) ctx in
    let ctx := call (lineTo xBase yBase) ctx in
    let ctx := ctx_stroke ctx in
    drawArrowHead ctx x2 y2 angle lw headLength.

End Draw.

End CollaborativeDrawingTool.

(* ------------------------------------------------------------------------- *)
(** ** Variant 2: RealTimeMapApp                                              *)
(* ------------------------------------------------------------------------- *)

Module RealTimeMapApp.

Record FadeOption : Type := mkFade {
  label : string;
  value : string;
  ms : number
}.

Definition FADE_OPTIONS : list FadeOption :=
  [ mkFade "10 s" "10s" 10000;
    mkFade "30 s" "30s" 30000;
    mkFade "1 min" "1m" 60000;
    mkFade "5 min" "5m" 300000;
    mkFade "10 min" "10m" 600000;
    mkFade "Permanent" "permanent" Infinity ].

Definition fadeToMs (v : string) : number :=
  match find (fun o => String.eqb (value o) v) FADE_OPTIONS with
  | Some o => ms o
  | None => Infinity
  end.

(** The [id] of a slice of the radial menu, [`${kind}:${value}`] with the
    kind ['colour'] or ['tool']; [id.split(':')] gives the kind and the value
    back, as no colour of the pool and no tool name holds a colon. *)
Inductive SliceId : Type :=
| colourId (value : string)
| toolId (value : ToolType).

Record State : Type := mkState {
  userId : string;
  userName : string;
  userColour : string;
  currentTool : ToolType;
  lineWidth : number;
  selectedEmoji : string;
  fadeSetting : string;
  actions : list DrawAction;
  scale : number;
  pan : Point;
  isPanning : bool;
  panStart : Point;
  isDrawing : bool;
  drawStart : Point;
  bgImage : option Image;
  menuOpen : bool;
  menuPos : Point;
  (** [hoverId], the empty string being [None]. *)
  hoverId : option SliceId
}.

Definition initialState (uid : string) : State :=
  mkState uid "Guest" "#ef4444" arrow 10 EMOJIS_0 "permanent" []
          1 (mkPoint 0 0) false (mkPoint 0 0) false (mkPoint 0 0)
          None false (mkPoint 0 0) None.

Definition setActions (f : list DrawAction -> list DrawAction) (s : State) : State :=
  mkState (userId s) (userName s) (userColour s) (currentTool s) (lineWidth s)
          (selectedEmoji s) (fadeSetting s) (f (actions s)) (scale s) (pan s)
          (isPanning s) (panStart s) (isDrawing s) (drawStart s) (bgImage s)
          (menuOpen s) (menuPos s) (hoverId s).

Definition setScale (v : number) (s : State) : State :=
  mkState (userId s) (userName s) (userColour s) (currentTool s) (lineWidth s)
          (selectedEmoji s) (fadeSetting s) (actions s) v (pan s)
          (isPanning s) (panStart s) (isDrawing s) (drawStart s) (bgImage s)
          (menuOpen s) (menuPos s) (hoverId s).

Definition setPan (f : Point -> Point) (s : State) : State :=
  mkState (userId s) (userName s) (userColour s) (currentTool s) (lineWidth s)
          (selectedEmoji s) (fadeSetting s) (actions s) (scale s) (f (pan s))
          (isPanning s) (panStart s) (isDrawing s) (drawStart s) (bgImage s)
          (menuOpen s) (menuPos s) (hoverId s).

Definition set_isPanning (v : bool) (s : State) : State :=
  mkState (userId s) (userName s) (userColour s) (currentTool s) (lineWidth s)
          (selectedEmoji s) (fadeSetting s) (actions s) (scale s) (pan s)
          v (panStart s) (isDrawing s) (drawStart s) (bgImage s)
          (menuOpen s) (menuPos s) (hoverId s).

Definition set_panStart (v : Point) (s : State) : State :=
  mkState (userId s) (userName s) (userColour s) (currentTool s) (lineWidth s)
          (selectedEmoji s) (fadeSetting s) (actions s) (scale s) (pan s)
          (isPanning s) v (isDrawing s) (drawStart s) (bgImage s)
          (menuOpen s) (menuPos s) (hoverId s).

Definition set_isDrawing (v : bool) (s : State) : State :=
  mkState (userId s) (userName s) (userColour s) (currentTool s) (lineWidth s)
          (selectedEmoji s) (fadeSetting s) (actions s) (scale s) (pan s)
          (isPanning s) (panStart s) v (drawStart s) (bgImage s)
          (menuOpen s) (menuPos s) (hoverId s).

Definition set_drawStart (v : Point) (s : State) : State :=
  mkState (userId s) (userName s) (userColour s) (currentTool s) (lineWidth s)
          (selectedEmoji s) (fadeSetting s) (actions s) (scale s) (pan s)
          (isPanning s) (panStart s) (isDrawing s) v (bgImage s)
          (menuOpen s) (menuPos s) (hoverId s).

Definition setMenuOpen (v : bool) (s : State) : State :=
  mkState (userId s) (userName s) (userColour s) (currentTool s) (lineWidth s)
          (selectedEmoji s) (fadeSetting s) (actions s) (scale s) (pan s)
          (isPanning s) (panStart s) (isDrawing s) (drawStart s) (bgImage s)
          v (menuPos s) (hoverId s).

Definition setMenuPos (v : Point) (s : State) : State :=
  mkState (userId s) (userName s) (userColour s) (currentTool s) (lineWidth s)
          (selectedEmoji s) (fadeSetting s) (actions s) (scale s) (pan s)
          (isPanning s) (panStart s) (isDrawing s) (drawStart s) (bgImage s)
          (menuOpen s) v (hoverId s).

Definition setHoverId (v : option SliceId) (s : State) : State :=
  mkState (userId s) (userName s) (userColour s) (currentTool s) (lineWidth s)
          (selectedEmoji s) (fadeSetting s) (actions s) (scale s) (pan s)
          (isPanning s) (panStart s) (isDrawing s) (drawStart s) (bgImage s)
          (menuOpen s) (menuPos s) v.

Definition setUserColour (v : string) (s : State) : State :=
  mkState (userId s) (userName s) v (currentTool s) (lineWidth s)
          (selectedEmoji s) (fadeSetting s) (actions s) (scale s) (pan s)
          (isPanning s) (panStart s) (isDrawing s) (drawStart s) (bgImage s)
          (menuOpen s) (menuPos s) (hoverId s).

Definition setCurrentTool (v : ToolType) (s : State) : State :=
  mkState (userId s) (userName s) (userColour s) v (lineWidth s)
          (selectedEmoji s) (fadeSetting s) (actions s) (scale s) (pan s)
          (isPanning s) (panStart s) (isDrawing s) (drawStart s) (bgImage s)
          (menuOpen s) (menuPos s) (hoverId s).

Definition setLineWidth (v : number) (s : State) : State :=
  mkState (userId s) (userName s) (userColour s) (currentTool s) v
          (selectedEmoji s) (fadeSetting s) (actions s) (scale s) (pan s)
          (isPanning s) (panStart s) (isDrawing s) (drawStart s) (bgImage s)
          (menuOpen s) (menuPos s) (hoverId s).

(** The period of the fade interval, in milliseconds. *)
Definition fadeIntervalMs : Z := 2000.

(** [THICK_PRESETS[+e.key]].  [e.key] is the name of a key; unary plus
    turns the names ["1"] to ["4"] into the keys of the table, and no other
    name of a key into one of them. *)
Definition THICK_PRESETS (key : string) : option number :=
  if String.eqb key "1" then Some (Fin 5)
  else if String.eqb key "2" then Some (Fin 10)
  else if String.eqb key "3" then Some (Fin 15)
  else if String.eqb key "4" then Some (Fin 20)
  else None.

(** Keyboard shortcut: thickness preset. *)
Definition thicknessHandler (e : KeyboardEvent) (s : State) : State :=
  match THICK_PRESETS (key e) with
  | Some preset => if truthy preset then setLineWidth preset s else s
  | None => s
  end.

(** Commit selection and close menu. *)
Definition commitSlice (id : option SliceId) (s : State) : State :=
  match id with
  | None => s
  | Some id =>
      let s := match id with
               | colourId val => setUserColour val s
               | toolId val => setCurrentTool val s
               end in
      setMenuOpen false (setHoverId None s)
  end.

Section Handlers.

(** [canvasContainerRef.current] of the render the handlers close over. *)
Variable canvasContainerRef : option Container.

(** Undo shortcuts. *)
Definition undoHandler (e : KeyboardEvent) (s : State) : State :=
  if String.eqb (key e) "Backspace" then
    setActions (fun prev => slice prev 0 (-1)) s
  else
    let isCtrlOrCmd := key_ctrlKey e || key_metaKey e in
    if isCtrlOrCmd && String.eqb (toLowerCase (key e)) "z" then
      setActions (fun prev => slice prev 0 (-1)) s
    else s.

(** Fade-out timer trim: the filter of one tick. *)
Definition keepAction (now : number) (act : DrawAction) : bool :=
  negb (truthy_opt (Act.expireAt act))
  || strict_eq_opt (Act.expireAt act) Infinity
  || lt_opt now (Act.expireAt act).

Definition fadeTick (now : number) (s : State) : State :=
  setActions (filter (keepAction now)) s.

Definition screenToWorld (s : State) (sx sy : number) : Point :=
  match find_canvas canvasContainerRef with
  | None => mkPoint sx sy
  | Some canvas =>
      let rect := getBoundingClientRect canvas in
      mkPoint ((sx - rect_left rect) / scale s + x (pan s))%js
              ((sy - rect_top rect) / scale s + y (pan s))%js
  end.

Definition clampPan (s : State) (px py sc : number) : Point :=
  match find_canvas canvasContainerRef, bgImage s with
  | Some canvas, Some bg =>
      let maxX := JS.max 0 (img_width bg - width canvas / sc)%js in
      let maxY := JS.max 0 (img_height bg - height canvas / sc)%js in
      mkPoint (JS.min (JS.max 0 px) maxX) (JS.min (JS.max 0 py) maxY)
  | _, _ => mkPoint px py
  end.

Definition pushAction (now : number) (tool : ToolType) (start end_ : Point)
           (s : State) : State :=
  setActions
    (fun prev =>
       prev ++ [Act.mkAction (userId s) (userName s) (userColour s) tool
                             (lineWidth s) start end_
                             (Some (selectedEmoji s))
                             (Some (now + fadeToMs (fadeSetting s))%js)])
    s.

Definition handleMouseDown (e : MouseEvent) (s : State) : State :=
  if (button e =? 2)%Z then
    setMenuOpen true (setMenuPos (mkPoint (clientX e) (clientY e)) s)
  else if menuOpen s then setMenuOpen false s
  else if ctrlKey e then
    set_panStart (mkPoint (clientX e) (clientY e)) (set_isPanning true s)
  else
    set_drawStart (screenToWorld s (clientX e) (clientY e))
                  (set_isDrawing true s).

Definition handleMouseMove (now : number) (e : MouseEvent) (s : State) : State :=
  if isPanning s then
    let dx := (clientX e - x (panStart s))%js in
    let dy := (clientY e - y (panStart s))%js in
    set_panStart (mkPoint (clientX e) (clientY e))
      (setPan (fun prev => clampPan s (x prev - dx / scale s)%js
                                      (y prev - dy / scale s)%js (scale s)) s)
  else if isDrawing s && ToolType_eqb (currentTool s) pen then
    let start := drawStart s in
    let end_ := screenToWorld s (clientX e) (clientY e) in
    set_drawStart end_ (pushAction now pen start end_ s)
  else s.

Definition handleMouseUp (now : number) (e : MouseEvent) (s : State) : State :=
  if isPanning s then set_isPanning false s
  else if negb (isDrawing s) then s
  else
    let endPt := screenToWorld s (clientX e) (clientY e) in
    pushAction now (currentTool s) (drawStart s) endPt (set_isDrawing false s).

Definition handleWheel (e : MouseEvent) (s : State) : State :=
  match find_canvas canvasContainerRef with
  | None => s
  | Some canvas =>
      let rect := getBoundingClientRect canvas in
      let localX := (clientX e - rect_left rect)%js in
      let localY := (clientY e - rect_top rect)%js in
      let newScale :=
        (scale s * (if (deltaY e <? 0)%js then Fin (11 # 10)
                    else Fin 1 / Fin (11 # 10)))%js in
      let newScale := JS.min (JS.max 1 newScale) 4 in
      let worldX := (localX / scale s + x (pan s))%js in
      let worldY := (localY / scale s + y (pan s))%js in
      let newPan := clampPan s (worldX - localX / newScale)%js
                               (worldY - localY / newScale)%js newScale in
      setPan (fun _ => newPan) (setScale newScale s)
  end.

(** Zoom via the +/- buttons. *)
Definition zoomByFactor (factor : number) (s : State) : State :=
  let newScale := (scale s * factor)%js in
  let newScale := JS.min (JS.max 1 newScale) 4 in
  match find_canvas canvasContainerRef with
  | None => setScale newScale s
  | Some canvas =>
      let rect := getBoundingClientRect canvas in
      let centerX := (rect_width rect / 2)%js in
      let centerY := (rect_height rect / 2)%js in
      let worldX := (centerX / scale s + x (pan s))%js in
      let worldY := (centerY / scale s + y (pan s))%js in
      setPan (fun _ => clampPan s (worldX - centerX / newScale)%js
                                  (worldY - centerY / newScale)%js newScale)
             (setScale newScale s)
  end.

Definition zoomInButton : State -> State := zoomByFactor (Fin (11 # 10)).
Definition zoomOutButton : State -> State :=
  zoomByFactor (Fin 1 / Fin (11 # 10))%js.

End Handlers.

(** *** Canvas paint *)

Section Paint.
Context {M : MathLib}.

(** Draws an arrow (shaft + filled triangular head). *)
Definition drawArrow (ctx : Context2D) (action : DrawAction) : Context2D :=
  let x1 := x (Act.start action) in
  let y1 := y (Act.start action) in
  let x2 := x (Act.end_ action) in
  let y2 := y (Act.end_ action) in
  let lw := Act.lineWidth action in
  let angle := Math_atan2 (y2 - y1)%js (x2 - x1)%js in
  let headLength := (lw * 3)%js in
  let ctx := call beginPath ctx in
  let ctx := call (moveTo x1 y1) ctx in
  let ctx := call (lineTo (x2 - headLength * Math_cos angle)
                          (y2 - headLength * Math_sin angle))%js ctx in
  let ctx := ctx_stroke ctx in
  let ctx := call beginPath ctx in
  let ctx := call (moveTo x2 y2) ctx in
  let ctx :=
    call (lineTo (x2 - headLength * Math_cos (angle - Fin (1 # 2)))
                 (y2 - headLength * Math_sin (angle - Fin (1 # 2))))%js ctx in
  let ctx :=
    call (lineTo (x2 - headLength * Math_cos (angle + Fin (1 # 2)))
                 (y2 - headLength * Math_sin (angle + Fin (1 # 2))))%js ctx in
  let ctx := call closePath ctx in
  let ctx := set_fillStyle (strokeStyle ctx) ctx in
  ctx_fill ctx.

(** Draws a circle defined by drag radius. *)
Definition drawCircle (ctx : Context2D) (action : DrawAction) : Context2D :=
  let radius :=
    Math_hypot (x (Act.end_ action) - x (Act.start action))%js
               (y (Act.end_ action) - y (Act.start action))%js in
  let ctx := call beginPath ctx in
  let ctx := call (arc (x (Act.start action)) (y (Act.start action)) radius 0
                       (Math_PI * 2)%js) ctx in
  ctx_stroke ctx.

(** The body of [actions.forEach]. *)
Definition paintAction (ctx : Context2D) (act : DrawAction) : Context2D :=
  let ctx := set_strokeStyle (Act.color act) ctx in
  let ctx := set_lineWidth (Act.lineWidth act) ctx in
  match Act.tool act with
  | pen =>
      let ctx := call beginPath ctx in
      let ctx := call (moveTo (x (Act.start act)) (y (Act.start act))) ctx in
      let ctx := call (lineTo (x (Act.end_ act)) (y (Act.end_ act))) ctx in
      ctx_stroke ctx
  | arrow => drawArrow ctx act
  | circle => drawCircle ctx act
  | emoji =>
      let ctx := set_font "32px sans-serif" ctx in
      let text := match Act.emoji_ act with
                  | None | Some EmptyString => EMOJIS_0
                  | Some e => e
                  end in
      ctx_fillText text (x (Act.end_ act)) (y (Act.end_ act)) ctx
  end.

(** Apply pan + zoom: the two calls that set the matrix for a paint. *)
Definition applyPanZoom (s : State) (ctx : Context2D) : Context2D :=
  let ctx := ctx_translate (- x (pan s) * scale s)%js
                           (- y (pan s) * scale s)%js ctx in
  ctx_scale (scale s) (scale s) ctx.

(** The paint effect on a canvas resized to [innerWidth] x [innerHeight]. *)
Definition paint (innerWidth innerHeight : number) (s : State) : Context2D :=
  let ctx := freshContext in
  let saved := ctx in
  let ctx := applyPanZoom s ctx in
  let ctx := call (clearRect (x (pan s)) (y (pan s))
                             (innerWidth / scale s)%js
                             (innerHeight / scale s)%js) ctx in
  let ctx := match bgImage s with
             | Some bg => call (drawImage bg 0 0) ctx
             | None => ctx
             end in
  let ctx := fold_left paintAction (actions s) ctx in
  ctx_restore saved ctx.

(** Where a paint shows a world point: through the matrix of the paint to
    canvas pixels, then to the canvas's place on screen. *)
Definition worldToScreen (rect : DOMRect) (s : State) (w : Point) : Point :=
  canvasToClient rect (apply_matrix (transform (applyPanZoom s freshContext)) w).

End Paint.

End RealTimeMapApp.

(* ------------------------------------------------------------------------- *)
(** ** Dispatch: the events a mounted component receives                      *)
(* ------------------------------------------------------------------------- *)

Module CollaborativeDrawingToolRun.
Import CollaborativeDrawingTool.

Inductive Event : Type :=
| MouseDown (e : MouseEvent)
| MouseMove (now : number) (e : MouseEvent)
| MouseUp (now : number) (e : MouseEvent)
| Wheel (e : MouseEvent)
| KeyDown (e : KeyboardEvent)
| ClickZoomIn
| ClickZoomOut
| ClickReset
| FadeTick (now : number).

Definition step (containerRef : option Container) (ev : Event) (s : State) : State :=
  match ev with
  | MouseDown e => handleMouseDown containerRef e s
  | MouseMove now e => handleMouseMove containerRef now e s
  | MouseUp now e => handleMouseUp containerRef now e s
  | Wheel e => handleWheel containerRef e s
  | KeyDown e => handleKeyDown e s
  | ClickZoomIn => zoomIn containerRef s
  | ClickZoomOut => zoomOut containerRef s
  | ClickReset => resetZoom s
  | FadeTick now => fadeTick now s
  end.

Definition run (containerRef : option Container) (evs : list Event) (s : State) : State :=
  fold_left (fun s ev => step containerRef ev s) evs s.

(** One pointer: a button goes down only when none is held, and up only
    when one is. *)
Fixpoint onePointer (held : bool) (evs : list Event) : bool :=
  match evs with
  | [] => true
  | MouseDown _ :: rest => negb held && onePointer true rest
  | MouseUp _ _ :: rest => held && onePointer false rest
  | _ :: rest => onePointer held rest
  end.

Fixpoint heldAfter (held : bool) (evs : list Event) : bool :=
  match evs with
  | [] => held
  | MouseDown _ :: rest => heldAfter true rest
  | MouseUp _ _ :: rest => heldAfter false rest
  | _ :: rest => heldAfter held rest
  end.

End CollaborativeDrawingToolRun.

Module RealTimeMapAppRun.
Import RealTimeMapApp.

Inductive Event : Type :=
| MouseDown (e : MouseEvent)
| MouseMove (now : number) (e : MouseEvent)
| MouseUp (now : number) (e : MouseEvent)
| Wheel (e : MouseEvent)
| KeyDown (e : KeyboardEvent)
| ClickZoom (factor : number)
| FadeTick (now : number)
| SliceEnter (id : SliceId)
| SliceClick (id : SliceId)
| MenuLeave
| CentreClick.

(** The events of the radial menu reach a handler only while the menu is
    rendered, that is while [menuOpen] holds.  A key goes to both listeners
    of [keydown], in the order their effects registered them. *)
Definition step (canvasContainerRef : option Container) (ev : Event) (s : State) : State :=
  match ev with
  | MouseDown e => handleMouseDown canvasContainerRef e s
  | MouseMove now e => handleMouseMove canvasContainerRef now e s
  | MouseUp now e => handleMouseUp canvasContainerRef now e s
  | Wheel e => handleWheel canvasContainerRef e s
  | KeyDown e => undoHandler e (thicknessHandler e s)
  | ClickZoom factor => zoomByFactor canvasContainerRef factor s
  | FadeTick now => fadeTick now s
  | SliceEnter id => if menuOpen s then setHoverId (Some id) s else s
  | SliceClick id => if menuOpen s then commitSlice (Some id) s else s
  | MenuLeave => if menuOpen s then commitSlice (hoverId s) s else s
  | CentreClick => if menuOpen s then setMenuOpen false s else s
  end.

Definition run (canvasContainerRef : option Container) (evs : list Event) (s : State) : State :=
  fold_left (fun s ev => step canvasContainerRef ev s) evs s.

Fixpoint onePointer (held : bool) (evs : list Event) : bool :=
  match evs with
  | [] => true
  | MouseDown _ :: rest => negb held && onePointer true rest
  | MouseUp _ _ :: rest => held && onePointer false rest
  | _ :: rest => onePointer held rest
  end.

Fixpoint heldAfter (held : bool) (evs : list Event) : bool :=
  match evs with
  | [] => held
  | MouseDown _ :: rest => heldAfter true rest
  | MouseUp _ _ :: rest => heldAfter false rest
  | _ :: rest => heldAfter held rest
  end.

End RealTimeMapAppRun.

(* ------------------------------------------------------------------------- *)
(** ** The specification's vocabulary                                         *)
(* ------------------------------------------------------------------------- *)

Module Spec.

(** The rational a finite number stands for. *)
Definition toQ (a : number) : Q :=
  match a with Fin q => q | _ => 0 end.

(** "Output is the input clamped component-wise into [min, max]". *)
Definition clamp (lo hi v : Q) : Q := Qmin (Qmax lo v) hi.

(** "maxPanX = max(0, bgw - viewportWidth/scale)". *)
Definition maxPan (bg vp sc : Q) : Q := Qmax 0 (bg - vp / sc).

(** The contract of section 4.2: identity without a background, otherwise
    the clamp into [0, maxPan] on each axis. *)
Definition spec_clampPan (px py sc : Q) (bg : option (Q * Q)) (vp : Q * Q) : Q * Q :=
  match bg with
  | None => (px, py)
  | Some (bgw, bgh) =>
      (clamp 0 (maxPan bgw (fst vp) sc) px, clamp 0 (maxPan bgh (snd vp) sc) py)
  end.

(** "scale in [1, 4]". *)
Definition scale_ok (sc : number) : Prop :=
  finite sc /\ 1 <= toQ sc <= 4.

(** "pan satisfies the clamp bounds for that scale". *)
Definition pan_ok (canvas : option Canvas) (bg : option Image)
           (sc : number) (p : Point) : Prop :=
  finite (x p) /\ finite (y p) /\
  match canvas, bg with
  | Some c, Some b =>
      0 <= toQ (x p) <= maxPan (toQ (img_width b)) (toQ (width c)) (toQ sc) /\
      0 <= toQ (y p) <= maxPan (toQ (img_height b)) (toQ (height c)) (toQ sc)
  | _, _ => True
  end.

Definition finite_point (p : Point) : Prop := finite (x p) /\ finite (y p).

Definition finite_rect (r : DOMRect) : Prop :=
  finite (rect_left r) /\ finite (rect_top r) /\
  finite (rect_width r) /\ finite (rect_height r).

Definition finite_canvas (c : Canvas) : Prop :=
  finite (width c) /\ finite (height c) /\ finite_rect (getBoundingClientRect c).

Definition finite_image (b : Image) : Prop :=
  finite (img_width b) /\ finite (img_height b).

Definition finite_mouse (e : MouseEvent) : Prop :=
  finite (clientX e) /\ finite (clientY e).

(** Every number the DOM hands to the handlers is finite. *)
Definition finite_dom (containerRef : option Container) (bg : option Image) : Prop :=
  match find_canvas containerRef with Some c => finite_canvas c | None => True end /\
  match bg with Some b => finite_image b | None => True end.

End Spec.

Import Spec.

Module V1 := CollaborativeDrawingTool.
Module V2 := RealTimeMapApp.
Module R1 := CollaborativeDrawingToolRun.
Module R2 := RealTimeMapAppRun.

(* ------------------------------------------------------------------------- *)
(** ** Reading the model against the specification                            *)
(* ------------------------------------------------------------------------- *)

Definition viewport_of (c : Canvas) : Q * Q := (toQ (width c), toQ (height c)).
Definition extent_of (b : Image) : Q * Q := (toQ (img_width b), toQ (img_height b)).
Definition point_of (r : Q * Q) : Point := mkPoint (Fin (fst r)) (Fin (snd r)).


(** One axis of the long-hand clamp of variant 1. *)
Definition V1_axis (maxPan0 v : number) : number :=
  let maxPan := if (maxPan0 <? 0)%js then Fin 0 else maxPan0 in
  let clamped := if (v <? 0)%js then Fin 0 else v in
  if (clamped >? maxPan)%js then maxPan else clamped.

(** One axis of the min/max clamp of variant 2. *)
Definition V2_axis (maxPan0 v : number) : number :=
  JS.min (JS.max 0 v) (JS.max 0 maxPan0).

(** The zoom factor of a wheel event: 1.1 when scrolling up, 1 / 1.1 when
    scrolling down. *)
Definition wheelFactor (e : MouseEvent) : Q :=
  if (deltaY e <? 0)%js then 11 # 10 else 10 # 11.

(** The viewport of each variant, as the specification names it. *)
Definition V1_pan (s : V1.State) : Point := mkPoint (V1.panX s) (V1.panY s).

Definition V1_viewport_ok (containerRef : option Container) (s : V1.State) : Prop :=
  scale_ok (V1.scale s) /\
  pan_ok (find_canvas containerRef) (V1.backgroundImage s) (V1.scale s) (V1_pan s).

Definition V2_viewport_ok (containerRef : option Container) (s : V2.State) : Prop :=
  scale_ok (V2.scale s) /\
  pan_ok (find_canvas containerRef) (V2.bgImage s) (V2.scale s) (V2.pan s).

(** Events whose numbers are finite, as the browser delivers them. *)
Definition R1_finite_event (ev : R1.Event) : Prop :=
  match ev with
  | R1.MouseDown e | R1.MouseMove _ e | R1.MouseUp _ e | R1.Wheel e => finite_mouse e
  | _ => True
  end.

Definition R2_finite_event (ev : R2.Event) : Prop :=
  match ev with
  | R2.MouseDown e | R2.MouseMove _ e | R2.MouseUp _ e | R2.Wheel e => finite_mouse e
  | R2.ClickZoom factor => finite factor
  | _ => True
  end.

(** The viewport transitions: wheel zoom, the zoom buttons, and a mouse move
    of a pan gesture. *)
Definition R1_viewport_transition (ev : R1.Event) (s : V1.State) : bool :=
  match ev with
  | R1.Wheel _ | R1.ClickZoomIn | R1.ClickZoomOut => true
  | R1.MouseMove _ _ => V1.isPanning s
  | _ => false
  end.

Definition R2_viewport_transition (ev : R2.Event) (s : V2.State) : bool :=
  match ev with
  | R2.Wheel _ | R2.ClickZoom _ => true
  | R2.MouseMove _ _ => V2.isPanning s
  | _ => false
  end.

(** The invariant carried along a run: the viewport invariant, and a finite
    anchor for the next pan delta. *)
Definition V1_inv (containerRef : option Container) (s : V1.State) : Prop :=
  V1_viewport_ok containerRef s /\ finite_point (V1.panStart s).

Definition V2_inv (containerRef : option Container) (s : V2.State) : Prop :=
  V2_viewport_ok containerRef s /\ finite_point (V2.panStart s).

(** The sweep rule as section 4.6 words it: an action is kept if and only
    if its [expireAt] is infinite or lies strictly after [now]. *)
Definition sweep_rule_as_stated (keep : number -> DrawAction -> bool)
           (now : number) (a : DrawAction) : Prop :=
  keep now a = true <->
  (strict_eq_opt (Act.expireAt a) Infinity = true \/ lt_opt now (Act.expireAt a) = true).

(** The mouse moves of a gesture, each with the time it is handled at. *)
Definition R1_moves (ms : list (number * MouseEvent)) : list R1.Event :=
  map (fun m => R1.MouseMove (fst m) (snd m)) ms.

Definition R2_moves (ms : list (number * MouseEvent)) : list R2.Event :=
  map (fun m => R2.MouseMove (fst m) (snd m)) ms.

(** The gesture flags agree with the buttons: never both, and none while no
    button is held. *)
Definition V1_flags_ok (held : bool) (s : V1.State) : Prop :=
  V1.isPanning s && V1.isDrawing s = false /\
  (held = false -> V1.isPanning s = false /\ V1.isDrawing s = false).

Definition V2_flags_ok (held : bool) (s : V2.State) : Prop :=
  V2.isPanning s && V2.isDrawing s = false /\
  (held = false -> V2.isPanning s = false /\ V2.isDrawing s = false).

(** The distance between two coordinates. *)
Definition axis_dev (a b : number) : Q := Qabs (toQ a - toQ b).

(* ------------------------------------------------------------------------- *)
(** ** Concrete set-ups                                                       *)
(* ------------------------------------------------------------------------- *)

(** A mounted 400 x 300 canvas at the top-left corner of the page. *)
Definition canvas_400x300 : Canvas := mkCanvas 400 300 (mkRect 0 0 400 300).
Definition mounted_400x300 : option Container :=
  Some (mkContainer (Some canvas_400x300)).
Definition bg_800x600 : Image := mkImage 800 600.

Definition v1_with (bg : option Image) (sc px py : number) : V1.State :=
  V1.mkState "user-1" "GuestLion" "#ff0000" arrow V1.EMOJIS_0 10 "10s" []
             false (mkPoint 0 0) bg sc px py false (mkPoint 0 0).

Definition v2_with (bg : option Image) (sc px py : number) : V2.State :=
  V2.mkState "u1" "Guest" "#ef4444" arrow 10 EMOJIS_0 "10s" []
             sc (mkPoint px py) false (mkPoint 0 0) false (mkPoint 0 0)
             bg false (mkPoint 0 0) None.

(** A wheel event at client position (100, 50), scrolling up. *)
Definition wheel_up_100_50 : MouseEvent := mkMouse 100 50 0 false (Fin (-100)).

(** An arrow drawn by user "u1" with the given end points, width and expiry. *)
Definition arrow_action (p q : Point) (lw : number) (expireAt : option number)
  : DrawAction :=
  Act.mkAction "u1" "Guest" "#ef4444" arrow lw p q (Some EMOJIS_0) expireAt.

(** An arrow whose start and end coincide. *)
Definition degenerate_arrow : DrawAction :=
  arrow_action (mkPoint 100 100) (mkPoint 100 100) 10 (Some Infinity).

(** Three actions to append and undo. *)
Definition action_A : DrawAction :=
  arrow_action (mkPoint 0 0) (mkPoint 10 10) 10 (Some Infinity).
Definition action_B : DrawAction :=
  arrow_action (mkPoint 5 5) (mkPoint 20 10) 10 (Some Infinity).
Definition action_C : DrawAction :=
  arrow_action (mkPoint 7 7) (mkPoint 30 30) 10 None.

Definition v1_drawing (acts : list DrawAction) : V1.State :=
  V1.mkState "user-1" "GuestLion" "#ff0000" arrow V1.EMOJIS_0 10 "10s" acts
             true (mkPoint 0 0) None 1 0 0 false (mkPoint 0 0).

Definition v2_drawing (acts : list DrawAction) : V2.State :=
  V2.mkState "u1" "Guest" "#ef4444" arrow 10 EMOJIS_0 "10s" acts
             1 (mkPoint 0 0) false (mkPoint 0 0) true (mkPoint 0 0)
             None false (mkPoint 0 0) None.

Definition key_backspace : KeyboardEvent := mkKey "Backspace" false false.
Definition key_ctrl_z : KeyboardEvent := mkKey "z" true false.
Definition key_cmd_shift_z : KeyboardEvent := mkKey "Z" false true.

(** An action whose [expireAt] is the number 0. *)
Definition action_expiring_at_0 : DrawAction :=
  arrow_action (mkPoint 0 0) (mkPoint 10 10) 10 (Some (Fin 0)).

Definition mouse_at (cx cy : number) : MouseEvent := mkMouse cx cy 0 false 0.

Definition ctrl_down_at (cx cy : number) : MouseEvent := mkMouse cx cy 0 true 0.

(** The scenario of section 8: a 1000 x 800 viewport over a 2000 x 1600
    background. *)
Definition canvas_1000x800 : Canvas := mkCanvas 1000 800 (mkRect 0 0 1000 800).
Definition mounted_1000x800 : option Container :=
  Some (mkContainer (Some canvas_1000x800)).
Definition bg_2000x1600 : Image := mkImage 2000 1600.

(* ------------------------------------------------------------------------- *)
(** * Further parts of the overlay                                            *)
(* ------------------------------------------------------------------------- *)

(** Besides the view transform and the gestures, the development covers:

    - the rest of the two canvas components: the background upload, the
      list of users and the colour options, the remaining draw helpers of
      variant 1, the slices of the radial menu of variant 2;
    - [RealTimeMapCommunication] (variant 3): the component that keeps
      shapes in SVG, in the coordinates of the map's box, with an undo that
      goes by author.

    How the code is read, in addition:

    - An image load is a callback.  [img.onload] runs later than the
      handler that arranged for it, so it takes two states: the one of the
      render it was created in, whose values it closes over, and the one
      its setters act on.
    - A read through a null ref throws; the handlers of variant 3 that may
      do so return an [option].
    - An [id] built from [Date.now()] and [Math.random()] is an argument. *)

(* ------------------------------------------------------------------------- *)
(** ** Further vocabulary                                                     *)
(* ------------------------------------------------------------------------- *)

(** A key event that one of the undo shortcuts answers. *)
Definition undo_key (k : KeyboardEvent) : Prop :=
  key k = "Backspace"%string \/
  ((key_ctrlKey k = true \/ key_metaKey k = true) /\
   (key k = "z"%string \/ key k = "Z"%string)).

(** The [expireAt] that [pushAction] computes at [Date.now() = now]. *)
Definition V2_newExpireAt (now : number) (s : V2.State) : number :=
  (now + V2.fadeToMs (V2.fadeSetting s))%js.

(** A state whose fade setting is the five-minute option. *)
Definition v1_fading_5m : V1.State :=
  V1.mkState "user-1" "GuestLion" "#ff0000" arrow V1.EMOJIS_0 10 "5m" []
             true (mkPoint 0 0) None 1 0 0 false (mkPoint 0 0).

Definition v2_fading_5m : V2.State :=
  V2.mkState "u1" "Guest" "#ef4444" arrow 10 EMOJIS_0 "5m" []
             1 (mkPoint 0 0) false (mkPoint 0 0) true (mkPoint 0 0)
             None false (mkPoint 0 0) None.

(** A key event that is no undo shortcut: a bare [z]. *)
Definition key_plain_z : KeyboardEvent := mkKey "z" false false.

(** The client coordinates of the middle of the canvas's box. *)
Definition viewportCentre (rect : DOMRect) : Point :=
  mkPoint (rect_left rect + rect_width rect / 2)%js
          (rect_top rect + rect_height rect / 2)%js.

(** The world point under the pointer's last recorded position
    ([panStart]): the point a pan drag holds on to. *)
Definition V1_grabbed (containerRef : option Container) (s : V1.State) : Point :=
  V1.screenToWorld containerRef s (x (V1.panStart s)) (y (V1.panStart s)).

Definition V2_grabbed (containerRef : option Container) (s : V2.State) : Point :=
  V2.screenToWorld containerRef s (x (V2.panStart s)) (y (V2.panStart s)).

(** The pan a mouse move of a pan drag asks [clampPan] for. *)
Definition V1_drag_request (e : MouseEvent) (s : V1.State) : Point :=
  mkPoint (V1.panX s - (clientX e - x (V1.panStart s)) / V1.scale s)%js
          (V1.panY s - (clientY e - y (V1.panStart s)) / V1.scale s)%js.

Definition V2_drag_request (e : MouseEvent) (s : V2.State) : Point :=
  mkPoint (x (V2.pan s) - (clientX e - x (V2.panStart s)) / V2.scale s)%js
          (y (V2.pan s) - (clientY e - y (V2.panStart s)) / V2.scale s)%js.

(** No move of the drag runs into the pan bounds: the clamp leaves each
    requested pan as it is. *)
Fixpoint V1_drag_free (containerRef : option Container)
         (ms : list (number * MouseEvent)) (s : V1.State) : Prop :=
  match ms with
  | [] => True
  | m :: rest =>
      let s' := V1.handleMouseMove containerRef (fst m) (snd m) s in
      same_point (V1_pan s') (V1_drag_request (snd m) s) /\
      V1_drag_free containerRef rest s'
  end.

Fixpoint V2_drag_free (containerRef : option Container)
         (ms : list (number * MouseEvent)) (s : V2.State) : Prop :=
  match ms with
  | [] => True
  | m :: rest =>
      let s' := V2.handleMouseMove containerRef (fst m) (snd m) s in
      same_point (V2.pan s') (V2_drag_request (snd m) s) /\
      V2_drag_free containerRef rest s'
  end.

(** Where the pointer is after the moves [ms], having started at [p]. *)
Definition pointer_after (ms : list (number * MouseEvent)) (p : Point) : Point :=
  last (map (fun m => mkPoint (clientX (snd m)) (clientY (snd m))) ms) p.

(** States in the middle of a pan drag, the pointer last seen at [start]. *)
Definition v1_panning (bg : option Image) (sc px py : number) (start : Point)
  : V1.State :=
  V1.mkState "user-1" "GuestLion" "#ff0000" arrow V1.EMOJIS_0 10 "10s" []
             false (mkPoint 0 0) bg sc px py true start.

Definition v2_panning (bg : option Image) (sc px py : number) (start : Point)
  : V2.State :=
  V2.mkState "u1" "Guest" "#ef4444" arrow 10 EMOJIS_0 "10s" []
             sc (mkPoint px py) true start false (mkPoint 0 0)
             bg false (mkPoint 0 0) None.

(** Two moves of the pointer: to (120, 80), then to (90, 100). *)
Definition two_moves : list (number * MouseEvent) :=
  [(Fin 0, mouse_at 120 80); (Fin 0, mouse_at 90 100)].

(** A whole gesture of one pointer: the button goes down at [e0], the
    pointer moves through [ms], the button comes up at [e1] at time [now]. *)
Definition R1_gesture (e0 : MouseEvent) (ms : list (number * MouseEvent))
           (now : number) (e1 : MouseEvent) : list R1.Event :=
  R1.MouseDown e0 :: R1_moves ms ++ [R1.MouseUp now e1].

Definition R2_gesture (e0 : MouseEvent) (ms : list (number * MouseEvent))
           (now : number) (e1 : MouseEvent) : list R2.Event :=
  R2.MouseDown e0 :: R2_moves ms ++ [R2.MouseUp now e1].

(** The world points of a freehand stroke joined up: one action from each
    point to the next, made by [mk] from the two ends and the time. *)
Fixpoint segments (mk : Point -> Point -> number -> DrawAction)
         (start : Point) (pts : list (number * Point)) : list DrawAction :=
  match pts with
  | [] => []
  | (t, p) :: rest => mk start p t :: segments mk p rest
  end.

(** A list of actions in which each one starts where the one before ended. *)
Fixpoint connected (start : Point) (l : list DrawAction) : Prop :=
  match l with
  | [] => True
  | a :: rest => Act.start a = start /\ connected (Act.end_ a) rest
  end.

(** The action a mouse move of a freehand stroke records, from the stroke's
    last point to the pointer's world point, at time [t]. *)
Definition V1_pen_segment (s : V1.State) (from to : Point) (t : number) : DrawAction :=
  Act.mkAction (V1.userId s) (V1.userName s) (V1.userColor s) pen (V1.lineWidth s)
               from to None (Some (V1.newExpireAt t s)).

Definition V2_pen_segment (s : V2.State) (from to : Point) (t : number) : DrawAction :=
  Act.mkAction (V2.userId s) (V2.userName s) (V2.userColour s) pen (V2.lineWidth s)
               from to (Some (V2.selectedEmoji s)) (Some (V2_newExpireAt t s)).

(** The world points the pointer passes through, with their times. *)
Definition V1_stroke_points (containerRef : option Container) (s : V1.State)
           (ms : list (number * MouseEvent)) : list (number * Point) :=
  map (fun m => (fst m, V1.screenToWorld containerRef s (clientX (snd m))
                                          (clientY (snd m)))) ms.

Definition V2_stroke_points (containerRef : option Container) (s : V2.State)
           (ms : list (number * MouseEvent)) : list (number * Point) :=
  map (fun m => (fst m, V2.screenToWorld containerRef s (clientX (snd m))
                                          (clientY (snd m)))) ms.

(** Idle states with the pen selected, at scale 2 and pan (30, 40). *)
Definition v1_pen : V1.State :=
  V1.mkState "user-1" "GuestLion" "#ff0000" pen V1.EMOJIS_0 10 "10s" []
             false (mkPoint 0 0) None 2 30 40 false (mkPoint 0 0).

Definition v2_pen : V2.State :=
  V2.mkState "u1" "Guest" "#ef4444" pen 10 EMOJIS_0 "10s" []
             2 (mkPoint 30 40) false (mkPoint 0 0) false (mkPoint 0 0)
             None false (mkPoint 0 0) None.

(** [l1] is [l2] with some elements left out, the others in their order. *)
Inductive sublist {A : Type} : list A -> list A -> Prop :=
| sublist_nil : sublist [] []
| sublist_skip (a : A) (l1 l2 : list A) : sublist l1 l2 -> sublist l1 (a :: l2)
| sublist_keep (a : A) (l1 l2 : list A) : sublist l1 l2 -> sublist (a :: l1) (a :: l2).

(** An action recorded by the user of state [s]: their id, name, colour and
    line width, and an expiry computed from their fade setting. *)
Definition V1_authored (s : V1.State) (a : DrawAction) : Prop :=
  Act.userId a = V1.userId s /\ Act.userName a = V1.userName s /\
  Act.color a = V1.userColor s /\ Act.lineWidth a = V1.lineWidth s /\
  exists now, Act.expireAt a = Some (V1.newExpireAt now s).

Definition V2_authored (s : V2.State) (a : DrawAction) : Prop :=
  Act.userId a = V2.userId s /\ Act.userName a = V2.userName s /\
  Act.color a = V2.userColour s /\ Act.lineWidth a = V2.lineWidth s /\
  exists now, Act.expireAt a = Some (V2_newExpireAt now s).

(** The settings an action is stamped with are the same in both states. *)
Definition V1_same_author (s s' : V1.State) : Prop :=
  V1.userId s' = V1.userId s /\ V1.userName s' = V1.userName s /\
  V1.userColor s' = V1.userColor s /\ V1.lineWidth s' = V1.lineWidth s /\
  V1.fadeSetting s' = V1.fadeSetting s.

Definition V2_same_author (s s' : V2.State) : Prop :=
  V2.userId s' = V2.userId s /\ V2.userName s' = V2.userName s /\
  V2.userColour s' = V2.userColour s /\ V2.lineWidth s' = V2.lineWidth s /\
  V2.fadeSetting s' = V2.fadeSetting s.

(** The settings of variant 2 that no event of the canvas, the radial menu
    or the window touches. *)
Definition V2_same_identity (s s' : V2.State) : Prop :=
  V2.userId s' = V2.userId s /\ V2.userName s' = V2.userName s /\
  V2.fadeSetting s' = V2.fadeSetting s.

(** An action recorded at some point of the run [evs] from [s]: the
    user's id and name, an expiry computed from their fade setting, and the
    colour and line width of the state reached by then. *)
Definition V2_authored_along (canvasContainerRef : option Container)
           (evs : list R2.Event) (s : V2.State) (a : DrawAction) : Prop :=
  Act.userId a = V2.userId s /\ Act.userName a = V2.userName s /\
  (exists now, Act.expireAt a = Some (V2_newExpireAt now s)) /\
  exists done rest,
    evs = done ++ rest /\
    Act.color a = V2.userColour (R2.run canvasContainerRef done s) /\
    Act.lineWidth a = V2.lineWidth (R2.run canvasContainerRef done s).

(** The events that can set the colour or the line width: a preset key, a
    click on a slice of the radial menu, the pointer leaving the menu. *)
Definition R2_sets_style (ev : R2.Event) : bool :=
  match ev with
  | R2.KeyDown e =>
      match V2.THICK_PRESETS (key e) with Some _ => true | None => false end
  | R2.SliceClick _ | R2.MenuLeave => true
  | _ => false
  end.

(** What can follow a button-down before the next one: moves and ups of the
    pointer, and the events of the radial menu. *)
Definition R2_pointer_or_menu (ev : R2.Event) : bool :=
  match ev with
  | R2.MouseMove _ _ | R2.MouseUp _ _
  | R2.SliceEnter _ | R2.SliceClick _ | R2.MenuLeave | R2.CentreClick => true
  | _ => false
  end.

(** [s'] is [s] but for the colour, the tool and the menu's own state. *)
Definition V2_menu_only (s s' : V2.State) : Prop :=
  s' = V2.setHoverId (V2.hoverId s')
         (V2.setMenuPos (V2.menuPos s')
            (V2.setMenuOpen (V2.menuOpen s')
               (V2.setCurrentTool (V2.currentTool s')
                  (V2.setUserColour (V2.userColour s') s)))).

(** What committing the slice [id] sets: the colour or the tool, not both. *)
Definition V2_picked (id : V2.SliceId) (s s' : V2.State) : Prop :=
  match id with
  | V2.colourId c => V2.userColour s' = c /\ V2.currentTool s' = V2.currentTool s
  | V2.toolId t => V2.currentTool s' = t /\ V2.userColour s' = V2.userColour s
  end.

(** What one event may do to the list of actions. *)
Inductive list_change {A : Type} (mine : A -> Prop) : list A -> list A -> Prop :=
| change_none (l : list A) : list_change mine l l
| change_append (l : list A) (a : A) : mine a -> list_change mine l (l ++ [a])
| change_undo (l : list A) : list_change mine l (removelast l)
| change_sweep (l : list A) (f : A -> bool) : list_change mine l (filter f l).

(* ------------------------------------------------------------------------- *)
(** ** Background upload                                                      *)
(* ------------------------------------------------------------------------- *)

(** The file picked in the file input ([e.target.files?.[0]]), as far as
    the handlers read it. *)
Record File : Type := mkFile { file_type : string }.

(** [file.type.startsWith('image/')] *)
Definition is_image (f : File) : bool := String.prefix "image/" (file_type f).

Definition V1_setBackgroundImage (v : option Image) (s : V1.State) : V1.State :=
  V1.mkState (V1.userId s) (V1.userName s) (V1.userColor s) (V1.activeTool s)
             (V1.selectedEmoji s) (V1.lineWidth s) (V1.fadeSetting s)
             (V1.drawActions s) (V1.isDrawing s) (V1.startPoint s) v
             (V1.scale s) (V1.panX s) (V1.panY s) (V1.isPanning s) (V1.panStart s).

Definition V2_setBgImage (v : option Image) (s : V2.State) : V2.State :=
  V2.mkState (V2.userId s) (V2.userName s) (V2.userColour s) (V2.currentTool s)
             (V2.lineWidth s) (V2.selectedEmoji s) (V2.fadeSetting s)
             (V2.actions s) (V2.scale s) (V2.pan s) (V2.isPanning s)
             (V2.panStart s) (V2.isDrawing s) (V2.drawStart s) v
             (V2.menuOpen s) (V2.menuPos s) (V2.hoverId s).

(** [img.onload] of an upload.  The callback was created in the render
    whose state is [c], so [panX], [panY], [scale] and the [clampPan] it
    calls are that render's; the setters act on the state [s] at the time
    the image has loaded. *)
Definition V1_img_onload (containerRef : option Container) (c : V1.State)
           (img : Image) (s : V1.State) : V1.State :=
  let s := V1_setBackgroundImage (Some img) s in
  let clamped := V1.clampPan containerRef c (V1.panX c) (V1.panY c) (V1.scale c) in
  V1.setPanY (y clamped) (V1.setPanX (x clamped) s).

Definition V2_img_onload (containerRef : option Container) (c : V2.State)
           (img : Image) (s : V2.State) : V2.State :=
  let s := V2_setBgImage (Some img) s in
  V2.setPan (fun prev => V2.clampPan containerRef c (x prev) (y prev) (V2.scale c)) s.

(** [handleFileUpload]: the [img.onload] it arranges for, if any.  (The file
    reader hands over a data URL, a string; the image it makes of it is the
    argument of the callback.) *)
Definition V1_handleFileUpload (containerRef : option Container)
           (backgroundLocked : bool) (file : option File) (c : V1.State)
  : option (Image -> V1.State -> V1.State) :=
  if backgroundLocked then None
  else match file with
       | None => None
       | Some f =>
           if negb (is_image f) then None
           else Some (V1_img_onload containerRef c)
       end.

Definition V2_handleFileUpload (containerRef : option Container)
           (bgLocked : bool) (file : option File) (c : V2.State)
  : option (Image -> V2.State -> V2.State) :=
  if bgLocked then None
  else match file with
       | None => None
       | Some f =>
           if negb (is_image f) then None
           else Some (V2_img_onload containerRef c)
       end.

(** A PNG file. *)
Definition png_file : File := mkFile "image/png".

(* ------------------------------------------------------------------------- *)
(** ** Reading a paint                                                        *)
(* ------------------------------------------------------------------------- *)

Definition is_stroke (c : CanvasCall) : bool :=
  match c with stroke _ _ => true | _ => false end.

Definition is_fill (c : CanvasCall) : bool :=
  match c with fill _ => true | _ => false end.

Definition is_fillText (c : CanvasCall) : bool :=
  match c with fillText _ _ _ _ _ => true | _ => false end.

(** A call as the painting of [act] may issue it: a stroke in the action's
    colour and width, a fill in its colour, its emoji at its end point, or
    a piece of path. *)
Definition painted_for (act : DrawAction) (c : CanvasCall) : Prop :=
  match c with
  | stroke sty w =>
      sty = Act.color act /\ w = Act.lineWidth act /\ Act.tool act <> emoji
  | fill sty => sty = Act.color act /\ Act.tool act = arrow
  | fillText _ f _ px py =>
      f = "32px sans-serif"%string /\ px = x (Act.end_ act) /\
      py = y (Act.end_ act) /\ Act.tool act = emoji
  | clearRect _ _ _ _ | drawImage _ _ _ => False
  | _ => True
  end.

Definition uses_stroke (a : DrawAction) : bool := negb (ToolType_eqb (Act.tool a) emoji).
Definition uses_fill (a : DrawAction) : bool := ToolType_eqb (Act.tool a) arrow.
Definition uses_fillText (a : DrawAction) : bool := ToolType_eqb (Act.tool a) emoji.

(* ------------------------------------------------------------------------- *)
(** ** Variant 1: the remaining draw helpers                                  *)
(* ------------------------------------------------------------------------- *)

Module CollaborativeDrawingToolDraw.

Section Draw.
Context {M : MathLib}.

Definition drawPenStroke (ctx : Context2D) (action : DrawAction) : Context2D :=
  let ctx := call beginPath ctx in
  let ctx := set_strokeStyle (Act.color action) ctx in
  let ctx := set_lineWidth (Act.lineWidth action) ctx in
  let ctx := call (moveTo (x (Act.start action)) (y (Act.start action))) ctx in
  let ctx := call (lineTo (x (Act.end_ action)) (y (Act.end_ action))) ctx in
  ctx_stroke ctx.

(** [(x2 - x1) ** 2] is the product of the difference with itself. *)
Definition drawCircle (ctx : Context2D) (action : DrawAction) : Context2D :=
  let x1 := x (Act.start action) in
  let y1 := y (Act.start action) in
  let x2 := x (Act.end_ action) in
  let y2 := y (Act.end_ action) in
  let radius :=
    Math_sqrt ((x2 - x1) * (x2 - x1) + (y2 - y1) * (y2 - y1))%js in
  let ctx := call beginPath ctx in
  let ctx := set_strokeStyle (Act.color action) ctx in
  let ctx := set_lineWidth (Act.lineWidth action) ctx in
  let ctx := call (arc x1 y1 radius 0 (2 * Math_PI)%js) ctx in
  ctx_stroke ctx.

Definition drawEmoji (ctx : Context2D) (action : DrawAction) : Context2D :=
  let x2 := x (Act.end_ action) in
  let y2 := y (Act.end_ action) in
  let ctx := set_font "32px sans-serif" ctx in
  let text := match Act.emoji_ action with
              | None | Some EmptyString => V1.EMOJIS_0
              | Some e => e
              end in
  ctx_fillText text x2 y2 ctx.

(** The body of [drawActions.forEach] in the render effect. *)
Definition drawAction (ctx : Context2D) (action : DrawAction) : Context2D :=
  match Act.tool action with
  | pen => drawPenStroke ctx action
  | arrow => V1.drawArrow ctx action
  | circle => drawCircle ctx action
  | emoji => drawEmoji ctx action
  end.

(** The guard of [drawArrow]: the arrow is shorter than the distance the
    shaft is pulled back by. *)
Definition shaft_skipped (action : DrawAction) : bool :=
  let x1 := x (Act.start action) in
  let y1 := y (Act.start action) in
  let x2 := x (Act.end_ action) in
  let y2 := y (Act.end_ action) in
  let dx := (x2 - x1)%js in
  let dy := (y2 - y1)%js in
  (Math_sqrt (dx * dx + dy * dy) <? Act.lineWidth action * Fin (3 # 2))%js.

End Draw.

End CollaborativeDrawingToolDraw.

Module D1 := CollaborativeDrawingToolDraw.

(** A call as variant 1 may issue it for [act] on a context whose stroke
    and fill styles are [ss] and [fs]; [short] tells whether the shaft of an
    arrow is skipped. *)
Definition V1_painted_for (ss : string) (short : bool) (act : DrawAction)
           (c : CanvasCall) : Prop :=
  match c with
  | stroke sty w => sty = Act.color act /\ w = Act.lineWidth act
  | fill sty =>
      Act.tool act = arrow /\ sty = (if short then ss else Act.color act)
  | fillText _ f _ px py =>
      f = "32px sans-serif"%string /\ px = x (Act.end_ act) /\
      py = y (Act.end_ act) /\ Act.tool act = emoji
  | clearRect _ _ _ _ | drawImage _ _ _ => False
  | _ => True
  end.

(* ------------------------------------------------------------------------- *)
(** ** The list of users                                                      *)
(* ------------------------------------------------------------------------- *)

Record User : Type := mkUser {
  user_userId : string;
  user_userName : string;
  user_color : string
}.

(** [Array.prototype.findIndex]: the index of the first element that
    satisfies [p], or -1. *)
Fixpoint findIndex {A : Type} (p : A -> bool) (l : list A) : Z :=
  match l with
  | [] => -1
  | a :: rest =>
      if p a then 0
      else let i := findIndex p rest in
           if (i <? 0)%Z then -1 else (i + 1)%Z
  end.

(** [arr[i] = v] for an index within the array.  (Past the end JavaScript
    would extend the array; the handlers only write at an index that
    [findIndex] has returned.) *)
Fixpoint array_set {A : Type} (l : list A) (i : nat) (v : A) : list A :=
  match l, i with
  | [], _ => []
  | _ :: rest, O => v :: rest
  | a :: rest, S j => a :: array_set rest j v
  end.

(** Variant 1, the colour reservation effect: the function handed to
    [setUsers], or nothing when [userColor] is empty.  ([clone[existingIndex]]
    is an entry whenever [existingIndex >= 0].) *)
Definition V1_reserveColor (userId userName userColor : string)
  : option (list User -> list User) :=
  if String.eqb userColor EmptyString then None
  else
    let currentUser := mkUser userId userName userColor in
    Some (fun prev =>
            let existingIndex :=
              findIndex (fun u => String.eqb (user_userId u) userId) prev in
            if (0 <=? existingIndex)%Z then
              let clone := prev in
              match nth_error clone (Z.to_nat existingIndex) with
              | Some old =>
                  array_set clone (Z.to_nat existingIndex)
                            (mkUser (user_userId old) userName userColor)
              | None => clone
              end
            else prev ++ [currentUser]).

(** Variant 1, the name effect. *)
Definition V1_updateName (userId userName : string) (prev : list User) : list User :=
  map (fun u =>
         if String.eqb (user_userId u) userId
         then mkUser (user_userId u) userName (user_color u)
         else u) prev.

(** Variant 2, the sync effect. *)
Definition V2_syncUserList (userId userName userColour : string)
           (prev : list User) : list User :=
  let idx := findIndex (fun u => String.eqb (user_userId u) userId) prev in
  let next := prev in
  if (0 <=? idx)%Z
  then array_set next (Z.to_nat idx) (mkUser userId userName userColour)
  else next ++ [mkUser userId userName userColour].

(** Variant 1: [isTaken] of a colour option, and the colour selected after
    a click on it. *)
Definition V1_isTaken (users : list User) (userColor c : string) : bool :=
  existsb (String.eqb c) (map user_color users) && negb (String.eqb c userColor).

Definition V1_colorClick (users : list User) (userColor c : string) : string :=
  if negb (V1_isTaken users userColor c) || String.eqb c userColor
  then c else userColor.

(** The first entry that satisfies [p] replaced by [v]; [v] appended when
    there is none. *)
Fixpoint replace_first {A : Type} (p : A -> bool) (v : A) (l : list A) : list A :=
  match l with
  | [] => [v]
  | a :: rest => if p a then v :: rest else a :: replace_first p v rest
  end.

Definition user_alice : User := mkUser "u1" "Alice" "#ef4444".
Definition user_bob : User := mkUser "u2" "Bob" "#3b82f6".

(* ------------------------------------------------------------------------- *)
(** ** Variant 3: RealTimeMapCommunication                                    *)
(* ------------------------------------------------------------------------- *)

Module RealTimeMapCommunication.

Inductive Tool : Type := freeform | circle | arrow.

Definition Tool_eqb (a b : Tool) : bool :=
  match a, b with
  | freeform, freeform | circle, circle | arrow, arrow => true
  | _, _ => false
  end.

(** A drawn shape: [{ id, type, userColor, userName, thickness, ... }] with
    the fields of its type. *)
Inductive ShapeData : Type :=
| Freeform (points : list Point)
| Circle (center : Point) (radius : number)
| Arrow (start end_ : Point).

Record Shape : Type := mkShape {
  id : string;
  userColor : string;
  userName : string;
  shape_thickness : number;
  data : ShapeData
}.

(** [drawingRef.current] *)
Record Drawing : Type := mkDrawing {
  isDrawing : bool;
  startX : number;
  startY : number;
  currentPath : list Point
}.

Record State : Type := mkState {
  username : string;
  myColor : string;
  selectedTool : Tool;
  thickness : number;
  shapes : list Shape;
  drawingRef : Drawing
}.

Definition setShapes (f : list Shape -> list Shape) (s : State) : State :=
  mkState (username s) (myColor s) (selectedTool s) (thickness s)
          (f (shapes s)) (drawingRef s).

Definition set_drawingRef (d : Drawing) (s : State) : State :=
  mkState (username s) (myColor s) (selectedTool s) (thickness s)
          (shapes s) d.

(** [prev.slice(start)]: to the end of the array. *)
Definition slice_from {A : Type} (l : list A) (start : Z) : list A :=
  slice l start (Z.of_nat (List.length l)).

(** The loop of the undo branch, [i] running down from [n - 1] to 0.
    ([prev[i]] is an element throughout: the loop starts at
    [prev.length - 1].) *)
Fixpoint undo_loop (myColor username : string) (prev : list Shape) (n : nat)
  : list Shape :=
  match n with
  | O => prev
  | S i =>
      match nth_error prev i with
      | Some sh =>
          if String.eqb (userColor sh) myColor && String.eqb (userName sh) username
          then slice prev 0 (Z.of_nat i) ++ slice_from prev (Z.of_nat i + 1)
          else undo_loop myColor username prev i
      | None => undo_loop myColor username prev i
      end
  end.

(** What is broadcast: a drawn shape, or an undo. *)
Inductive Broadcast : Type :=
| draw (shapeData : Shape)
| undo.

(** [broadcastShape], as far as the list of shapes goes. *)
Definition broadcastShape (action : Broadcast) (s : State) : State :=
  match action with
  | draw shapeData => setShapes (fun prev => prev ++ [shapeData]) s
  | undo =>
      setShapes (fun prev => undo_loop (myColor s) (username s) prev
                                       (List.length prev)) s
  end.

Definition handleUndo (s : State) : State := broadcastShape undo s.

Section Handlers.
Context {M : MathLib}.

(** [mapRef.current.getBoundingClientRect()], or nothing when the map is
    not mounted. *)
Variable mapRef : option DOMRect.

Definition handlePointerDown (e : MouseEvent) (s : State) : State :=
  match mapRef with
  | None => s
  | Some rect =>
      let px := (clientX e - rect_left rect)%js in
      let py := (clientY e - rect_top rect)%js in
      set_drawingRef (mkDrawing true px py [mkPoint px py]) s
  end.

(** [None] stands for the TypeError of reading from a null [mapRef]; what
    the component is like after such an error is not followed up. *)
Definition handlePointerMove (e : MouseEvent) (s : State) : option State :=
  if negb (isDrawing (drawingRef s)) || negb (Tool_eqb (selectedTool s) freeform)
  then Some s
  else
    match mapRef with
    | None => None
    | Some rect =>
        let px := (clientX e - rect_left rect)%js in
        let py := (clientY e - rect_top rect)%js in
        let d := drawingRef s in
        Some (set_drawingRef
                (mkDrawing (isDrawing d) (startX d) (startY d)
                           (currentPath d ++ [mkPoint px py])) s)
    end.

(** [newId] is [Date.now().toString() + Math.random().toString()]. *)
Definition handlePointerUp (newId : string) (e : MouseEvent) (s : State)
  : option State :=
  if negb (isDrawing (drawingRef s)) then Some s
  else
    match mapRef with
    | None => None
    | Some rect =>
        let px := (clientX e - rect_left rect)%js in
        let py := (clientY e - rect_top rect)%js in
        let d := drawingRef s in
        let sX := startX d in
        let sY := startY d in
        let path := currentPath d in
        let s := set_drawingRef (mkDrawing false sX sY path) s in
        let s :=
          match selectedTool s with
          | freeform =>
              broadcastShape
                (draw (mkShape newId (myColor s) (username s) (thickness s)
                               (Freeform path))) s
          | circle =>
              let dx := (px - sX)%js in
              let dy := (py - sY)%js in
              let radius := Math_sqrt (dx * dx + dy * dy)%js in
              broadcastShape
                (draw (mkShape newId (myColor s) (username s) (thickness s)
                               (Circle (mkPoint sX sY) radius))) s
          | arrow =>
              broadcastShape
                (draw (mkShape newId (myColor s) (username s) (thickness s)
                               (Arrow (mkPoint sX sY) (mkPoint px py)))) s
          end in
        Some (set_drawingRef (mkDrawing false sX sY []) s)
    end.

(** The pointer moves of a gesture, one after the other. *)
Fixpoint moves (es : list MouseEvent) (s : State) : option State :=
  match es with
  | [] => Some s
  | e :: rest =>
      match handlePointerMove e s with
      | Some s' => moves rest s'
      | None => None
      end
  end.

(** A whole gesture: down at [e0], the moves [es], up at [e1]. *)
Definition gesture (newId : string) (e0 : MouseEvent) (es : list MouseEvent)
           (e1 : MouseEvent) (s : State) : option State :=
  match moves es (handlePointerDown e0 s) with
  | Some s' => handlePointerUp newId e1 s'
  | None => None
  end.

End Handlers.

End RealTimeMapCommunication.

Module V3 := RealTimeMapCommunication.

(** A shape is the user's when it carries their colour and their name. *)
Definition V3_mine (myColor username : string) (sh : V3.Shape) : bool :=
  String.eqb (V3.userColor sh) myColor && String.eqb (V3.userName sh) username.

(** The position of an event within the map's box. *)
Definition V3_local (rect : DOMRect) (e : MouseEvent) : Point :=
  mkPoint (clientX e - rect_left rect)%js (clientY e - rect_top rect)%js.

(** User_7, in red, with the freeform tool; a shape by a given author. *)
Definition v3_state (shapes : list V3.Shape) : V3.State :=
  V3.mkState "User_7" "#FF0000" V3.freeform 2 shapes (V3.mkDrawing false 0 0 []).

Definition shape_of (name color : string) : V3.Shape :=
  V3.mkShape "1" color name 2 (V3.Arrow (mkPoint 0 0) (mkPoint 10 10)).

(* ------------------------------------------------------------------------- *)
(** ** Variant 2: the slices of the radial menu                               *)
(* ------------------------------------------------------------------------- *)

Module RadialMenu.

Definition COLOUR_POOL : list string :=
  [ "#ef4444"; "#f59e0b"; "#eab308"; "#84cc16";
    "#22d3ee"; "#a855f7"; "#f472b6"; "#ffffff" ]%string.

Definition TOOL_LIST : list ToolType := [pen; arrow; circle; emoji].

(** [{ kind, value }] of a slice. *)
Inductive SliceValue : Type :=
| colour (value : string)
| tool (value : ToolType).

Record Slice : Type := mkSlice {
  kind_value : SliceValue;
  start : number;
  end_ : number
}.

(** [arr.length], a number. *)
Definition array_length {A : Type} (l : list A) : number :=
  Fin (inject_Z (Z.of_nat (List.length l))).

(** [arr.map((v, idx) => f(v, idx))], the index counting from [idx]. *)
Fixpoint map_idx {A B : Type} (f : A -> number -> B) (l : list A) (idx : nat)
  : list B :=
  match l with
  | [] => []
  | a :: rest => f a (Fin (inject_Z (Z.of_nat idx))) :: map_idx f rest (S idx)
  end.

(** Slice descriptors for colours + tools, for any pool and tool list. *)
Definition slices_of (pool : list string) (tools : list ToolType) : list Slice :=
  let colourSliceDeg := (180 / array_length pool)%js in
  let toolSliceDeg := (180 / array_length tools)%js in
  map_idx (fun clr idx =>
             mkSlice (colour clr)
                     (180 + idx * colourSliceDeg)%js
                     (180 + (idx + 1) * colourSliceDeg)%js) pool 0
  ++ map_idx (fun tl idx =>
                mkSlice (tool tl)
                        (idx * toolSliceDeg)%js
                        ((idx + 1) * toolSliceDeg)%js) tools 0.

Definition slices : list Slice := slices_of COLOUR_POOL TOOL_LIST.

(** The large-arc flag of [arcPath]. *)
Definition arcPath_large (a0 a1 : number) : Z :=
  if (a1 - a0 >? 180)%js then 1%Z else 0%Z.

End RadialMenu.

(** The [id] the menu gives a slice, [`${s.kind}:${s.value}`]. *)
Definition slice_id (sl : RadialMenu.Slice) : V2.SliceId :=
  match RadialMenu.kind_value sl with
  | RadialMenu.colour clr => V2.colourId clr
  | RadialMenu.tool tl => V2.toolId tl
  end.

(** The second slice of the menu, the orange one. *)
Definition orange_slice : RadialMenu.Slice :=
  nth 1 RadialMenu.slices (RadialMenu.mkSlice (RadialMenu.tool pen) 0 0).

(** Slices that follow one another from the angle [from] to the angle [to]:
    each starts where the one before ended, and ends later. *)
Fixpoint chained (from : Q) (l : list RadialMenu.Slice) (to : Q) : Prop :=
  match l with
  | [] => from == to
  | s :: rest =>
      finite (RadialMenu.start s) /\ finite (RadialMenu.end_ s) /\
      toQ (RadialMenu.start s) == from /\
      toQ (RadialMenu.start s) < toQ (RadialMenu.end_ s) /\
      chained (toQ (RadialMenu.end_ s)) rest to
  end.

(** [u.userId === uid] *)
Definition is_user (uid : string) (u : User) : bool :=
  String.eqb (user_userId u) uid.

(* ------------------------------------------------------------------------- *)
(** ** Facts about numbers                                                    *)
(* ------------------------------------------------------------------------- *)

Lemma lt_Fin_true (p q : Q) : (Fin p <? Fin q)%js = true <-> p < q.
Proof.
  simpl. destruct (Qcompare_spec p q) as [E | L | G]; split; intro H;
    try reflexivity; try discriminate; try assumption; lra.
Qed.

Lemma lt_Fin_false (p q : Q) : (Fin p <? Fin q)%js = false <-> q <= p.
Proof.
  simpl. destruct (Qcompare_spec p q) as [E | L | G]; split; intro H;
    try reflexivity; try discriminate; lra.
Qed.

Lemma lt_Fin_cases (p q : Q) :
  (p < q /\ (Fin p <? Fin q)%js = true) \/ (q <= p /\ (Fin p <? Fin q)%js = false).
Proof.
  destruct (Qlt_le_dec p q) as [L | G].
  - left. split; [assumption | now apply lt_Fin_true].
  - right. split; [assumption | now apply lt_Fin_false].
Qed.

Lemma div_Fin (p q : Q) : ~ q == 0 -> (Fin p / Fin q)%js = Fin (p / q).
Proof.
  intro H. simpl. destruct (Qeq_bool q 0) eqn:E; [| reflexivity].
  apply Qeq_bool_eq in E. contradiction.
Qed.

Lemma lt_irrefl (a : number) : (a <? a)%js = false.
Proof.
  destruct a as [| | q |]; try reflexivity.
  apply lt_Fin_false. lra.
Qed.

Lemma lt_asym (a b : number) : (a <? b)%js = true -> (b <? a)%js = false.
Proof.
  destruct a as [| | p |], b as [| | q |]; try reflexivity; try discriminate.
  intro H. apply lt_Fin_true in H. apply lt_Fin_false. lra.
Qed.

Lemma lt_trans (a b c : number) :
  (a <? b)%js = true -> (b <? c)%js = true -> (a <? c)%js = true.
Proof.
  destruct a as [| | p |], b as [| | q |], c as [| | r |];
    try reflexivity; try discriminate.
  intros H1 H2. apply lt_Fin_true in H1, H2. apply lt_Fin_true. lra.
Qed.

Lemma same_refl (a : number) : same a a.
Proof. destruct a; simpl; auto. reflexivity. Qed.

Lemma same_point_refl (p : Point) : same_point p p.
Proof. split; apply same_refl. Qed.

Lemma clamp_bounds (lo hi v : Q) : lo <= hi -> lo <= clamp lo hi v <= hi.
Proof.
  intro H. unfold clamp.
  destruct (Q.max_spec lo v) as [[? E1] | [? E1]];
    destruct (Q.min_spec (Qmax lo v) hi) as [[? E2] | [? E2]]; lra.
Qed.

Lemma clamp_cases (lo hi v : Q) :
  lo <= hi ->
  (v < lo /\ clamp lo hi v == lo) \/
  (hi < v /\ clamp lo hi v == hi) \/
  (lo <= v <= hi /\ clamp lo hi v == v).
Proof.
  intro H. unfold clamp.
  destruct (Q.max_spec lo v) as [[? E1] | [? E1]];
    destruct (Q.min_spec (Qmax lo v) hi) as [[? E2] | [? E2]];
    destruct (Qlt_le_dec v lo); destruct (Qlt_le_dec hi v);
    try (left; split; lra); try (right; left; split; lra);
    try (right; right; split; lra).
Qed.

Lemma maxPan_nonneg (bg vp sc : Q) : 0 <= maxPan bg vp sc.
Proof. unfold maxPan. destruct (Q.max_spec 0 (bg - vp / sc)) as [[? E] | [? E]]; lra. Qed.

Lemma add_Fin (p q : Q) : (Fin p + Fin q)%js = Fin (p + q).
Proof. reflexivity. Qed.

Lemma sub_Fin (p q : Q) : (Fin p - Fin q)%js = Fin (p - q).
Proof. reflexivity. Qed.

Lemma mul_Fin (p q : Q) : (Fin p * Fin q)%js = Fin (p * q).
Proof. reflexivity. Qed.

Lemma neg_Fin (p : Q) : (- Fin p)%js = Fin (- p).
Proof. reflexivity. Qed.

Lemma max_Fin (p q : Q) :
  JS.max (Fin p) (Fin q) = if (Fin p <? Fin q)%js then Fin q else Fin p.
Proof. reflexivity. Qed.

Lemma min_Fin (p q : Q) :
  JS.min (Fin p) (Fin q) = if (Fin q <? Fin p)%js then Fin q else Fin p.
Proof. reflexivity. Qed.

Lemma finite_inv (a : number) : finite a -> a = Fin (toQ a).
Proof. destruct a; simpl; intro H; try contradiction; reflexivity. Qed.

#[global] Arguments add : simpl never.
#[global] Arguments sub : simpl never.
#[global] Arguments mul : simpl never.
#[global] Arguments div : simpl never.
#[global] Arguments neg : simpl never.
#[global] Arguments lt : simpl never.
#[global] Arguments gt : simpl never.
#[global] Arguments JS.max : simpl never.
#[global] Arguments JS.min : simpl never.

(** Push the arithmetic of finite numbers down to the rationals. *)
Ltac js_arith :=
  repeat (rewrite ?add_Fin, ?sub_Fin, ?mul_Fin, ?neg_Fin, ?max_Fin, ?min_Fin in *;
          try (rewrite div_Fin in * by lra)).

(** Decide every comparison of finite numbers in the goal. *)
Ltac js_compare :=
  repeat match goal with
         | |- context [ (Fin ?p <? Fin ?q)%js ] =>
             let H := fresh "Hlt" in
             let E := fresh "Elt" in
             destruct (lt_Fin_cases p q) as [[H E] | [H E]]; rewrite E
         end.

(** Name every [Qmax] and [Qmin] and keep only its specification. *)
Ltac q_minmax :=
  repeat match goal with
         | |- context [ Qmax ?a ?b ] =>
             let m := fresh "m" in
             let H := fresh "Hm" in
             pose proof (Q.max_spec a b) as H;
             set (m := Qmax a b) in *; clearbody m
         | |- context [ Qmin ?a ?b ] =>
             let m := fresh "m" in
             let H := fresh "Hm" in
             pose proof (Q.min_spec a b) as H;
             set (m := Qmin a b) in *; clearbody m
         | H0 : context [ Qmax ?a ?b ] |- _ =>
             let m := fresh "m" in
             let H := fresh "Hm" in
             pose proof (Q.max_spec a b) as H;
             set (m := Qmax a b) in *; clearbody m
         | H0 : context [ Qmin ?a ?b ] |- _ =>
             let m := fresh "m" in
             let H := fresh "Hm" in
             pose proof (Q.min_spec a b) as H;
             set (m := Qmin a b) in *; clearbody m
         end.

Ltac q_solve :=
  q_minmax;
  repeat match goal with
         | H : _ \/ _ |- _ => destruct H
         | H : _ /\ _ |- _ => destruct H
         end;
  lra.

(** Replace every number known to be finite by [Fin] of a rational. *)
Ltac fin_intro :=
  repeat match goal with
         | H : finite ?a |- _ =>
             first [ is_var a;
                     destruct a as [| | ? |]; simpl in H; try contradiction; clear H
                   | let E := fresh "Efin" in
                     pose proof (finite_inv a H) as E; clear H;
                     generalize dependent (toQ a); intros ]
         end.

(* ------------------------------------------------------------------------- *)
(** ** Pan clamp                                                              *)
(* ------------------------------------------------------------------------- *)

Lemma V1_clampPan_no_bg ref s px py sc :
  V1.backgroundImage s = None -> V1.clampPan ref s px py sc = mkPoint px py.
Proof.
  intro H. unfold V1.clampPan. rewrite H. destruct (find_canvas ref); reflexivity.
Qed.

Lemma V2_clampPan_no_bg ref s px py sc :
  V2.bgImage s = None -> V2.clampPan ref s px py sc = mkPoint px py.
Proof.
  intro H. unfold V2.clampPan. rewrite H. destruct (find_canvas ref); reflexivity.
Qed.

Lemma V1_clampPan_bg ref s canvas b (px py sc : Q) :
  find_canvas ref = Some canvas -> V1.backgroundImage s = Some b ->
  finite_canvas canvas -> finite_image b -> 1 <= sc <= 4 ->
  same_point (V1.clampPan ref s px py sc)
             (point_of (spec_clampPan px py sc (Some (extent_of b)) (viewport_of canvas))).
Proof.
  intros Hc Hb Fc Fb Hsc. unfold V1.clampPan. rewrite Hc, Hb.
  destruct canvas as [cw ch rect], b as [bgw bgh].
  destruct Fc as (F1 & F2 & _), Fb as (F3 & F4). simpl in *.
  fin_intro. unfold gt, same_point, spec_clampPan, extent_of, viewport_of, clamp, maxPan.
  simpl. js_arith. split.
  - js_compare; js_compare; simpl; q_solve.
  - js_compare; js_compare; simpl; q_solve.
Qed.

Lemma V2_clampPan_bg ref s canvas b (px py sc : Q) :
  find_canvas ref = Some canvas -> V2.bgImage s = Some b ->
  finite_canvas canvas -> finite_image b -> 1 <= sc <= 4 ->
  same_point (V2.clampPan ref s px py sc)
             (point_of (spec_clampPan px py sc (Some (extent_of b)) (viewport_of canvas))).
Proof.
  intros Hc Hb Fc Fb Hsc. unfold V2.clampPan. rewrite Hc, Hb.
  destruct canvas as [cw ch rect], b as [bgw bgh].
  destruct Fc as (F1 & F2 & _), Fb as (F3 & F4). simpl in *.
  fin_intro. unfold same_point, spec_clampPan, extent_of, viewport_of, clamp, maxPan.
  simpl. js_arith. split.
  - js_compare; js_arith; js_compare; js_arith; js_compare; simpl; q_solve.
  - js_compare; js_arith; js_compare; js_arith; js_compare; simpl; q_solve.
Qed.

(** C1 -- the contract of [clampPan], in both variants.  Without a background
    image the input is returned unchanged, for every input.  With a canvas and
    a background of size [bgw] x [bgh], every pan and every scale in [1, 4]
    are sent to the pan clamped on each axis into [0, max(0, bg - viewport /
    scale)], where the viewport is the canvas's [width] x [height]. *)
Theorem clampPan_contract
        (containerRef : option Container) (s1 : V1.State) (s2 : V2.State)
        (bg : option Image) :
  V1.backgroundImage s1 = bg -> V2.bgImage s2 = bg ->
  (bg = None ->
   forall px py sc : number,
     V1.clampPan containerRef s1 px py sc = mkPoint px py /\
     V2.clampPan containerRef s2 px py sc = mkPoint px py) /\
  (forall (canvas : Canvas) (b : Image) (px py sc : Q),
      find_canvas containerRef = Some canvas -> bg = Some b ->
      finite_canvas canvas -> finite_image b -> 1 <= sc <= 4 ->
      let r := spec_clampPan px py sc (Some (extent_of b)) (viewport_of canvas) in
      same_point (V1.clampPan containerRef s1 px py sc) (point_of r) /\
      same_point (V2.clampPan containerRef s2 px py sc) (point_of r)).
Proof.
  intros H1 H2. split.
  - intros -> px py sc. split.
    + now apply V1_clampPan_no_bg.
    + now apply V2_clampPan_no_bg.
  - intros canvas b px py sc Hc -> Fc Fb Hsc r. split.
    + now apply V1_clampPan_bg.
    + now apply V2_clampPan_bg.
Qed.

Lemma clampPan_contract_witness :
  1 <= 2 <= 4 /\
  let r := spec_clampPan 700 (-5) 2 (Some (extent_of bg_800x600))
                         (viewport_of canvas_400x300) in
  same_point (V1.clampPan mounted_400x300 (v1_with (Some bg_800x600) 1 0 0) 700 (-5) 2)
             (point_of r) /\
  same_point (V2.clampPan mounted_400x300 (v2_with (Some bg_800x600) 1 0 0) 700 (-5) 2)
             (point_of r).
Proof.
  split; [split; vm_compute; discriminate |].
  apply (proj2 (clampPan_contract mounted_400x300
                  (v1_with (Some bg_800x600) 1 0 0)
                  (v2_with (Some bg_800x600) 1 0 0)
                  (Some bg_800x600) eq_refl eq_refl)
               canvas_400x300 bg_800x600 700 (-5) 2 eq_refl eq_refl).
  - vm_compute. tauto.
  - vm_compute. tauto.
  - split; vm_compute; discriminate.
Defined.

(** Case analysis on numbers of any kind: unfold the comparisons, split on
    the rational comparisons that remain, and close each case. *)
Ltac js_cases :=
  cbv [gt lt JS.max JS.min];
  repeat match goal with
         | |- context [ ?p ?= ?q ] => destruct (Qcompare_spec p q)
         end;
  try reflexivity; try (exfalso; lra).

Lemma V1_axis_idem (m v : number) : V1_axis m (V1_axis m v) = V1_axis m v.
Proof. unfold V1_axis. destruct m as [| | m |], v as [| | v |]; js_cases. Qed.

Lemma V2_axis_idem (m v : number) : V2_axis m (V2_axis m v) = V2_axis m v.
Proof. unfold V2_axis. destruct m as [| | m |], v as [| | v |]; js_cases. Qed.

Lemma V1_clampPan_axes ref s canvas b px py sc :
  find_canvas ref = Some canvas -> V1.backgroundImage s = Some b ->
  V1.clampPan ref s px py sc =
  mkPoint (V1_axis (img_width b - width canvas / sc)%js px)
          (V1_axis (img_height b - height canvas / sc)%js py).
Proof. intros Hc Hb. unfold V1.clampPan. rewrite Hc, Hb. reflexivity. Qed.

Lemma V2_clampPan_axes ref s canvas b px py sc :
  find_canvas ref = Some canvas -> V2.bgImage s = Some b ->
  V2.clampPan ref s px py sc =
  mkPoint (V2_axis (img_width b - width canvas / sc)%js px)
          (V2_axis (img_height b - height canvas / sc)%js py).
Proof. intros Hc Hb. unfold V2.clampPan. rewrite Hc, Hb. reflexivity. Qed.

Lemma V1_clampPan_no_canvas ref s px py sc :
  find_canvas ref = None -> V1.clampPan ref s px py sc = mkPoint px py.
Proof. intro H. unfold V1.clampPan. rewrite H. reflexivity. Qed.

Lemma V2_clampPan_no_canvas ref s px py sc :
  find_canvas ref = None -> V2.clampPan ref s px py sc = mkPoint px py.
Proof. intro H. unfold V2.clampPan. rewrite H. reflexivity. Qed.

(** C9 -- clamp idempotence, in both variants: for every pan, every scale,
    every background (present or absent) and every viewport (canvas mounted
    or not), clamping a clamped pan returns it unchanged. *)
Theorem clampPan_idempotent
        (containerRef : option Container) (s1 : V1.State) (s2 : V2.State)
        (px py sc : number) :
  (let p := V1.clampPan containerRef s1 px py sc in
   V1.clampPan containerRef s1 (x p) (y p) sc = p) /\
  (let p := V2.clampPan containerRef s2 px py sc in
   V2.clampPan containerRef s2 (x p) (y p) sc = p).
Proof.
  split; intro p; subst p.
  - destruct (find_canvas containerRef) as [canvas |] eqn:Hc.
    + destruct (V1.backgroundImage s1) as [b |] eqn:Hb.
      * rewrite !(V1_clampPan_axes _ _ _ _ _ _ _ Hc Hb). simpl.
        now rewrite !V1_axis_idem.
      * now rewrite !V1_clampPan_no_bg.
    + now rewrite !V1_clampPan_no_canvas.
  - destruct (find_canvas containerRef) as [canvas |] eqn:Hc.
    + destruct (V2.bgImage s2) as [b |] eqn:Hb.
      * rewrite !(V2_clampPan_axes _ _ _ _ _ _ _ Hc Hb). simpl.
        now rewrite !V2_axis_idem.
      * now rewrite !V2_clampPan_no_bg.
    + now rewrite !V2_clampPan_no_canvas.
Qed.

(* ------------------------------------------------------------------------- *)
(** ** Coordinate transform                                                   *)
(* ------------------------------------------------------------------------- *)

Lemma V2_screenToWorld_mounted ref canvas s sx sy :
  find_canvas ref = Some canvas ->
  V2.screenToWorld ref s sx sy =
  mkPoint ((sx - rect_left (getBoundingClientRect canvas)) / V2.scale s + x (V2.pan s))%js
          ((sy - rect_top (getBoundingClientRect canvas)) / V2.scale s + y (V2.pan s))%js.
Proof. intro H. unfold V2.screenToWorld. now rewrite H. Qed.

Lemma V1_screenToWorld_mounted ref canvas s sx sy :
  find_canvas ref = Some canvas ->
  V1.screenToWorld ref s sx sy =
  mkPoint ((sx - rect_left (getBoundingClientRect canvas)) / V1.scale s + V1.panX s)%js
          ((sy - rect_top (getBoundingClientRect canvas)) / V1.scale s + V1.panY s)%js.
Proof.
  unfold find_canvas, V1.screenToWorld. destruct ref as [c |]; [| discriminate].
  intro H. now rewrite H.
Qed.

Lemma worldToScreen_formula rect s (w : Point) :
  finite_rect rect -> scale_ok (V2.scale s) -> finite_point (V2.pan s) ->
  finite_point w ->
  same_point (V2.worldToScreen rect s w)
             (mkPoint (Fin (toQ (rect_left rect)
                            + (toQ (x w) - toQ (x (V2.pan s))) * toQ (V2.scale s)))
                      (Fin (toQ (rect_top rect)
                            + (toQ (y w) - toQ (y (V2.pan s))) * toQ (V2.scale s)))).
Proof.
  intros (F1 & F2 & _) (F3 & Hs) (F4 & F5) (F6 & F7).
  destruct rect as [l t rw rh], s, w as [wx wy]. simpl in *.
  destruct pan as [panx pany]. simpl in *. fin_intro. simpl in Hs.
  unfold V2.worldToScreen, V2.applyPanZoom, canvasToClient, apply_matrix,
    ctx_scale, ctx_translate, set_transform, same_point.
  simpl. js_arith. simpl. split; ring.
Qed.

(** C4 -- transform round trip.  With the canvas mounted, [screenToWorld]
    is [(p - viewportOrigin) / scale + pan] in both variants; for every
    screen point, every pan and every scale in [1, 4], sending
    [screenToWorld p] through the matrix of the paint effect of variant 2
    (translate by [-pan * scale], then scale by [scale]) and on to the screen
    gives [p] back -- exactly, as the model has no rounding. *)
Theorem transform_round_trip
        (containerRef : option Container) (canvas : Canvas)
        (s1 : V1.State) (s2 : V2.State) (px py : number) :
  find_canvas containerRef = Some canvas ->
  finite_rect (getBoundingClientRect canvas) ->
  scale_ok (V2.scale s2) -> finite_point (V2.pan s2) ->
  V1.scale s1 = V2.scale s2 ->
  V1.panX s1 = x (V2.pan s2) -> V1.panY s1 = y (V2.pan s2) ->
  finite px -> finite py ->
  let rect := getBoundingClientRect canvas in
  let w := V2.screenToWorld containerRef s2 px py in
  w = mkPoint ((px - rect_left rect) / V2.scale s2 + x (V2.pan s2))%js
              ((py - rect_top rect) / V2.scale s2 + y (V2.pan s2))%js /\
  V1.screenToWorld containerRef s1 px py = w /\
  same_point (V2.worldToScreen rect s2 w) (mkPoint px py).
Proof.
  intros Hc Fr Hs Fp E1 E2 E3 Fx Fy rect w. subst rect w.
  rewrite (V2_screenToWorld_mounted _ _ _ _ _ Hc).
  rewrite (V1_screenToWorld_mounted _ _ _ _ _ Hc), E1, E2, E3.
  split; [reflexivity | split; [reflexivity |]].
  clear E1 E2 E3 s1.
  destruct Fr as (F1 & F2 & F3 & F4), Hs as (F5 & Hs), Fp as (F6 & F7).
  destruct canvas as [cw ch [l t rw rh]], s2. simpl in *.
  destruct pan as [panx pany]. simpl in *. fin_intro. simpl in Hs.
  unfold V2.worldToScreen, V2.applyPanZoom, canvasToClient, apply_matrix,
    ctx_scale, ctx_translate, set_transform, same_point.
  simpl. js_arith. simpl. split; field; lra.
Qed.

Lemma transform_round_trip_witness :
  let s2 := v2_with None 2 30 40 in
  let w := V2.screenToWorld mounted_400x300 s2 100 50 in
  w = mkPoint ((100 - 0) / 2 + 30)%js ((50 - 0) / 2 + 40)%js /\
  V1.screenToWorld mounted_400x300 (v1_with None 2 30 40) 100 50 = w /\
  same_point (V2.worldToScreen (getBoundingClientRect canvas_400x300) s2 w)
             (mkPoint 100 50).
Proof.
  apply (transform_round_trip mounted_400x300 canvas_400x300
           (v1_with None 2 30 40) (v2_with None 2 30 40) 100 50 eq_refl).
  - vm_compute. tauto.
  - split; [exact I | split; vm_compute; discriminate].
  - split; exact I.
  - reflexivity.
  - reflexivity.
  - reflexivity.
  - exact I.
  - exact I.
Defined.

(* ------------------------------------------------------------------------- *)
(** ** What the clamp guarantees                                              *)
(* ------------------------------------------------------------------------- *)

Lemma same_Fin_inv (a : number) (q : Q) :
  same a (Fin q) -> finite a /\ toQ a == q.
Proof. destruct a; simpl; intro H; try contradiction. split; [exact I | exact H]. Qed.

Lemma Qabs_cases (v : Q) : (0 <= v /\ Qabs v == v) \/ (v <= 0 /\ Qabs v == - v).
Proof.
  destruct (Qlt_le_dec v 0) as [L | G].
  - right. split; [lra |]. apply Qabs_neg. lra.
  - left. split; [assumption |]. now apply Qabs_pos.
Qed.

(** The clamp is the nearest point of the interval. *)
Lemma clamp_nearest (lo hi v p : Q) :
  lo <= hi -> lo <= p <= hi -> Qabs (clamp lo hi v - v) <= Qabs (p - v).
Proof.
  intros H Hp.
  destruct (clamp_cases lo hi v H) as [[? E] | [[? E] | [? E]]];
    destruct (Qabs_cases (clamp lo hi v - v)) as [[? E1] | [? E1]];
    destruct (Qabs_cases (p - v)) as [[? E2] | [? E2]]; lra.
Qed.

Lemma clamp_fixed (lo hi v : Q) : lo <= v <= hi -> clamp lo hi v == v.
Proof.
  intro H. assert (L : lo <= hi) by lra.
  destruct (clamp_cases lo hi v L) as [[? E] | [[? E] | [? E]]]; lra.
Qed.

(** What [clampPan] returns on finite inputs, read on the rationals;
    [clampSpec] is shared by the two variants. *)
Lemma clampSpec_pan_ok canvas bg (sc : Q) (r : Point) (px py : Q) :
  finite_point r ->
  match canvas, bg with
  | Some c, Some b =>
      toQ (x r) == clamp 0 (maxPan (toQ (img_width b)) (toQ (width c)) sc) px /\
      toQ (y r) == clamp 0 (maxPan (toQ (img_height b)) (toQ (height c)) sc) py
  | _, _ => toQ (x r) == px /\ toQ (y r) == py
  end ->
  pan_ok canvas bg sc r.
Proof.
  intros (Fx & Fy) H. unfold pan_ok. repeat split; try assumption.
  destruct canvas as [c |], bg as [b |]; try exact I.
  destruct H as [Ex Ey].
  pose proof (clamp_bounds 0 (maxPan (toQ (img_width b)) (toQ (width c)) sc) px
                (maxPan_nonneg _ _ _)).
  pose proof (clamp_bounds 0 (maxPan (toQ (img_height b)) (toQ (height c)) sc) py
                (maxPan_nonneg _ _ _)).
  simpl. split; lra.
Qed.

Lemma V1_clampPan_spec ref s (px py sc : Q) :
  finite_dom ref (V1.backgroundImage s) -> 1 <= sc <= 4 ->
  let r := V1.clampPan ref s px py sc in
  finite_point r /\
  match find_canvas ref, V1.backgroundImage s with
  | Some c, Some b =>
      toQ (x r) == clamp 0 (maxPan (toQ (img_width b)) (toQ (width c)) sc) px /\
      toQ (y r) == clamp 0 (maxPan (toQ (img_height b)) (toQ (height c)) sc) py
  | _, _ => toQ (x r) == px /\ toQ (y r) == py
  end.
Proof.
  intros [Fc Fb] Hsc r. subst r.
  destruct (find_canvas ref) as [c |] eqn:Hc.
  - destruct (V1.backgroundImage s) as [b |] eqn:Hb.
    + destruct (V1_clampPan_bg ref s c b px py sc Hc Hb Fc Fb Hsc) as [Sx Sy].
      apply same_Fin_inv in Sx, Sy. unfold finite_point. simpl in Sx, Sy. tauto.
    + rewrite V1_clampPan_no_bg by assumption. simpl.
      repeat split; reflexivity.
  - rewrite V1_clampPan_no_canvas by assumption. simpl.
    repeat split; reflexivity.
Qed.

Lemma V2_clampPan_spec ref s (px py sc : Q) :
  finite_dom ref (V2.bgImage s) -> 1 <= sc <= 4 ->
  let r := V2.clampPan ref s px py sc in
  finite_point r /\
  match find_canvas ref, V2.bgImage s with
  | Some c, Some b =>
      toQ (x r) == clamp 0 (maxPan (toQ (img_width b)) (toQ (width c)) sc) px /\
      toQ (y r) == clamp 0 (maxPan (toQ (img_height b)) (toQ (height c)) sc) py
  | _, _ => toQ (x r) == px /\ toQ (y r) == py
  end.
Proof.
  intros [Fc Fb] Hsc r. subst r.
  destruct (find_canvas ref) as [c |] eqn:Hc.
  - destruct (V2.bgImage s) as [b |] eqn:Hb.
    + destruct (V2_clampPan_bg ref s c b px py sc Hc Hb Fc Fb Hsc) as [Sx Sy].
      apply same_Fin_inv in Sx, Sy. unfold finite_point. simpl in Sx, Sy. tauto.
    + rewrite V2_clampPan_no_bg by assumption. simpl.
      repeat split; reflexivity.
  - rewrite V2_clampPan_no_canvas by assumption. simpl.
    repeat split; reflexivity.
Qed.

(** Among the pans that satisfy the bounds, the clamped one is nearest to
    the requested one, on each axis. *)
Lemma clampSpec_nearest canvas bg (sc : Q) (r p : Point) (px py : Q) :
  match canvas, bg with
  | Some c, Some b =>
      toQ (x r) == clamp 0 (maxPan (toQ (img_width b)) (toQ (width c)) sc) px /\
      toQ (y r) == clamp 0 (maxPan (toQ (img_height b)) (toQ (height c)) sc) py
  | _, _ => toQ (x r) == px /\ toQ (y r) == py
  end ->
  pan_ok canvas bg sc p ->
  Qabs (toQ (x r) - px) <= Qabs (toQ (x p) - px) /\
  Qabs (toQ (y r) - py) <= Qabs (toQ (y p) - py).
Proof.
  intros H (_ & _ & Hp).
  assert (Z0 : forall v w : Q, v == w -> Qabs (v - w) <= Qabs (toQ (x p) - w)
                                      /\ Qabs (v - w) <= Qabs (toQ (y p) - w)).
  { intros v w E.
    pose proof (Qabs_nonneg (toQ (x p) - w)).
    pose proof (Qabs_nonneg (toQ (y p) - w)).
    destruct (Qabs_cases (v - w)) as [[? Ea] | [? Ea]]; split; lra. }
  destruct canvas as [c |], bg as [b |];
    try (destruct H as [Ex Ey]; split; [apply (Z0 _ _ Ex) | apply (Z0 _ _ Ey)]).
  destruct H as [Ex Ey], Hp as [Hx Hy]. simpl in Hx, Hy.
  rewrite Ex, Ey. split; apply clamp_nearest; try apply maxPan_nonneg; assumption.
Qed.

(* ------------------------------------------------------------------------- *)
(** ** Viewport controller                                                    *)
(* ------------------------------------------------------------------------- *)

Lemma scale_ok_inv (a : number) :
  scale_ok a -> a = Fin (toQ a) /\ 1 <= toQ a <= 4.
Proof. intros [F H]. split; [now apply finite_inv | exact H]. Qed.

Lemma finite_point_inv (p : Point) :
  finite_point p -> p = mkPoint (Fin (toQ (x p))) (Fin (toQ (y p))).
Proof.
  destruct p as [a b]. intros [Fa Fb]. simpl in *.
  now rewrite <- !finite_inv.
Qed.

(** The new scale of the min/max form, for any factor that is a number. *)
Lemma V2_newScale (scale f : number) :
  scale_ok scale -> f <> NaN ->
  exists q, JS.min (JS.max 1 (scale * f)%js) 4 = Fin q /\ 1 <= q <= 4 /\
            (forall fq, f = Fin fq -> q == clamp 1 4 (toQ scale * fq)).
Proof.
  intros Hs Hf. destruct (scale_ok_inv _ Hs) as [Es Hsc]. rewrite Es.
  generalize dependent (toQ scale). intros sc _ Hsc. simpl toQ.
  destruct f as [| | fq |]; [congruence | | |].
  - exists 1. cbv [mul sgn sgn_mul inf_of_sgn JS.max JS.min lt].
    destruct (Qcompare_spec sc 0); try (exfalso; lra).
    repeat split; try lra; try reflexivity. discriminate.
  - rewrite mul_Fin, max_Fin.
    destruct (lt_Fin_cases 1 (sc * fq)) as [[H1 E1] | [H1 E1]]; rewrite E1;
      rewrite min_Fin;
      [ destruct (lt_Fin_cases 4 (sc * fq)) as [[H2 E2] | [H2 E2]]
      | destruct (lt_Fin_cases 4 1) as [[H2 E2] | [H2 E2]] ];
      rewrite E2; eexists; (split; [reflexivity |]);
      (split; [lra |]); intros fq' Ef; injection Ef as <-;
      unfold clamp; q_solve.
  - exists 4. cbv [mul sgn sgn_mul inf_of_sgn JS.max JS.min lt].
    destruct (Qcompare_spec sc 0); try (exfalso; lra).
    repeat split; try lra; try reflexivity. discriminate.
Qed.

(** The new scale of the long-hand form of variant 1, zooming in and out. *)
Lemma V1_newScale_in (scale : number) :
  scale_ok scale ->
  exists q,
    (let newScale := (scale * Fin (11 # 10))%js in
     if (newScale >? 4)%js then Fin 4 else newScale) = Fin q /\
    1 <= q <= 4 /\ q == clamp 1 4 (toQ scale * (11 # 10)).
Proof.
  intro Hs. destruct (scale_ok_inv _ Hs) as [Es Hsc]. rewrite Es.
  generalize dependent (toQ scale). intros sc _ Hsc. simpl toQ.
  cbv zeta. unfold gt. rewrite mul_Fin.
  destruct (lt_Fin_cases 4 (sc * (11 # 10))) as [[H E] | [H E]]; rewrite E;
    eexists; (split; [reflexivity |]); (split; [lra |]); unfold clamp; q_solve.
Qed.

Lemma V1_newScale_out (scale : number) :
  scale_ok scale ->
  exists q,
    (let newScale := (scale / Fin (11 # 10))%js in
     if (newScale <? 1)%js then Fin 1 else newScale) = Fin q /\
    1 <= q <= 4 /\ q == clamp 1 4 (toQ scale * (10 # 11)).
Proof.
  intro Hs. destruct (scale_ok_inv _ Hs) as [Es Hsc]. rewrite Es.
  generalize dependent (toQ scale). intros sc _ Hsc. simpl toQ.
  cbv zeta. rewrite div_Fin by lra.
  assert (Ed : sc / (11 # 10) == sc * (10 # 11)) by (field; lra).
  destruct (lt_Fin_cases (sc / (11 # 10)) 1) as [[H E] | [H E]]; rewrite E;
    eexists; (split; [reflexivity |]); (split; [lra |]); unfold clamp; q_solve.
Qed.

Lemma finite_sub (a b : number) : finite a -> finite b -> finite (a - b)%js.
Proof. destruct a, b; simpl; tauto. Qed.

Lemma finite_half (a : number) : finite a -> finite (a / 2)%js.
Proof.
  destruct a as [| | q |]; simpl; try tauto;
    intros _; rewrite div_Fin by lra; exact I.
Qed.

(** Committing a zoom about a local point, variant 2: whatever the local
    point, the committed scale and pan satisfy the viewport invariant. *)
Lemma V2_zoom_commit ref s (lx ly : number) (q : Q) :
  finite_dom ref (V2.bgImage s) -> scale_ok (V2.scale s) ->
  finite_point (V2.pan s) -> finite lx -> finite ly -> 1 <= q <= 4 ->
  V2_viewport_ok ref
    (V2.setPan (fun _ => V2.clampPan ref s
                           (lx / V2.scale s + x (V2.pan s) - lx / Fin q)%js
                           (ly / V2.scale s + y (V2.pan s) - ly / Fin q)%js
                           (Fin q))
               (V2.setScale (Fin q) s)).
Proof.
  intros Hdom Hs Hp Fx Fy Hq.
  apply scale_ok_inv in Hs. destruct Hs as [Es Hs].
  apply finite_point_inv in Hp.
  apply finite_inv in Fx, Fy.
  rewrite Es, Hp, Fx, Fy. simpl. js_arith.
  unfold V2_viewport_ok. simpl. split; [split; [exact I | exact Hq] |].
  match goal with
  | |- pan_ok _ _ _ (V2.clampPan _ _ (Fin ?a) (Fin ?b) _) =>
      destruct (V2_clampPan_spec ref s a b q Hdom Hq) as [Fr Hr];
      apply (clampSpec_pan_ok _ _ q _ a b Fr Hr)
  end.
Qed.

Lemma V1_zoom_commit ref s (lx ly : number) (q : Q) :
  finite_dom ref (V1.backgroundImage s) -> scale_ok (V1.scale s) ->
  finite (V1.panX s) -> finite (V1.panY s) -> finite lx -> finite ly ->
  1 <= q <= 4 ->
  let clamped := V1.clampPan ref s
                   (lx / V1.scale s + V1.panX s - lx / Fin q)%js
                   (ly / V1.scale s + V1.panY s - ly / Fin q)%js (Fin q) in
  V1_viewport_ok ref
    (V1.setPanY (y clamped) (V1.setPanX (x clamped) (V1.setScale (Fin q) s))).
Proof.
  intros Hdom Hs Hpx Hpy Fx Fy Hq.
  apply scale_ok_inv in Hs. destruct Hs as [Es Hs].
  apply finite_inv in Fx, Fy, Hpx, Hpy.
  rewrite Es, Hpx, Hpy, Fx, Fy. simpl. js_arith.
  unfold V1_viewport_ok, V1_pan. simpl. split; [split; [exact I | exact Hq] |].
  match goal with
  | |- context [ V1.clampPan _ _ (Fin ?a) (Fin ?b) _ ] =>
      destruct (V1_clampPan_spec ref s a b q Hdom Hq) as [Fr Hr];
      apply (clampSpec_pan_ok _ _ q _ a b);
      [ exact Fr | exact Hr ]
  end.
Qed.

(** *** Variant 2, one event at a time *)

(** Splits the goal along the tests of the key listeners and of the radial
    menu. *)
Ltac v2_branches :=
  unfold V2.undoHandler, V2.thicknessHandler, V2.commitSlice;
  repeat match goal with
  | |- context [if ?b then _ else _] => destruct b
  | |- context [match ?o with Some _ => _ | None => _ end] => destruct o
  | |- context [match ?i with V2.colourId _ => _ | V2.toolId _ => _ end] =>
      destruct i
  end.

(** Events other than the viewport transitions leave the viewport alone. *)
Lemma V2_step_frame ref ev s :
  R2_viewport_transition ev s = false ->
  V2.scale (R2.step ref ev s) = V2.scale s /\
  V2.pan (R2.step ref ev s) = V2.pan s /\
  V2.bgImage (R2.step ref ev s) = V2.bgImage s.
Proof.
  destruct ev as [e | now e | now e | e | k | f | now | id | id | |]; simpl;
    intro H; try discriminate.
  - unfold V2.handleMouseDown.
    destruct (button e =? 2)%Z; [simpl; auto |].
    destruct (V2.menuOpen s); [simpl; auto |].
    destruct (ctrlKey e); simpl; auto.
  - unfold V2.handleMouseMove. rewrite H.
    destruct (V2.isDrawing s && ToolType_eqb (V2.currentTool s) pen); simpl; auto.
  - unfold V2.handleMouseUp.
    destruct (V2.isPanning s); [simpl; auto |].
    destruct (V2.isDrawing s); simpl; auto.
  - v2_branches; simpl; auto.
  - simpl; auto.
  - v2_branches; simpl; auto.
  - v2_branches; simpl; auto.
  - v2_branches; simpl; auto.
  - v2_branches; simpl; auto.
Qed.

Lemma V2_step_bgImage ref ev s : V2.bgImage (R2.step ref ev s) = V2.bgImage s.
Proof.
  destruct (R2_viewport_transition ev s) eqn:H.
  - destruct ev as [e | now e | now e | e | k | f | now | id | id | |];
      simpl in *; try discriminate.
    + unfold V2.handleMouseMove. rewrite H. reflexivity.
    + unfold V2.handleWheel. destruct (find_canvas ref); reflexivity.
    + unfold V2.zoomByFactor. destruct (find_canvas ref); reflexivity.
  - now apply V2_step_frame.
Qed.

Lemma V2_handleWheel_ok ref e s :
  finite_dom ref (V2.bgImage s) -> finite_mouse e ->
  scale_ok (V2.scale s) -> finite_point (V2.pan s) ->
  V2_viewport_ok ref (V2.handleWheel ref e s).
Proof.
  intros Hdom [Fx Fy] Hs Hp. unfold V2.handleWheel.
  destruct (find_canvas ref) as [canvas |] eqn:Hc.
  - pose proof (proj1 Hdom) as Hcv. rewrite Hc in Hcv.
    destruct Hcv as (_ & _ & Fl & Ft & _).
    destruct (scale_ok_inv _ Hs) as [Es Hq].
    assert (Hf : (if (deltaY e <? 0)%js then Fin (11 # 10)
                  else (Fin 1 / Fin (11 # 10))%js) <> NaN).
    { destruct (deltaY e <? 0)%js; [discriminate |].
      rewrite div_Fin by lra. discriminate. }
    cbv zeta.
    destruct (V2_newScale _ _ Hs Hf) as (q & -> & Hq' & _).
    apply V2_zoom_commit; try assumption; now apply finite_sub.
  - split; [exact Hs |].
    unfold pan_ok. rewrite Hc. destruct Hp. tauto.
Qed.

Lemma V2_zoomByFactor_ok ref f s :
  finite_dom ref (V2.bgImage s) -> f <> NaN ->
  scale_ok (V2.scale s) -> finite_point (V2.pan s) ->
  V2_viewport_ok ref (V2.zoomByFactor ref f s).
Proof.
  intros Hdom Hf Hs Hp. unfold V2.zoomByFactor.
  cbv zeta.
  destruct (V2_newScale _ _ Hs Hf) as (q & -> & Hq' & _).
  destruct (find_canvas ref) as [canvas |] eqn:Hc.
  - pose proof (proj1 Hdom) as Hcv. rewrite Hc in Hcv.
    destruct Hcv as (_ & _ & _ & _ & Fw & Fh).
    apply V2_zoom_commit; try assumption; now apply finite_half.
  - split; [split; [exact I | exact Hq'] |].
    unfold pan_ok. simpl. rewrite Hc. destruct Hp. tauto.
Qed.

Lemma V2_pan_move_ok ref now e s :
  finite_dom ref (V2.bgImage s) -> finite_mouse e ->
  V2.isPanning s = true ->
  scale_ok (V2.scale s) -> finite_point (V2.pan s) -> finite_point (V2.panStart s) ->
  V2_viewport_ok ref (V2.handleMouseMove ref now e s).
Proof.
  intros Hdom [Fx Fy] Hpan Hs Hp Hps. unfold V2.handleMouseMove. rewrite Hpan.
  destruct (scale_ok_inv _ Hs) as [Es Hq].
  apply finite_inv in Fx, Fy.
  unfold V2_viewport_ok. simpl. split; [exact Hs |].
  rewrite (finite_point_inv _ Hp), (finite_point_inv _ Hps), Es, Fx, Fy.
  simpl. js_arith.
  match goal with
  | |- pan_ok _ _ _ (V2.clampPan _ _ (Fin ?a) (Fin ?b) _) =>
      destruct (V2_clampPan_spec ref s a b _ Hdom Hq) as [Fr Hr];
      apply (clampSpec_pan_ok _ _ _ _ a b Fr Hr)
  end.
Qed.

Lemma finite_not_NaN (a : number) : finite a -> a <> NaN.
Proof. destruct a; simpl; intro H; try contradiction; discriminate. Qed.

Lemma pan_ok_finite canvas bg sc p : pan_ok canvas bg sc p -> finite_point p.
Proof. intros (Fx & Fy & _). now split. Qed.

(** A viewport transition re-establishes the invariant from the scale bound
    alone. *)
Lemma V2_transition_ok ref ev s :
  finite_dom ref (V2.bgImage s) -> R2_finite_event ev ->
  R2_viewport_transition ev s = true ->
  scale_ok (V2.scale s) -> finite_point (V2.pan s) -> finite_point (V2.panStart s) ->
  V2_viewport_ok ref (R2.step ref ev s).
Proof.
  intros Hdom Hev Ht Hs Hp Hps.
  destruct ev as [e | now e | now e | e | k | f | now | id | id | |];
    simpl in *; try discriminate.
  - now apply V2_pan_move_ok.
  - now apply V2_handleWheel_ok.
  - apply V2_zoomByFactor_ok; try assumption. now apply finite_not_NaN.
Qed.

Lemma V2_step_panStart ref ev s :
  R2_finite_event ev -> finite_point (V2.panStart s) ->
  finite_point (V2.panStart (R2.step ref ev s)).
Proof.
  intros Hev Hps.
  destruct ev as [e | now e | now e | e | k | f | now | id | id | |];
    simpl in *; try (v2_branches; exact Hps).
  - unfold V2.handleMouseDown.
    destruct (button e =? 2)%Z; [exact Hps |].
    destruct (V2.menuOpen s); [exact Hps |].
    destruct (ctrlKey e); [exact Hev | exact Hps].
  - unfold V2.handleMouseMove.
    destruct (V2.isPanning s); [exact Hev |].
    destruct (V2.isDrawing s && ToolType_eqb (V2.currentTool s) pen); exact Hps.
  - unfold V2.handleMouseUp.
    destruct (V2.isPanning s); [exact Hps |].
    destruct (V2.isDrawing s); exact Hps.
  - unfold V2.handleWheel. destruct (find_canvas ref); exact Hps.
  - unfold V2.zoomByFactor. destruct (find_canvas ref); exact Hps.
Qed.

Lemma V2_step_inv ref ev s :
  finite_dom ref (V2.bgImage s) -> R2_finite_event ev ->
  V2_inv ref s -> V2_inv ref (R2.step ref ev s).
Proof.
  intros Hdom Hev [[Hs Hok] Hps].
  split; [| now apply V2_step_panStart].
  destruct (R2_viewport_transition ev s) eqn:Ht.
  - apply V2_transition_ok; try assumption. now apply pan_ok_finite in Hok.
  - destruct (V2_step_frame ref ev s Ht) as (E1 & E2 & E3).
    unfold V2_viewport_ok. now rewrite E1, E2, E3.
Qed.

Lemma V2_run_inv ref evs : forall s,
  finite_dom ref (V2.bgImage s) -> Forall R2_finite_event evs ->
  V2_inv ref s -> V2_inv ref (R2.run ref evs s).
Proof.
  induction evs as [| ev evs IH]; intros s Hdom Hevs Hinv; [exact Hinv |].
  inversion Hevs as [| ? ? Hev Hrest]; subst. simpl.
  apply IH; [| exact Hrest |].
  - now rewrite V2_step_bgImage.
  - now apply V2_step_inv.
Qed.

(** *** Variant 1, one event at a time *)

Lemma V1_step_frame ref ev s :
  R1_viewport_transition ev s = false -> ev <> R1.ClickReset ->
  V1.scale (R1.step ref ev s) = V1.scale s /\
  V1_pan (R1.step ref ev s) = V1_pan s /\
  V1.backgroundImage (R1.step ref ev s) = V1.backgroundImage s.
Proof.
  destruct ev as [e | now e | now e | e | k | | | | now]; simpl; intros H Hr;
    try discriminate; try congruence.
  - unfold V1.handleMouseDown. destruct ref; [| auto].
    destruct (ctrlKey e); simpl; auto.
  - unfold V1.handleMouseMove. rewrite H.
    destruct (V1.isDrawing s); simpl; [| auto].
    destruct (ToolType_eqb (V1.activeTool s) pen); simpl; auto.
  - unfold V1.handleMouseUp.
    destruct (V1.isPanning s); [simpl; auto |].
    destruct (V1.isDrawing s); simpl; [| auto].
    destruct (ToolType_eqb (V1.activeTool s) arrow
              || ToolType_eqb (V1.activeTool s) circle
              || ToolType_eqb (V1.activeTool s) emoji); simpl; auto.
  - unfold V1.handleKeyDown.
    destruct (String.eqb (key k) "Backspace"); [simpl; auto |].
    destruct ((key_ctrlKey k || key_metaKey k)
              && String.eqb (toLowerCase (key k)) "z"); simpl; auto.
  - simpl; auto.
Qed.

Lemma V1_step_backgroundImage ref ev s :
  V1.backgroundImage (R1.step ref ev s) = V1.backgroundImage s.
Proof.
  destruct (R1_viewport_transition ev s) eqn:H.
  - destruct ev as [e | now e | now e | e | k | | | | now]; simpl in *;
      try discriminate.
    + unfold V1.handleMouseMove. rewrite H. reflexivity.
    + unfold V1.handleWheel. destruct (find_canvas ref); reflexivity.
    + unfold V1.zoomIn, V1.zoomAroundCenter. destruct (find_canvas ref); reflexivity.
    + unfold V1.zoomOut, V1.zoomAroundCenter. destruct (find_canvas ref); reflexivity.
  - destruct ev as [e | now e | now e | e | k | | | | now];
      try (apply V1_step_frame; [exact H | discriminate]).
    reflexivity.
Qed.

Lemma V1_zoomAroundCenter_ok ref (q : Q) s :
  finite_dom ref (V1.backgroundImage s) -> 1 <= q <= 4 ->
  scale_ok (V1.scale s) -> finite_point (V1_pan s) ->
  V1_viewport_ok ref (V1.zoomAroundCenter ref (Fin q) s).
Proof.
  intros Hdom Hq Hs [Fpx Fpy]. unfold V1.zoomAroundCenter.
  destruct (find_canvas ref) as [canvas |] eqn:Hc.
  - pose proof (proj1 Hdom) as Hcv. rewrite Hc in Hcv.
    destruct Hcv as (_ & _ & _ & _ & Fw & Fh).
    cbv zeta. apply V1_zoom_commit; try assumption; now apply finite_half.
  - split; [split; [exact I | exact Hq] |].
    unfold pan_ok. simpl. rewrite Hc. simpl in Fpx, Fpy. tauto.
Qed.

Lemma V1_handleWheel_ok ref e s :
  finite_dom ref (V1.backgroundImage s) -> finite_mouse e ->
  scale_ok (V1.scale s) -> finite_point (V1_pan s) ->
  V1_viewport_ok ref (V1.handleWheel ref e s).
Proof.
  intros Hdom [Fx Fy] Hs [Fpx Fpy]. simpl in Fpx, Fpy. unfold V1.handleWheel.
  destruct (find_canvas ref) as [canvas |] eqn:Hc.
  - pose proof (proj1 Hdom) as Hcv. rewrite Hc in Hcv.
    destruct Hcv as (_ & _ & Fl & Ft & _).
    cbv zeta.
    destruct (deltaY e <? 0)%js.
    + destruct (V1_newScale_in _ Hs) as (q & Eq & Hq' & _).
      cbv zeta in Eq. rewrite Eq.
      apply V1_zoom_commit; try assumption; now apply finite_sub.
    + destruct (V1_newScale_out _ Hs) as (q & Eq & Hq' & _).
      cbv zeta in Eq. rewrite Eq.
      apply V1_zoom_commit; try assumption; now apply finite_sub.
  - split; [exact Hs |].
    unfold pan_ok. rewrite Hc. simpl. tauto.
Qed.

Lemma V1_zoomIn_ok ref s :
  finite_dom ref (V1.backgroundImage s) ->
  scale_ok (V1.scale s) -> finite_point (V1_pan s) ->
  V1_viewport_ok ref (V1.zoomIn ref s).
Proof.
  intros Hdom Hs Hp. unfold V1.zoomIn.
  destruct (V1_newScale_in _ Hs) as (q & Eq & Hq' & _).
  cbv zeta in *. rewrite Eq. now apply V1_zoomAroundCenter_ok.
Qed.

Lemma V1_zoomOut_ok ref s :
  finite_dom ref (V1.backgroundImage s) ->
  scale_ok (V1.scale s) -> finite_point (V1_pan s) ->
  V1_viewport_ok ref (V1.zoomOut ref s).
Proof.
  intros Hdom Hs Hp. unfold V1.zoomOut.
  destruct (V1_newScale_out _ Hs) as (q & Eq & Hq' & _).
  cbv zeta in *. rewrite Eq. now apply V1_zoomAroundCenter_ok.
Qed.

Lemma V1_pan_move_ok ref now e s :
  finite_dom ref (V1.backgroundImage s) -> finite_mouse e ->
  V1.isPanning s = true ->
  scale_ok (V1.scale s) -> finite_point (V1_pan s) -> finite_point (V1.panStart s) ->
  V1_viewport_ok ref (V1.handleMouseMove ref now e s).
Proof.
  intros Hdom [Fx Fy] Hpan Hs [Fpx Fpy] Hps. simpl in Fpx, Fpy.
  unfold V1.handleMouseMove. rewrite Hpan.
  destruct (scale_ok_inv _ Hs) as [Es Hq].
  apply finite_inv in Fx, Fy, Fpx, Fpy.
  unfold V1_viewport_ok, V1_pan. simpl. split; [exact Hs |].
  rewrite (finite_point_inv _ Hps), Es, Fx, Fy, Fpx, Fpy.
  simpl. js_arith.
  match goal with
  | |- context [ V1.clampPan _ _ (Fin ?a) (Fin ?b) _ ] =>
      destruct (V1_clampPan_spec ref s a b _ Hdom Hq) as [Fr Hr];
      apply (clampSpec_pan_ok _ _ _ _ a b); [exact Fr | exact Hr]
  end.
Qed.

Lemma V1_resetZoom_ok ref s : V1_viewport_ok ref (V1.resetZoom s).
Proof.
  unfold V1_viewport_ok, V1_pan, V1.resetZoom, scale_ok, pan_ok. simpl.
  repeat split; try exact I; try lra.
  destruct (find_canvas ref) as [c |]; [| exact I].
  destruct (V1.backgroundImage s) as [b |]; [| exact I].
  pose proof (maxPan_nonneg (toQ (img_width b)) (toQ (width c)) 1).
  pose proof (maxPan_nonneg (toQ (img_height b)) (toQ (height c)) 1).
  repeat split; lra.
Qed.

Lemma V1_transition_ok ref ev s :
  finite_dom ref (V1.backgroundImage s) -> R1_finite_event ev ->
  R1_viewport_transition ev s = true ->
  scale_ok (V1.scale s) -> finite_point (V1_pan s) -> finite_point (V1.panStart s) ->
  V1_viewport_ok ref (R1.step ref ev s).
Proof.
  intros Hdom Hev Ht Hs Hp Hps.
  destruct ev as [e | now e | now e | e | k | | | | now]; simpl in *;
    try discriminate.
  - now apply V1_pan_move_ok.
  - now apply V1_handleWheel_ok.
  - now apply V1_zoomIn_ok.
  - now apply V1_zoomOut_ok.
Qed.

Lemma V1_step_panStart ref ev s :
  R1_finite_event ev -> finite_point (V1.panStart s) ->
  finite_point (V1.panStart (R1.step ref ev s)).
Proof.
  intros Hev Hps.
  destruct ev as [e | now e | now e | e | k | | | | now]; simpl in *.
  - unfold V1.handleMouseDown. destruct ref; [| exact Hps].
    destruct (ctrlKey e); [exact Hev | exact Hps].
  - unfold V1.handleMouseMove.
    destruct (V1.isPanning s); [exact Hev |].
    destruct (V1.isDrawing s); simpl; [| exact Hps].
    destruct (ToolType_eqb (V1.activeTool s) pen); exact Hps.
  - unfold V1.handleMouseUp.
    destruct (V1.isPanning s); [exact Hps |].
    destruct (V1.isDrawing s); simpl; [| exact Hps].
    destruct (ToolType_eqb (V1.activeTool s) arrow
              || ToolType_eqb (V1.activeTool s) circle
              || ToolType_eqb (V1.activeTool s) emoji); exact Hps.
  - unfold V1.handleWheel. destruct (find_canvas ref); exact Hps.
  - unfold V1.handleKeyDown.
    destruct (String.eqb (key k) "Backspace"); [exact Hps |].
    destruct ((key_ctrlKey k || key_metaKey k)
              && String.eqb (toLowerCase (key k)) "z"); exact Hps.
  - unfold V1.zoomIn, V1.zoomAroundCenter. destruct (find_canvas ref); exact Hps.
  - unfold V1.zoomOut, V1.zoomAroundCenter. destruct (find_canvas ref); exact Hps.
  - exact Hps.
  - exact Hps.
Qed.

Lemma V1_step_inv ref ev s :
  finite_dom ref (V1.backgroundImage s) -> R1_finite_event ev ->
  V1_inv ref s -> V1_inv ref (R1.step ref ev s).
Proof.
  intros Hdom Hev [[Hs Hok] Hps].
  split; [| now apply V1_step_panStart].
  destruct (R1_viewport_transition ev s) eqn:Ht.
  - apply V1_transition_ok; try assumption. now apply pan_ok_finite in Hok.
  - assert (Hcase : ev = R1.ClickReset \/ ev <> R1.ClickReset)
      by (destruct ev; (left; reflexivity) || (right; discriminate)).
    destruct Hcase as [-> | Hne].
    + apply V1_resetZoom_ok.
    + destruct (V1_step_frame ref ev s Ht Hne) as (E1 & E2 & E3).
      unfold V1_viewport_ok. now rewrite E1, E2, E3.
Qed.

Lemma V1_run_inv ref evs : forall s,
  finite_dom ref (V1.backgroundImage s) -> Forall R1_finite_event evs ->
  V1_inv ref s -> V1_inv ref (R1.run ref evs s).
Proof.
  induction evs as [| ev evs IH]; intros s Hdom Hevs Hinv; [exact Hinv |].
  inversion Hevs as [| ? ? Hev Hrest]; subst. simpl.
  apply IH; [| exact Hrest |].
  - now rewrite V1_step_backgroundImage.
  - now apply V1_step_inv.
Qed.

Lemma V1_iter_zoomIn ref n : forall s,
  finite_dom ref (V1.backgroundImage s) ->
  scale_ok (V1.scale s) -> finite_point (V1_pan s) ->
  let s' := Nat.iter n (V1.zoomIn ref) s in
  scale_ok (V1.scale s') /\ finite_point (V1_pan s') /\
  V1.backgroundImage s' = V1.backgroundImage s.
Proof.
  induction n as [| n IH]; intros s Hdom Hs Hp; simpl; [tauto |].
  destruct (IH s Hdom Hs Hp) as (Hs' & Hp' & Eb).
  assert (Hdom' : finite_dom ref (V1.backgroundImage (Nat.iter n (V1.zoomIn ref) s)))
    by now rewrite Eb.
  destruct (V1_zoomIn_ok ref _ Hdom' Hs' Hp') as [Hs'' Hok].
  split; [exact Hs'' |]. split; [now apply pan_ok_finite in Hok |].
  rewrite <- Eb. apply (V1_step_backgroundImage ref R1.ClickZoomIn).
Qed.

Lemma V1_iter_zoomOut ref n : forall s,
  finite_dom ref (V1.backgroundImage s) ->
  scale_ok (V1.scale s) -> finite_point (V1_pan s) ->
  let s' := Nat.iter n (V1.zoomOut ref) s in
  scale_ok (V1.scale s') /\ finite_point (V1_pan s') /\
  V1.backgroundImage s' = V1.backgroundImage s.
Proof.
  induction n as [| n IH]; intros s Hdom Hs Hp; simpl; [tauto |].
  destruct (IH s Hdom Hs Hp) as (Hs' & Hp' & Eb).
  assert (Hdom' : finite_dom ref (V1.backgroundImage (Nat.iter n (V1.zoomOut ref) s)))
    by now rewrite Eb.
  destruct (V1_zoomOut_ok ref _ Hdom' Hs' Hp') as [Hs'' Hok].
  split; [exact Hs'' |]. split; [now apply pan_ok_finite in Hok |].
  rewrite <- Eb. apply (V1_step_backgroundImage ref R1.ClickZoomOut).
Qed.

Lemma V2_iter_zoom ref f n : forall s,
  f <> NaN -> finite_dom ref (V2.bgImage s) ->
  scale_ok (V2.scale s) -> finite_point (V2.pan s) ->
  let s' := Nat.iter n (V2.zoomByFactor ref f) s in
  scale_ok (V2.scale s') /\ finite_point (V2.pan s') /\
  V2.bgImage s' = V2.bgImage s.
Proof.
  induction n as [| n IH]; intros s Hf Hdom Hs Hp; simpl; [tauto |].
  destruct (IH s Hf Hdom Hs Hp) as (Hs' & Hp' & Eb).
  assert (Hdom' : finite_dom ref (V2.bgImage (Nat.iter n (V2.zoomByFactor ref f) s)))
    by now rewrite Eb.
  destruct (V2_zoomByFactor_ok ref f _ Hdom' Hf Hs' Hp') as [Hs'' Hok].
  split; [exact Hs'' |]. split; [now apply pan_ok_finite in Hok |].
  rewrite <- Eb. apply (V2_step_bgImage ref (R2.ClickZoom f)).
Qed.

(** C3 -- the viewport invariant, in both variants.  From any state whose
    scale is in [1, 4], every viewport transition (wheel zoom, a zoom button,
    the mouse move of a pan gesture) leaves a scale in [1, 4] and a pan
    within the clamp bounds of the new scale; the invariant then survives
    every run of events; zooming in or out any number of times, by any
    factor that is a number, keeps the scale in [1, 4]; and [resetZoom] sets
    scale 1 and pan (0, 0) directly, without consulting the clamp. *)
Theorem viewport_invariant
        (containerRef : option Container) (s1 : V1.State) (s2 : V2.State) :
  finite_dom containerRef (V1.backgroundImage s1) ->
  finite_dom containerRef (V2.bgImage s2) ->
  scale_ok (V1.scale s1) -> finite_point (V1_pan s1) -> finite_point (V1.panStart s1) ->
  scale_ok (V2.scale s2) -> finite_point (V2.pan s2) -> finite_point (V2.panStart s2) ->
  (forall ev, R1_finite_event ev -> R1_viewport_transition ev s1 = true ->
              V1_viewport_ok containerRef (R1.step containerRef ev s1)) /\
  (forall ev, R2_finite_event ev -> R2_viewport_transition ev s2 = true ->
              V2_viewport_ok containerRef (R2.step containerRef ev s2)) /\
  (forall evs, Forall R1_finite_event evs -> V1_viewport_ok containerRef s1 ->
               V1_viewport_ok containerRef (R1.run containerRef evs s1)) /\
  (forall evs, Forall R2_finite_event evs -> V2_viewport_ok containerRef s2 ->
               V2_viewport_ok containerRef (R2.run containerRef evs s2)) /\
  (forall n, scale_ok (V1.scale (Nat.iter n (V1.zoomIn containerRef) s1)) /\
             scale_ok (V1.scale (Nat.iter n (V1.zoomOut containerRef) s1))) /\
  (forall n factor, factor <> NaN ->
        scale_ok (V2.scale (Nat.iter n (V2.zoomByFactor containerRef factor) s2))) /\
  (V1.scale (V1.resetZoom s1) = Fin 1 /\ V1_pan (V1.resetZoom s1) = mkPoint 0 0).
Proof.
  intros Hd1 Hd2 Hs1 Hp1 Hps1 Hs2 Hp2 Hps2.
  split; [| split; [| split; [| split; [| split; [| split]]]]].
  - intros ev Hev Ht. now apply V1_transition_ok.
  - intros ev Hev Ht. now apply V2_transition_ok.
  - intros evs Hevs Hok.
    apply (V1_run_inv containerRef evs s1 Hd1 Hevs). now split.
  - intros evs Hevs Hok.
    apply (V2_run_inv containerRef evs s2 Hd2 Hevs). now split.
  - intro n. split.
    + apply (V1_iter_zoomIn containerRef n s1 Hd1 Hs1 Hp1).
    + apply (V1_iter_zoomOut containerRef n s1 Hd1 Hs1 Hp1).
  - intros n f Hf. apply (V2_iter_zoom containerRef f n s2 Hf Hd2 Hs2 Hp2).
  - split; reflexivity.
Qed.

Lemma viewport_invariant_witness :
  let ref := mounted_400x300 in
  let s1 := v1_with (Some bg_800x600) 1 0 0 in
  let s2 := v2_with (Some bg_800x600) 1 0 0 in
  (forall ev, R1_finite_event ev -> R1_viewport_transition ev s1 = true ->
              V1_viewport_ok ref (R1.step ref ev s1)) /\
  (forall ev, R2_finite_event ev -> R2_viewport_transition ev s2 = true ->
              V2_viewport_ok ref (R2.step ref ev s2)) /\
  (forall evs, Forall R1_finite_event evs -> V1_viewport_ok ref s1 ->
               V1_viewport_ok ref (R1.run ref evs s1)) /\
  (forall evs, Forall R2_finite_event evs -> V2_viewport_ok ref s2 ->
               V2_viewport_ok ref (R2.run ref evs s2)) /\
  (forall n, scale_ok (V1.scale (Nat.iter n (V1.zoomIn ref) s1)) /\
             scale_ok (V1.scale (Nat.iter n (V1.zoomOut ref) s1))) /\
  (forall n factor, factor <> NaN ->
        scale_ok (V2.scale (Nat.iter n (V2.zoomByFactor ref factor) s2))) /\
  (V1.scale (V1.resetZoom s1) = Fin 1 /\ V1_pan (V1.resetZoom s1) = mkPoint 0 0).
Proof.
  apply (viewport_invariant mounted_400x300
           (v1_with (Some bg_800x600) 1 0 0) (v2_with (Some bg_800x600) 1 0 0)).
  - vm_compute. tauto.
  - vm_compute. tauto.
  - split; [exact I | split; vm_compute; discriminate].
  - split; exact I.
  - split; exact I.
  - split; [exact I | split; vm_compute; discriminate].
  - split; exact I.
  - split; exact I.
Defined.

(** The components start idle, at scale 1 and pan (0, 0), which satisfies
    the invariant whatever the background. *)
Example initial_states_ok :
  forall ref uid name,
    V1_inv ref (V1.initialState uid name) /\ V1_flags_ok false (V1.initialState uid name) /\
    V2_inv ref (V2.initialState uid) /\ V2_flags_ok false (V2.initialState uid).
Proof.
  intros ref uid name.
  unfold V1_inv, V2_inv, V1_viewport_ok, V2_viewport_ok, V1_flags_ok, V2_flags_ok,
    scale_ok, pan_ok, finite_point.
  simpl. destruct (find_canvas ref); repeat split; try exact I; lra.
Qed.

(** Zooming in by a factor of 10, three times over, stops at 4; zooming out
    by 0.01 stops at 1. *)
Example zoom_by_10_stops_at_4 :
  V2.scale (Nat.iter 3 (V2.zoomByFactor mounted_400x300 10)
                     (v2_with (Some bg_800x600) 1 0 0)) = Fin 4.
Proof. vm_compute. reflexivity. Qed.

Example zoom_by_hundredth_stops_at_1 :
  V2.scale (Nat.iter 3 (V2.zoomByFactor mounted_400x300 (Fin (1 # 100)))
                     (v2_with (Some bg_800x600) 4 0 0)) = Fin 1.
Proof. vm_compute. reflexivity. Qed.

(** The clamp bounds of section 8: background 800 x 600, viewport 400 x 300;
    at scale 1 the pan range is [0, 400] x [0, 300], at scale 2 it is
    [0, 600] x [0, 450]. *)
Example clamp_bounds_scale_1 :
  same_point (V2.clampPan mounted_400x300 (v2_with (Some bg_800x600) 1 0 0) 5000 5000 1)
             (mkPoint 400 300) /\
  same_point (V1.clampPan mounted_400x300 (v1_with (Some bg_800x600) 1 0 0) (-7) (-7) 1)
             (mkPoint 0 0).
Proof. vm_compute. tauto. Qed.

Example clamp_bounds_scale_2 :
  same_point (V2.clampPan mounted_400x300 (v2_with (Some bg_800x600) 1 0 0) 5000 5000 2)
             (mkPoint 600 450) /\
  same_point (V1.clampPan mounted_400x300 (v1_with (Some bg_800x600) 1 0 0) 5000 5000 2)
             (mkPoint 600 450).
Proof. vm_compute. tauto. Qed.

(* ------------------------------------------------------------------------- *)
(** ** Zoom about the cursor                                                  *)
(* ------------------------------------------------------------------------- *)

Lemma dev_shift (a r p W c : Q) :
  a + r - W == r - c -> a + p - W == p - c ->
  Qabs (r - c) <= Qabs (p - c) -> Qabs (a + r - W) <= Qabs (a + p - W).
Proof. intros E1 E2 H. now rewrite E1, E2. Qed.

Lemma clamp_wd (lo hi v w : Q) : v == w -> clamp lo hi v == clamp lo hi w.
Proof. intro E. unfold clamp. q_solve. Qed.

Lemma V2_wheel_newScale e (s : V2.State) :
  scale_ok (V2.scale s) ->
  exists q,
    JS.min (JS.max 1 (V2.scale s * (if (deltaY e <? 0)%js then Fin (11 # 10)
                                    else Fin 1 / Fin (11 # 10)))%js) 4 = Fin q /\
    1 <= q <= 4 /\ q == clamp 1 4 (toQ (V2.scale s) * wheelFactor e).
Proof.
  intro Hs. unfold wheelFactor.
  destruct (deltaY e <? 0)%js.
  - destruct (V2_newScale (V2.scale s) (Fin (11 # 10)) Hs) as (q & Eq & Hq & Hc);
      [discriminate |].
    exists q. repeat split; try tauto. now apply Hc.
  - rewrite div_Fin by lra.
    destruct (V2_newScale (V2.scale s) (Fin (1 / (11 # 10))) Hs) as (q & Eq & Hq & Hc);
      [discriminate |].
    exists q. repeat split; try tauto.
    rewrite (Hc _ eq_refl). apply clamp_wd. field.
Qed.

Lemma V2_handleWheel_anchor ref canvas e s :
  find_canvas ref = Some canvas ->
  finite_dom ref (V2.bgImage s) -> finite_mouse e ->
  scale_ok (V2.scale s) -> finite_point (V2.pan s) ->
  let s' := V2.handleWheel ref e s in
  let rect := getBoundingClientRect canvas in
  let localX := (clientX e - rect_left rect)%js in
  let localY := (clientY e - rect_top rect)%js in
  let before := V2.screenToWorld ref s (clientX e) (clientY e) in
  let after := V2.screenToWorld ref s' (clientX e) (clientY e) in
  let requested := mkPoint (x before - localX / V2.scale s')%js
                           (y before - localY / V2.scale s')%js in
  scale_ok (V2.scale s') /\
  toQ (V2.scale s') == clamp 1 4 (toQ (V2.scale s) * wheelFactor e) /\
  V2.pan s' = V2.clampPan ref s (x requested) (y requested) (V2.scale s') /\
  pan_ok (Some canvas) (V2.bgImage s) (V2.scale s') (V2.pan s') /\
  (same_point (V2.pan s') requested -> same_point after before) /\
  (forall p : Point,
      pan_ok (Some canvas) (V2.bgImage s) (V2.scale s') p ->
      let other := V2.screenToWorld ref (V2.setPan (fun _ => p) s')
                                    (clientX e) (clientY e) in
      axis_dev (x after) (x before) <= axis_dev (x other) (x before) /\
      axis_dev (y after) (y before) <= axis_dev (y other) (y before)).
Proof.
  intros Hc Hdom [Fx Fy] Hs Hp.
  pose proof (proj1 Hdom) as Hcv. rewrite Hc in Hcv.
  destruct Hcv as (_ & _ & Fl & Ft & _).
  unfold V2.screenToWorld, V2.handleWheel. rewrite Hc. cbv zeta.
  destruct (V2_wheel_newScale e s Hs) as (q & -> & Hq & Eq).
  destruct (scale_ok_inv _ Hs) as [Es Hsc].
  apply finite_inv in Fx, Fy, Fl, Ft.
  simpl. split; [split; [exact I | exact Hq] |].
  split; [exact Eq |]. split; [reflexivity |]. clear Eq.
  rewrite (finite_point_inv _ Hp), Es, Fx, Fy, Fl, Ft. simpl.
  clear Fx Fy Fl Ft Es Hp Hs.
  generalize dependent (toQ (V2.scale s)). intros sc Hsc.
  generalize (toQ (clientX e)) (toQ (clientY e)) (toQ (x (V2.pan s)))
             (toQ (y (V2.pan s))) (toQ (rect_left (getBoundingClientRect canvas)))
             (toQ (rect_top (getBoundingClientRect canvas))).
  intros cx cy panx pany l t. js_arith.
  match goal with
  | |- context [ V2.clampPan _ _ (Fin ?a) (Fin ?b) _ ] =>
      set (R := V2.clampPan ref s (Fin a) (Fin b) (Fin q)) in *;
      destruct (V2_clampPan_spec ref s a b q Hdom Hq) as [Fr Hr];
      fold R in Fr, Hr;
      pose proof (clampSpec_pan_ok _ _ q R a b Fr Hr) as Hok;
      pose proof (fun p => clampSpec_nearest _ _ q R p a b Hr) as Hnear
  end.
  rewrite Hc in Hok, Hnear. split; [exact Hok |]. clear Hr Hok.
  clearbody R. destruct R as [rx ry], Fr as [Frx Fry]. simpl in Frx, Fry.
  fin_intro. cbn [x y toQ] in *. js_arith. split.
  - unfold same_point. cbn [same x y]. intros [Ex Ey].
    split; [rewrite Ex | rewrite Ey]; field; lra.
  - intros p Hp'. destruct (Hnear p Hp') as [Nx Ny].
    destruct Hp' as (Fpx & Fpy & _).
    rewrite (finite_inv _ Fpx), (finite_inv _ Fpy) in *. js_arith.
    unfold axis_dev. cbn [x y toQ] in *.
    split; (eapply dev_shift; [| | eassumption]); field; lra.
Qed.

Lemma V1_wheel_newScale e (s : V1.State) :
  scale_ok (V1.scale s) ->
  exists q,
    (if (deltaY e <? 0)%js
     then if (V1.scale s * Fin (11 # 10) >? 4)%js then Fin 4
          else (V1.scale s * Fin (11 # 10))%js
     else if (V1.scale s / Fin (11 # 10) <? 1)%js then Fin 1
          else (V1.scale s / Fin (11 # 10))%js) = Fin q /\
    1 <= q <= 4 /\ q == clamp 1 4 (toQ (V1.scale s) * wheelFactor e).
Proof.
  intro Hs. unfold wheelFactor.
  destruct (deltaY e <? 0)%js.
  - destruct (V1_newScale_in _ Hs) as (q & Eq & Hq & Hc). now exists q.
  - destruct (V1_newScale_out _ Hs) as (q & Eq & Hq & Hc). now exists q.
Qed.

Lemma V1_handleWheel_anchor ref canvas e s :
  find_canvas ref = Some canvas ->
  finite_dom ref (V1.backgroundImage s) -> finite_mouse e ->
  scale_ok (V1.scale s) -> finite_point (V1_pan s) ->
  let s' := V1.handleWheel ref e s in
  let rect := getBoundingClientRect canvas in
  let localX := (clientX e - rect_left rect)%js in
  let localY := (clientY e - rect_top rect)%js in
  let before := V1.screenToWorld ref s (clientX e) (clientY e) in
  let after := V1.screenToWorld ref s' (clientX e) (clientY e) in
  let requested := mkPoint (x before - localX / V1.scale s')%js
                           (y before - localY / V1.scale s')%js in
  scale_ok (V1.scale s') /\
  toQ (V1.scale s') == clamp 1 4 (toQ (V1.scale s) * wheelFactor e) /\
  V1_pan s' = V1.clampPan ref s (x requested) (y requested) (V1.scale s') /\
  pan_ok (Some canvas) (V1.backgroundImage s) (V1.scale s') (V1_pan s') /\
  (same_point (V1_pan s') requested -> same_point after before) /\
  (forall p : Point,
      pan_ok (Some canvas) (V1.backgroundImage s) (V1.scale s') p ->
      let other := V1.screenToWorld ref (V1.setPanY (y p) (V1.setPanX (x p) s'))
                                    (clientX e) (clientY e) in
      axis_dev (x after) (x before) <= axis_dev (x other) (x before) /\
      axis_dev (y after) (y before) <= axis_dev (y other) (y before)).
Proof.
  intros Hc Hdom [Fx Fy] Hs [Fpx Fpy]. simpl in Fpx, Fpy.
  pose proof (proj1 Hdom) as Hcv. rewrite Hc in Hcv.
  destruct Hcv as (_ & _ & Fl & Ft & _).
  cbv zeta.
  assert (Hq' : exists container,
             ref = Some container /\ querySelector_canvas container = Some canvas).
  { destruct ref as [container |]; [| discriminate]. now exists container. }
  destruct Hq' as (container & Eref & Hc').
  unfold V1.screenToWorld. rewrite Eref, Hc', <- Eref.
  unfold V1.handleWheel, V1_pan. rewrite Hc. cbv zeta.
  destruct (V1_wheel_newScale e s Hs) as (q & -> & Hq & Eq).
  destruct (scale_ok_inv _ Hs) as [Es Hsc].
  apply finite_inv in Fx, Fy, Fl, Ft, Fpx, Fpy.
  simpl. split; [split; [exact I | exact Hq] |].
  split; [exact Eq |]. split; [now destruct (V1.clampPan _ _ _ _ _) |]. clear Eq.
  rewrite Fpx, Fpy, Es, Fx, Fy, Fl, Ft. simpl.
  clear Fx Fy Fl Ft Es Fpx Fpy Hs.
  generalize dependent (toQ (V1.scale s)). intros sc Hsc.
  generalize (toQ (clientX e)) (toQ (clientY e)) (toQ (V1.panX s))
             (toQ (V1.panY s)) (toQ (rect_left (getBoundingClientRect canvas)))
             (toQ (rect_top (getBoundingClientRect canvas))).
  intros cx cy panx pany l t. js_arith.
  match goal with
  | |- context [ V1.clampPan _ _ (Fin ?a) (Fin ?b) _ ] =>
      set (R := V1.clampPan ref s (Fin a) (Fin b) (Fin q)) in *;
      destruct (V1_clampPan_spec ref s a b q Hdom Hq) as [Fr Hr];
      fold R in Fr, Hr;
      pose proof (clampSpec_pan_ok _ _ q R a b Fr Hr) as Hok;
      pose proof (fun p => clampSpec_nearest _ _ q R p a b Hr) as Hnear
  end.
  rewrite Hc in Hok, Hnear. clear Hr.
  clearbody R. destruct R as [rx ry], Fr as [Frx Fry]. simpl in Frx, Fry.
  fin_intro. cbn [x y toQ] in *. js_arith. split; [exact Hok |]. split.
  - unfold same_point. cbn [same x y]. intros [Ex Ey].
    split; [rewrite Ex | rewrite Ey]; field; lra.
  - intros p Hp'. destruct (Hnear p Hp') as [Nx Ny].
    destruct Hp' as (Fpx & Fpy & _).
    rewrite (finite_inv _ Fpx), (finite_inv _ Fpy) in *. js_arith.
    unfold axis_dev. cbn [x y toQ] in *.
    split; (eapply dev_shift; [| | eassumption]); field; lra.
Qed.

(** C2 -- zoom anchor invariance of [handleWheel], in both variants.  With
    the canvas mounted, a wheel event at an anchor point commits, in one
    state update, the scale [clamp (scale * factor) 1 4] (factor 1.1 or
    1 / 1.1) and the pan [clampPan (worldAnchor - anchorLocalOffset /
    newScale)].  The committed pan satisfies the clamp bounds; when the clamp
    leaves the requested pan as it is, [screenToWorld] of the anchor is the
    same world point after as before; and in every case the committed pan
    moves that world point no further, on either axis, than any other pan
    within the clamp bounds would.  Without a canvas the event changes
    nothing. *)
Theorem zoom_anchor_invariance
        (containerRef : option Container) (e : MouseEvent)
        (s1 : V1.State) (s2 : V2.State) :
  finite_dom containerRef (V1.backgroundImage s1) ->
  finite_dom containerRef (V2.bgImage s2) ->
  finite_mouse e ->
  scale_ok (V1.scale s1) -> finite_point (V1_pan s1) ->
  scale_ok (V2.scale s2) -> finite_point (V2.pan s2) ->
  (find_canvas containerRef = None ->
   V1.handleWheel containerRef e s1 = s1 /\ V2.handleWheel containerRef e s2 = s2) /\
  (forall canvas, find_canvas containerRef = Some canvas ->
     let rect := getBoundingClientRect canvas in
     let localX := (clientX e - rect_left rect)%js in
     let localY := (clientY e - rect_top rect)%js in
     (let s' := V1.handleWheel containerRef e s1 in
      let before := V1.screenToWorld containerRef s1 (clientX e) (clientY e) in
      let after := V1.screenToWorld containerRef s' (clientX e) (clientY e) in
      let requested := mkPoint (x before - localX / V1.scale s')%js
                               (y before - localY / V1.scale s')%js in
      scale_ok (V1.scale s') /\
      toQ (V1.scale s') == clamp 1 4 (toQ (V1.scale s1) * wheelFactor e) /\
      V1_pan s' = V1.clampPan containerRef s1 (x requested) (y requested) (V1.scale s') /\
      pan_ok (Some canvas) (V1.backgroundImage s1) (V1.scale s') (V1_pan s') /\
      (same_point (V1_pan s') requested -> same_point after before) /\
      (forall p : Point,
          pan_ok (Some canvas) (V1.backgroundImage s1) (V1.scale s') p ->
          let other := V1.screenToWorld containerRef
                         (V1.setPanY (y p) (V1.setPanX (x p) s'))
                         (clientX e) (clientY e) in
          axis_dev (x after) (x before) <= axis_dev (x other) (x before) /\
          axis_dev (y after) (y before) <= axis_dev (y other) (y before))) /\
     (let s' := V2.handleWheel containerRef e s2 in
      let before := V2.screenToWorld containerRef s2 (clientX e) (clientY e) in
      let after := V2.screenToWorld containerRef s' (clientX e) (clientY e) in
      let requested := mkPoint (x before - localX / V2.scale s')%js
                               (y before - localY / V2.scale s')%js in
      scale_ok (V2.scale s') /\
      toQ (V2.scale s') == clamp 1 4 (toQ (V2.scale s2) * wheelFactor e) /\
      V2.pan s' = V2.clampPan containerRef s2 (x requested) (y requested) (V2.scale s') /\
      pan_ok (Some canvas) (V2.bgImage s2) (V2.scale s') (V2.pan s') /\
      (same_point (V2.pan s') requested -> same_point after before) /\
      (forall p : Point,
          pan_ok (Some canvas) (V2.bgImage s2) (V2.scale s') p ->
          let other := V2.screenToWorld containerRef (V2.setPan (fun _ => p) s')
                                        (clientX e) (clientY e) in
          axis_dev (x after) (x before) <= axis_dev (x other) (x before) /\
          axis_dev (y after) (y before) <= axis_dev (y other) (y before)))).
Proof.
  intros Hd1 Hd2 He Hs1 Hp1 Hs2 Hp2. split.
  - intro Hc. unfold V1.handleWheel, V2.handleWheel. rewrite Hc. now split.
  - intros canvas Hc rect localX localY. split.
    + now apply V1_handleWheel_anchor.
    + now apply V2_handleWheel_anchor.
Qed.

Lemma zoom_anchor_invariance_witness :
  let ref := mounted_400x300 in
  let e := wheel_up_100_50 in
  let s2 := v2_with (Some bg_800x600) 2 30 40 in
  let s' := V2.handleWheel ref e s2 in
  let before := V2.screenToWorld ref s2 (clientX e) (clientY e) in
  let after := V2.screenToWorld ref s' (clientX e) (clientY e) in
  let requested := mkPoint (x before - (clientX e - 0) / V2.scale s')%js
                           (y before - (clientY e - 0) / V2.scale s')%js in
  toQ (V2.scale s') == clamp 1 4 (2 * (11 # 10)) /\
  V2.pan s' = V2.clampPan ref s2 (x requested) (y requested) (V2.scale s') /\
  (same_point (V2.pan s') requested -> same_point after before).
Proof.
  intros ref e s2.
  assert (Hdom1 : finite_dom ref (V1.backgroundImage (v1_with (Some bg_800x600) 2 30 40)))
    by (vm_compute; tauto).
  assert (Hdom2 : finite_dom ref (V2.bgImage s2)) by (vm_compute; tauto).
  assert (He : finite_mouse e) by (split; exact I).
  assert (Hs : scale_ok (Fin 2)) by (split; [exact I | split; vm_compute; discriminate]).
  assert (Hp : finite_point (mkPoint 30 40)) by (split; exact I).
  pose proof (proj2 (zoom_anchor_invariance ref e
                       (v1_with (Some bg_800x600) 2 30 40) s2
                       Hdom1 Hdom2 He Hs Hp Hs Hp) canvas_400x300 eq_refl) as H.
  destruct H as [_ (_ & H2 & H3 & _ & H5 & _)].
  split; [exact H2 | split; [exact H3 | exact H5]].
Defined.

Example wheel_keeps_anchor :
  let ref := mounted_400x300 in
  let s2 := v2_with (Some bg_800x600) 2 30 40 in
  let s' := V2.handleWheel ref wheel_up_100_50 s2 in
  same_point (V2.screenToWorld ref s' 100 50) (mkPoint 80 65) /\
  same_point (V2.screenToWorld ref s2 100 50) (mkPoint 80 65) /\
  same (V2.scale s') (Fin (22 # 10)).
Proof. vm_compute. tauto. Qed.

(* ------------------------------------------------------------------------- *)
(** ** Undo                                                                   *)
(* ------------------------------------------------------------------------- *)

Lemma slice_drops_last {A : Type} (l : list A) : slice l 0 (-1) = removelast l.
Proof.
  unfold slice, rel_index. simpl.
  rewrite Nat.sub_0_r.
  replace (Z.to_nat (Z.max (Z.of_nat (List.length l) + -1) 0))
    with (pred (List.length l)) by lia.
  symmetry. apply removelast_firstn_len.
Qed.

Lemma toLowerCase_z (k : string) :
  k = "z"%string \/ k = "Z"%string -> String.eqb (toLowerCase k) "z" = true.
Proof. intros [-> | ->]; reflexivity. Qed.

Lemma V1_undo_keys k s :
  key k = "Backspace"%string \/
  ((key_ctrlKey k = true \/ key_metaKey k = true) /\
   (key k = "z"%string \/ key k = "Z"%string)) ->
  V1.handleKeyDown k s = V1.setDrawActions (fun prev => slice prev 0 (-1)) s.
Proof.
  intros [H | [Hm Hz]]; unfold V1.handleKeyDown.
  - now rewrite H.
  - destruct (String.eqb (key k) "Backspace"); [reflexivity |].
    rewrite (toLowerCase_z _ Hz).
    destruct Hm as [-> | ->]; [reflexivity | now rewrite orb_true_r].
Qed.

Lemma V2_undo_keys k s :
  key k = "Backspace"%string \/
  ((key_ctrlKey k = true \/ key_metaKey k = true) /\
   (key k = "z"%string \/ key k = "Z"%string)) ->
  V2.undoHandler k s = V2.setActions (fun prev => slice prev 0 (-1)) s.
Proof.
  intros [H | [Hm Hz]]; unfold V2.undoHandler.
  - now rewrite H.
  - destruct (String.eqb (key k) "Backspace"); [reflexivity |].
    rewrite (toLowerCase_z _ Hz).
    destruct Hm as [-> | ->]; [reflexivity | now rewrite orb_true_r].
Qed.

(** C7 -- undo.  Backspace, and Z with Ctrl or Cmd held, run one and the
    same update in both variants: the action list loses exactly its last
    element (for every list: after appending A, B, C the list ends ..., A, B)
    and nothing else in the state changes. *)
Theorem undo_removes_last
        (k : KeyboardEvent) (s1 : V1.State) (s2 : V2.State) :
  key k = "Backspace"%string \/
  ((key_ctrlKey k = true \/ key_metaKey k = true) /\
   (key k = "z"%string \/ key k = "Z"%string)) ->
  V1.handleKeyDown k s1 = V1.setDrawActions (@removelast DrawAction) s1 /\
  V2.undoHandler k s2 = V2.setActions (@removelast DrawAction) s2 /\
  (forall (l : list DrawAction) (A B C : DrawAction),
      V1.drawActions s1 = l ++ [A; B; C] ->
      V1.drawActions (V1.handleKeyDown k s1) = l ++ [A; B]) /\
  (forall (l : list DrawAction) (A B C : DrawAction),
      V2.actions s2 = l ++ [A; B; C] ->
      V2.actions (V2.undoHandler k s2) = l ++ [A; B]).
Proof.
  intro Hk.
  rewrite (V1_undo_keys k s1 Hk), (V2_undo_keys k s2 Hk).
  unfold V1.setDrawActions, V2.setActions. rewrite !slice_drops_last.
  repeat split; simpl; intros l A B C ->;
    change (l ++ [A; B; C]) with (l ++ [A; B] ++ [C]);
    rewrite app_assoc; apply removelast_last.
Qed.

Lemma undo_removes_last_witness :
  V1.drawActions (V1.handleKeyDown key_ctrl_z
                    (v1_drawing [action_A; action_B; action_C]))
  = [action_A; action_B] /\
  V2.actions (V2.undoHandler key_ctrl_z
                (v2_drawing [action_A; action_B; action_C]))
  = [action_A; action_B].
Proof.
  assert (Hk : key key_ctrl_z = "Backspace"%string \/
               ((key_ctrlKey key_ctrl_z = true \/ key_metaKey key_ctrl_z = true) /\
                (key key_ctrl_z = "z"%string \/ key key_ctrl_z = "Z"%string)))
    by (right; split; left; reflexivity).
  destruct (undo_removes_last key_ctrl_z
              (v1_drawing [action_A; action_B; action_C])
              (v2_drawing [action_A; action_B; action_C]) Hk)
    as (_ & _ & H1 & H2).
  split.
  - exact (H1 [] action_A action_B action_C eq_refl).
  - exact (H2 [] action_A action_B action_C eq_refl).
Defined.

Example undo_by_each_key :
  V1.drawActions (V1.handleKeyDown key_backspace
                    (v1_drawing [action_A; action_B; action_C]))
  = [action_A; action_B] /\
  V2.actions (V2.undoHandler key_cmd_shift_z
                (v2_drawing [action_A; action_B; action_C]))
  = [action_A; action_B] /\
  V2.actions (V2.undoHandler key_backspace (v2_drawing [])) = [].
Proof. repeat split; reflexivity. Qed.

(* ------------------------------------------------------------------------- *)
(** ** Expiry sweep                                                           *)
(* ------------------------------------------------------------------------- *)

Lemma keepAction_agree now a : V1.keepAction now a = V2.keepAction now a.
Proof.
  unfold V1.keepAction, V2.keepAction.
  destruct (negb (truthy_opt (Act.expireAt a)) || strict_eq_opt (Act.expireAt a) Infinity);
    reflexivity.
Qed.

Lemma keepAction_absent now a :
  Act.expireAt a = None -> V2.keepAction now a = true.
Proof. intro H. unfold V2.keepAction. now rewrite H. Qed.

Lemma keepAction_permanent now a :
  Act.expireAt a = Some Infinity -> V2.keepAction now a = true.
Proof. intro H. unfold V2.keepAction. now rewrite H. Qed.

Lemma keepAction_zero now a (t : Q) :
  Act.expireAt a = Some (Fin t) -> t == 0 -> V2.keepAction now a = true.
Proof.
  intros H E. unfold V2.keepAction. rewrite H. simpl.
  now rewrite (Qeq_eq_bool _ _ E).
Qed.

Lemma keepAction_timed (now : Q) a (t : Q) :
  Act.expireAt a = Some (Fin t) -> ~ t == 0 ->
  V2.keepAction now a = (Fin now <? Fin t)%js.
Proof.
  intros H E. unfold V2.keepAction. rewrite H. simpl.
  destruct (Qeq_bool t 0) eqn:Eb; [apply Qeq_bool_eq in Eb; contradiction |].
  reflexivity.
Qed.

Lemma V1_ticks_keep (a : DrawAction) (ticks : list number) : forall s,
  (forall now, V1.keepAction now a = true) ->
  In a (V1.drawActions s) ->
  In a (V1.drawActions (fold_left (fun s now => V1.fadeTick now s) ticks s)).
Proof.
  induction ticks as [| now ticks IH]; intros s Hk Hin; [exact Hin |].
  simpl. apply IH; [exact Hk |].
  unfold V1.fadeTick. simpl. apply filter_In. split; [exact Hin | apply Hk].
Qed.

Lemma V2_ticks_keep (a : DrawAction) (ticks : list number) : forall s,
  (forall now, V2.keepAction now a = true) ->
  In a (V2.actions s) ->
  In a (V2.actions (fold_left (fun s now => V2.fadeTick now s) ticks s)).
Proof.
  induction ticks as [| now ticks IH]; intros s Hk Hin; [exact Hin |].
  simpl. apply IH; [exact Hk |].
  unfold V2.fadeTick. simpl. apply filter_In. split; [exact Hin | apply Hk].
Qed.

(** C10 -- an action without [expireAt].  In both variants the filter of the
    sweeper keeps an action whose [expireAt] is absent, whatever the time of
    the tick, exactly as it keeps one whose [expireAt] is [Infinity]; so such
    an action is still in the list after any number of ticks. *)
Theorem absent_expiry_never_expires
        (a : DrawAction) (s1 : V1.State) (s2 : V2.State) :
  Act.expireAt a = None ->
  (forall now : number, V1.keepAction now a = true /\ V2.keepAction now a = true) /\
  (forall (now : number) (p : DrawAction),
      Act.expireAt p = Some Infinity ->
      V1.keepAction now p = V1.keepAction now a /\
      V2.keepAction now p = V2.keepAction now a) /\
  (forall ticks : list number,
      In a (V1.drawActions s1) ->
      In a (V1.drawActions (fold_left (fun s now => V1.fadeTick now s) ticks s1))) /\
  (forall ticks : list number,
      In a (V2.actions s2) ->
      In a (V2.actions (fold_left (fun s now => V2.fadeTick now s) ticks s2))).
Proof.
  intro H.
  assert (K : forall now, V1.keepAction now a = true /\ V2.keepAction now a = true).
  { intro now. rewrite keepAction_agree. split; now apply keepAction_absent. }
  split; [exact K |]. split; [| split].
  - intros now p Hp. destruct (K now) as [-> ->].
    rewrite keepAction_agree. split; now apply keepAction_permanent.
  - intros ticks Hin. apply V1_ticks_keep; [intro now; apply K | exact Hin].
  - intros ticks Hin. apply V2_ticks_keep; [intro now; apply K | exact Hin].
Qed.

Lemma absent_expiry_never_expires_witness :
  In action_C
     (V2.actions (fold_left (fun s now => V2.fadeTick now s)
                            [Fin 2000; Fin 4000; Infinity; NaN]
                            (v2_drawing [action_A; action_B; action_C]))).
Proof.
  apply (proj2 (proj2 (proj2 (absent_expiry_never_expires action_C
                                (v1_drawing [action_A; action_B; action_C])
                                (v2_drawing [action_A; action_B; action_C])
                                eq_refl)))).
  simpl. tauto.
Defined.

(** The test for an absent [expireAt] is a test for a falsy one, so it also
    lets the number 0 through.  No handler writes 0: what they write is
    [Infinity] or lies after a clock that is not negative. *)
Example falsy_expireAt_zero_is_kept :
  V1.keepAction 1 action_expiring_at_0 = true /\
  V2.keepAction 1 action_expiring_at_0 = true /\
  ~ sweep_rule_as_stated V1.keepAction 1 action_expiring_at_0 /\
  ~ sweep_rule_as_stated V2.keepAction 1 action_expiring_at_0.
Proof.
  split; [reflexivity |]. split; [reflexivity |].
  split; intros [H _]; destruct (H eq_refl) as [E | E]; discriminate E.
Qed.

Lemma V1_fadeTick_In now a s :
  In a (V1.drawActions (V1.fadeTick now s)) <->
  In a (V1.drawActions s) /\ V1.keepAction now a = true.
Proof. unfold V1.fadeTick. simpl. apply filter_In. Qed.

Lemma V2_fadeTick_In now a s :
  In a (V2.actions (V2.fadeTick now s)) <->
  In a (V2.actions s) /\ V2.keepAction now a = true.
Proof. unfold V2.fadeTick. simpl. apply filter_In. Qed.

Lemma keepAction_timed_iff (now t : Q) a :
  Act.expireAt a = Some (Fin t) -> ~ t == 0 ->
  (V2.keepAction now a = true <-> now < t) /\
  (V2.keepAction now a = false <-> t <= now).
Proof.
  intros H E. rewrite (keepAction_timed now a t H E).
  split; [apply lt_Fin_true | apply lt_Fin_false].
Qed.

Lemma V1_mouseUp_10s ref (T : Q) e s :
  V1.isPanning s = false -> V1.isDrawing s = true ->
  V1.activeTool s <> pen -> V1.fadeSetting s = "10s"%string ->
  exists a, V1.drawActions (V1.handleMouseUp ref T e s) = V1.drawActions s ++ [a] /\
            Act.expireAt a = Some (Fin (T + 10000)).
Proof.
  intros Hp Hd Ht Hf. unfold V1.handleMouseUp. rewrite Hp, Hd. simpl.
  assert (Htool : ToolType_eqb (V1.activeTool s) arrow
                  || ToolType_eqb (V1.activeTool s) circle
                  || ToolType_eqb (V1.activeTool s) emoji = true)
    by (destruct (V1.activeTool s); try reflexivity; congruence).
  rewrite Htool. simpl. eexists. split; [reflexivity |].
  simpl. unfold V1.newExpireAt. now rewrite Hf.
Qed.

Lemma V2_mouseUp_10s ref (T : Q) e s :
  V2.isPanning s = false -> V2.isDrawing s = true ->
  V2.fadeSetting s = "10s"%string ->
  exists a, V2.actions (V2.handleMouseUp ref T e s) = V2.actions s ++ [a] /\
            Act.expireAt a = Some (Fin (T + 10000)).
Proof.
  intros Hp Hd Hf. unfold V2.handleMouseUp. rewrite Hp, Hd. simpl.
  eexists. split; [reflexivity |]. simpl. now rewrite Hf.
Qed.

(** A 10-second action created at T = 1000: one sweep at T + 9999 keeps it,
    sweeps at T + 10000 (the boundary) and T + 10001 drop it. *)
Example sweep_around_the_deadline :
  let s' := V2.handleMouseUp mounted_400x300 (Fin 1000) (mouse_at 10 10)
                             (v2_drawing []) in
  List.length (V2.actions s') = 1%nat /\
  List.length (V2.actions (V2.fadeTick (Fin 10999) s')) = 1%nat /\
  List.length (V2.actions (V2.fadeTick (Fin 11000) s')) = 0%nat /\
  List.length (V2.actions (V2.fadeTick (Fin 11001) s')) = 0%nat.
Proof. vm_compute. tauto. Qed.

(* ------------------------------------------------------------------------- *)
(** ** Arrows                                                                 *)
(* ------------------------------------------------------------------------- *)

Section Arrows.
Context {M : MathLib}.

(** Variant 1 guards the degenerate case: when the distance it computes is
    below the pullback distance [1.5 * lineWidth], only the head is drawn --
    a closed, filled triangle with its apex at [end] -- and nothing is
    stroked. *)
Lemma V1_drawArrow_skips_shaft (ctx : Context2D) (action : DrawAction) :
  let x1 := x (Act.start action) in
  let y1 := y (Act.start action) in
  let x2 := x (Act.end_ action) in
  let y2 := y (Act.end_ action) in
  let lw := Act.lineWidth action in
  let angle := Math_atan2 (y2 - y1)%js (x2 - x1)%js in
  let dist := Math_sqrt ((x2 - x1) * (x2 - x1) + (y2 - y1) * (y2 - y1))%js in
  (dist <? lw * Fin (3 # 2))%js = true ->
  calls (V1.drawArrow ctx action) =
  calls ctx ++
  [ beginPath;
    moveTo x2 y2;
    lineTo (x2 - lw * 3 * Math_cos (angle - Math_PI / 6))%js
           (y2 - lw * 3 * Math_sin (angle - Math_PI / 6))%js;
    lineTo (x2 - lw * 3 * Math_cos (angle + Math_PI / 6))%js
           (y2 - lw * 3 * Math_sin (angle + Math_PI / 6))%js;
    closePath;
    fill (strokeStyle ctx) ].
Proof.
  intros x1 y1 x2 y2 lw angle dist H. subst x1 y1 x2 y2 lw angle dist.
  destruct ctx as [ss fs w f t cs].
  cbv beta iota zeta delta
      [V1.drawArrow V1.drawArrowHead call ctx_fill set_fillStyle
       calls strokeStyle fillStyle ctx_lineWidth font transform].
  rewrite H.
  cbv beta iota zeta delta
      [call ctx_fill set_fillStyle
       calls strokeStyle fillStyle ctx_lineWidth font transform].
  now rewrite <- !app_assoc.
Qed.

(** Start and end coinciding is such a case, for any positive line width,
    as soon as [Math.sqrt] sends zero to zero. *)
Lemma V1_drawArrow_coincident (ctx : Context2D) (action : DrawAction) (px py lw : Q) :
  (forall q, q == 0 -> Math_sqrt (Fin q) = Fin 0) ->
  Act.start action = mkPoint px py -> Act.end_ action = mkPoint px py ->
  Act.lineWidth action = Fin lw -> 0 < lw ->
  exists tip1 tip2,
    calls (V1.drawArrow ctx action) =
    calls ctx ++ [ beginPath; moveTo px py; tip1; tip2; closePath;
                   fill (strokeStyle ctx) ].
Proof.
  intros Hsqrt Es Ee Elw Hlw.
  pose proof (V1_drawArrow_skips_shaft ctx action) as H. cbv zeta in H.
  rewrite Es, Ee, Elw in H. simpl in H. js_arith.
  rewrite Hsqrt in H by ring.
  do 2 eexists. apply H. apply lt_Fin_true. lra.
Qed.

(** Variant 2 has no such guard: every arrow, whatever its length, gets a
    shaft from [start] to the point [3 * lineWidth] short of [end], stroked
    before the head is filled. *)
Lemma V2_drawArrow_calls (ctx : Context2D) (action : DrawAction) :
  let x1 := x (Act.start action) in
  let y1 := y (Act.start action) in
  let x2 := x (Act.end_ action) in
  let y2 := y (Act.end_ action) in
  let lw := Act.lineWidth action in
  let angle := Math_atan2 (y2 - y1)%js (x2 - x1)%js in
  calls (V2.drawArrow ctx action) =
  calls ctx ++
  [ beginPath;
    moveTo x1 y1;
    lineTo (x2 - lw * 3 * Math_cos angle)%js (y2 - lw * 3 * Math_sin angle)%js;
    stroke (strokeStyle ctx) (ctx_lineWidth ctx);
    beginPath;
    moveTo x2 y2;
    lineTo (x2 - lw * 3 * Math_cos (angle - Fin (1 # 2)))%js
           (y2 - lw * 3 * Math_sin (angle - Fin (1 # 2)))%js;
    lineTo (x2 - lw * 3 * Math_cos (angle + Fin (1 # 2)))%js
           (y2 - lw * 3 * Math_sin (angle + Fin (1 # 2)))%js;
    closePath;
    fill (strokeStyle ctx) ].
Proof.
  intros x1 y1 x2 y2 lw angle. subst x1 y1 x2 y2 lw angle.
  destruct ctx as [ss fs w f t cs].
  cbv beta iota zeta delta
      [V2.drawArrow call ctx_stroke ctx_fill set_fillStyle
       calls strokeStyle fillStyle ctx_lineWidth font transform].
  now rewrite <- !app_assoc.
Qed.

(** C8 -- the degenerate arrow, on the paint of variant 2.  Painting an
    arrow whose start and end coincide at (100, 100), of width 10, strokes a
    shaft from (100, 100) to a point 30 away along the angle of
    [atan2 (0, 0)] before it fills the head: the shaft is not skipped.  The
    same holds of every arrow: the first four calls of [drawArrow] are the
    shaft's path and its stroke. *)
Theorem drawArrow_v2_strokes_degenerate_shaft :
  (exists head,
      calls (V2.paintAction freshContext degenerate_arrow) =
      [ beginPath;
        moveTo 100 100;
        lineTo (100 - 10 * 3 * Math_cos (Math_atan2 (100 - 100) (100 - 100)))%js
               (100 - 10 * 3 * Math_sin (Math_atan2 (100 - 100) (100 - 100)))%js;
        stroke "#ef4444" 10 ] ++ head) /\
  (forall ctx action,
      exists head,
        calls (V2.drawArrow ctx action) =
        calls ctx ++
        [ beginPath;
          moveTo (x (Act.start action)) (y (Act.start action));
          lineTo (x (Act.end_ action)
                  - Act.lineWidth action * 3
                    * Math_cos (Math_atan2 (y (Act.end_ action) - y (Act.start action))
                                           (x (Act.end_ action) - x (Act.start action))))%js
                 (y (Act.end_ action)
                  - Act.lineWidth action * 3
                    * Math_sin (Math_atan2 (y (Act.end_ action) - y (Act.start action))
                                           (x (Act.end_ action) - x (Act.start action))))%js;
          stroke (strokeStyle ctx) (ctx_lineWidth ctx) ] ++ head).
Proof.
  split.
  - unfold V2.paintAction. simpl Act.tool. cbv iota.
    rewrite V2_drawArrow_calls. simpl. eexists. reflexivity.
  - intros ctx action. rewrite V2_drawArrow_calls. cbv zeta.
    eexists. cbn [app]. reflexivity.
Qed.

End Arrows.

(* ------------------------------------------------------------------------- *)
(** ** Gestures                                                               *)
(* ------------------------------------------------------------------------- *)

(** *** Variant 1 *)







(** *** Variant 2 *)











(** The scenario of section 8: Ctrl-drag from (500, 400) to (200, 200), a
    screen delta of (-300, -200), requests the pan (300, 200), which the
    clamp accepts as it is; no action is recorded. *)
Example pan_scenario :
  let ref := mounted_1000x800 in
  let gesture1 := [R1.MouseDown (ctrl_down_at 500 400);
                   R1.MouseMove 0 (mouse_at 200 200); R1.MouseUp 0 (mouse_at 200 200)] in
  let gesture2 := [R2.MouseDown (ctrl_down_at 500 400);
                   R2.MouseMove 0 (mouse_at 200 200); R2.MouseUp 0 (mouse_at 200 200)] in
  let s1 := R1.run ref gesture1 (v1_with (Some bg_2000x1600) 1 0 0) in
  let s2 := R2.run ref gesture2 (v2_with (Some bg_2000x1600) 1 0 0) in
  same_point (V1_pan s1) (mkPoint 300 200) /\ V1.drawActions s1 = [] /\
  same_point (V2.pan s2) (mkPoint 300 200) /\ V2.actions s2 = [].
Proof. vm_compute. tauto. Qed.

(** A drawing gesture with the arrow tool records one action at the up, in
    world coordinates, and leaves the viewport alone. *)
Example draw_scenario :
  let ref := mounted_400x300 in
  let gesture := [R2.MouseDown (mouse_at 100 50);
                  R2.MouseMove 0 (mouse_at 120 60); R2.MouseUp 0 (mouse_at 140 70)] in
  let s := R2.run ref gesture (v2_with (Some bg_800x600) 2 30 40) in
  List.length (V2.actions s) = 1%nat /\
  V2.scale s = Fin 2 /\ V2.pan s = mkPoint 30 40 /\
  V2.isDrawing s = false /\ V2.isPanning s = false.
Proof. vm_compute. tauto. Qed.


(* ------------------------------------------------------------------------- *)
(** * Further properties                                                      *)
(* ------------------------------------------------------------------------- *)

(** ** Fade durations *)

Lemma fadeToMs_cases (v : string) :
  (v = "10s"%string /\ V2.fadeToMs v = Fin 10000) \/
  (v = "30s"%string /\ V2.fadeToMs v = Fin 30000) \/
  (v = "1m"%string /\ V2.fadeToMs v = Fin 60000) \/
  (v = "5m"%string /\ V2.fadeToMs v = Fin 300000) \/
  (v = "10m"%string /\ V2.fadeToMs v = Fin 600000) \/
  ((forall o, In o V2.FADE_OPTIONS -> V2.ms o <> Infinity -> V2.value o <> v) /\
   V2.fadeToMs v = Infinity).
Proof.
  unfold V2.fadeToMs, V2.FADE_OPTIONS. cbn [find V2.value V2.ms].
  destruct (String.eqb_spec "10s" v) as [<- | N1]; [now left |].
  destruct (String.eqb_spec "30s" v) as [<- | N2]; [now right; left |].
  destruct (String.eqb_spec "1m" v) as [<- | N3]; [now right; right; left |].
  destruct (String.eqb_spec "5m" v) as [<- | N4]; [now right; right; right; left |].
  destruct (String.eqb_spec "10m" v) as [<- | N5];
    [now right; right; right; right; left |].
  do 5 right. split.
  - intros o [<- | [<- | [<- | [<- | [<- | [<- | []]]]]]] Hms; simpl in *;
      congruence.
  - destruct (String.eqb "permanent" v); reflexivity.
Qed.

Lemma timed_option (label value : string) (q : Q) (v : string) :
  In (V2.mkFade label value (Fin q)) V2.FADE_OPTIONS ->
  (forall o, In o V2.FADE_OPTIONS -> V2.ms o <> Infinity -> V2.value o <> v) ->
  value <> v.
Proof. intros Hin Hn. apply (Hn _ Hin). discriminate. Qed.

Lemma parseFadeTime_eq (v : string) : V1.parseFadeTime v = V2.fadeToMs v.
Proof.
  unfold V1.parseFadeTime.
  destruct (fadeToMs_cases v)
    as [[-> ->] | [[-> ->] | [[-> ->] | [[-> ->] | [[-> ->] | [Hn ->]]]]]];
    try reflexivity.
  destruct (String.eqb_spec v "10s") as [-> | _];
    [exfalso; apply (timed_option "10 s" "10s" 10000 "10s"); simpl; auto |].
  destruct (String.eqb_spec v "30s") as [-> | _];
    [exfalso; apply (timed_option "30 s" "30s" 30000 "30s"); simpl; auto |].
  destruct (String.eqb_spec v "1m") as [-> | _];
    [exfalso; apply (timed_option "1 min" "1m" 60000 "1m"); simpl; auto |].
  destruct (String.eqb_spec v "5m") as [-> | _];
    [exfalso; apply (timed_option "5 min" "5m" 300000 "5m"); simpl; auto 6 |].
  destruct (String.eqb_spec v "10m") as [-> | _];
    [exfalso; apply (timed_option "10 min" "10m" 600000 "10m"); simpl; auto 7 |].
  reflexivity.
Qed.

Lemma fadeToMs_positive (v : string) :
  truthy (V2.fadeToMs v) = true /\ (0 <? V2.fadeToMs v)%js = true /\
  V2.fadeToMs v <> NaN /\ V2.fadeToMs v <> NegInfinity.
Proof.
  destruct (fadeToMs_cases v)
    as [[_ ->] | [[_ ->] | [[_ ->] | [[_ ->] | [[_ ->] | [_ ->]]]]]];
    repeat split; try reflexivity; discriminate.
Qed.

(** X1 -- the two fade tables agree.  [parseFadeTime] (a switch) and
    [fadeToMs] (a lookup in [FADE_OPTIONS] with a default) return the same
    duration for every string; every option of the table is found under its
    own value; a string that names no timed option gives [Infinity]; and the
    duration is never zero, negative or [NaN]. *)
Theorem fade_durations_agree (v : string) :
  V1.parseFadeTime v = V2.fadeToMs v /\
  (forall o, In o V2.FADE_OPTIONS -> V2.fadeToMs (V2.value o) = V2.ms o) /\
  ((forall o, In o V2.FADE_OPTIONS -> V2.ms o <> Infinity -> V2.value o <> v) ->
   V2.fadeToMs v = Infinity) /\
  (truthy (V2.fadeToMs v) = true /\ (0 <? V2.fadeToMs v)%js = true).
Proof.
  split; [apply parseFadeTime_eq | split; [| split]].
  - intros o [<- | [<- | [<- | [<- | [<- | [<- | []]]]]]]; reflexivity.
  - intro Hn.
    destruct (fadeToMs_cases v)
      as [[-> E] | [[-> E] | [[-> E] | [[-> E] | [[-> E] | [_ E]]]]]];
      try exact E; exfalso.
    + apply (timed_option "10 s" "10s" 10000 "10s"); simpl; auto.
    + apply (timed_option "30 s" "30s" 30000 "30s"); simpl; auto.
    + apply (timed_option "1 min" "1m" 60000 "1m"); simpl; auto.
    + apply (timed_option "5 min" "5m" 300000 "5m"); simpl; auto 6.
    + apply (timed_option "10 min" "10m" 600000 "10m"); simpl; auto 7.
  - destruct (fadeToMs_positive v) as (H1 & H2 & _). now split.
Qed.

(** ** Expiry of recorded actions *)

Lemma newExpireAt_cases (now : Q) (f : number) :
  0 <= now -> truthy f = true -> (0 <? f)%js = true -> f <> NaN ->
  f <> NegInfinity ->
  (Fin now + f)%js = Infinity \/
  (exists t, (Fin now + f)%js = Fin t /\ now < t /\ 0 < t).
Proof.
  intros Hn Ht Hp H1 H2. destruct f as [| | q |]; try congruence.
  - right. exists (now + q). apply lt_Fin_true in Hp.
    split; [reflexivity | lra].
  - now left.
Qed.

Lemma truthy_obeys_rule (t : number) (a : DrawAction) (now' : number) :
  truthy t = true -> Act.expireAt a = Some t ->
  sweep_rule_as_stated V2.keepAction now' a.
Proof.
  intros Ht Ha. unfold sweep_rule_as_stated, V2.keepAction. rewrite Ha.
  cbn [truthy_opt strict_eq_opt lt_opt]. rewrite Ht. cbn [negb orb].
  split; intro H.
  - apply orb_prop in H. tauto.
  - destruct H as [-> | ->]; [reflexivity | apply orb_true_r].
Qed.

Lemma V1_newExpireAt_eq now s :
  V1.newExpireAt now s = (now + V2.fadeToMs (V1.fadeSetting s))%js \/
  (V2.fadeToMs (V1.fadeSetting s) = Infinity /\ V1.newExpireAt now s = Infinity).
Proof.
  unfold V1.newExpireAt. rewrite parseFadeTime_eq.
  destruct (V2.fadeToMs (V1.fadeSetting s)) as [| | q |]; cbn [strict_eq];
    try (left; reflexivity).
  right. now split.
Qed.

(** X2 -- recorded actions obey the sweep rule as section 4.6 states it.
    The [expireAt] that either recorder computes at a time [now >= 0] is
    [Infinity] or a number strictly after [now]: it is never falsy, so an
    action carrying it is kept by a sweep if and only if it is infinite or
    the sweep's time is strictly before it; the two variants compute the
    same value from the same fade setting. *)
Theorem recorded_expiry_obeys_rule (now : Q) (s1 : V1.State) (s2 : V2.State) :
  0 <= now ->
  let t1 := V1.newExpireAt now s1 in
  let t2 := V2_newExpireAt now s2 in
  (V1.fadeSetting s1 = V2.fadeSetting s2 -> t1 = t2) /\
  ((now <? t1)%js = true /\ (now <? t2)%js = true) /\
  (forall a now', Act.expireAt a = Some t1 ->
                  sweep_rule_as_stated V1.keepAction now' a) /\
  (forall a now', Act.expireAt a = Some t2 ->
                  sweep_rule_as_stated V2.keepAction now' a).
Proof.
  intros Hn t1 t2.
  assert (K1 : t1 = Infinity \/ exists t, t1 = Fin t /\ now < t /\ 0 < t).
  { subst t1. destruct (fadeToMs_positive (V1.fadeSetting s1)) as (P1 & P2 & P3 & P4).
    destruct (V1_newExpireAt_eq now s1) as [-> | [_ ->]]; [| now left].
    now apply newExpireAt_cases. }
  assert (K2 : t2 = Infinity \/ exists t, t2 = Fin t /\ now < t /\ 0 < t).
  { subst t2. unfold V2_newExpireAt.
    destruct (fadeToMs_positive (V2.fadeSetting s2)) as (P1 & P2 & P3 & P4).
    now apply newExpireAt_cases. }
  assert (T : forall t, (t = Infinity \/ exists q, t = Fin q /\ now < q /\ 0 < q) ->
                        truthy t = true /\ (Fin now <? t)%js = true).
  { intros t [-> | (q & -> & Hq & H0)]; [now split |].
    split; [| now apply lt_Fin_true].
    cbn [truthy]. destruct (Qeq_bool q 0) eqn:E; [| reflexivity].
    apply Qeq_bool_eq in E. lra. }
  destruct (T t1 K1) as [Tr1 L1]. destruct (T t2 K2) as [Tr2 L2].
  split; [| split; [now split | split]].
  - intro E. subst t1 t2. unfold V2_newExpireAt. rewrite <- E.
    destruct (V1_newExpireAt_eq now s1) as [-> | [-> ->]]; reflexivity.
  - intros a now' Ha. unfold sweep_rule_as_stated. rewrite keepAction_agree.
    now apply (truthy_obeys_rule t1).
  - intros a now' Ha. now apply (truthy_obeys_rule t2).
Qed.

Lemma recorded_expiry_obeys_rule_witness :
  0 <= 1000 /\
  (Fin 1000 <? V1.newExpireAt (Fin 1000) v1_fading_5m)%js = true /\
  sweep_rule_as_stated V2.keepAction (Fin 400000)
    (arrow_action (mkPoint 0 0) (mkPoint 1 1) 10
                  (Some (V2_newExpireAt (Fin 1000) v2_fading_5m))).
Proof.
  assert (H : 0 <= 1000) by (vm_compute; discriminate).
  destruct (recorded_expiry_obeys_rule 1000 v1_fading_5m v2_fading_5m H)
    as (_ & [L1 _] & _ & R2).
  split; [exact H | split; [exact L1 |]].
  apply R2. reflexivity.
Defined.

(** ** The sweep, on the actions the handlers record *)

(** What a recorder writes at a time [now >= 0]: [Infinity], or a number
    strictly after [now]. *)
Lemma V2_newExpireAt_shape (now : Q) (s : V2.State) :
  0 <= now ->
  V2_newExpireAt now s = Infinity \/
  exists t, V2_newExpireAt now s = Fin t /\ now < t /\ 0 < t.
Proof.
  intro Hn. unfold V2_newExpireAt.
  destruct (fadeToMs_positive (V2.fadeSetting s)) as (P1 & P2 & P3 & P4).
  now apply newExpireAt_cases.
Qed.

Lemma V1_newExpireAt_shape (now : Q) (s : V1.State) :
  0 <= now ->
  V1.newExpireAt now s = Infinity \/
  exists t, V1.newExpireAt now s = Fin t /\ now < t /\ 0 < t.
Proof.
  intro Hn.
  destruct (fadeToMs_positive (V1.fadeSetting s)) as (P1 & P2 & P3 & P4).
  destruct (V1_newExpireAt_eq now s) as [-> | [_ ->]]; [| now left].
  now apply newExpireAt_cases.
Qed.

Lemma shape_truthy (now : Q) (t : number) :
  t = Infinity \/ (exists q, t = Fin q /\ now < q /\ 0 < q) -> truthy t = true.
Proof.
  intros [-> | (q & -> & _ & H0)]; [reflexivity |].
  cbn [truthy]. destruct (Qeq_bool q 0) eqn:E; [| reflexivity].
  apply Qeq_bool_eq in E. lra.
Qed.

(** C6 -- the expiry sweep, in both variants.  A tick of the 2000 ms
    interval filters the action list by [keepAction].  An action recorded
    by a handler carries the [expireAt] the handler computed from the clock
    (which is not negative) and the fade setting; such an action is kept by
    a sweep at [now] if and only if its [expireAt] is [Infinity] or
    [now < expireAt] (strict), and is dropped when [expireAt <= now].
    Hence an action created with the 10-second fade at time [T] is in the
    list after a sweep at [T + 9999] and is not after a sweep at
    [T + 10001]. *)
Theorem expiry_sweep
        (containerRef : option Container) (s1 : V1.State) (s2 : V2.State)
        (e : MouseEvent) (T : Q) :
  0 <= T ->
  V1.isPanning s1 = false -> V1.isDrawing s1 = true -> V1.activeTool s1 <> pen ->
  V1.fadeSetting s1 = "10s"%string ->
  V2.isPanning s2 = false -> V2.isDrawing s2 = true ->
  V2.fadeSetting s2 = "10s"%string ->
  (V1.fadeIntervalMs = 2000%Z /\ V2.fadeIntervalMs = 2000%Z) /\
  (forall now a s,
      In a (V1.drawActions (V1.fadeTick now s)) <->
      In a (V1.drawActions s) /\ V1.keepAction now a = true) /\
  (forall now a s,
      In a (V2.actions (V2.fadeTick now s)) <->
      In a (V2.actions s) /\ V2.keepAction now a = true) /\
  (forall (created : Q) (r1 : V1.State) (r2 : V2.State) (a : DrawAction),
      0 <= created ->
      Act.expireAt a = Some (V1.newExpireAt created r1) \/
      Act.expireAt a = Some (V2_newExpireAt created r2) ->
      (forall now : number,
          sweep_rule_as_stated V1.keepAction now a /\
          sweep_rule_as_stated V2.keepAction now a) /\
      (forall now t : Q,
          Act.expireAt a = Some (Fin t) -> t <= now ->
          V1.keepAction now a = false /\ V2.keepAction now a = false)) /\
  (exists a,
      let s' := V1.handleMouseUp containerRef T e s1 in
      V1.drawActions s' = V1.drawActions s1 ++ [a] /\
      Act.expireAt a = Some (V1.newExpireAt T s1) /\
      In a (V1.drawActions (V1.fadeTick (Fin (T + 9999)) s')) /\
      ~ In a (V1.drawActions (V1.fadeTick (Fin (T + 10001)) s'))) /\
  (exists a,
      let s' := V2.handleMouseUp containerRef T e s2 in
      V2.actions s' = V2.actions s2 ++ [a] /\
      Act.expireAt a = Some (V2_newExpireAt T s2) /\
      In a (V2.actions (V2.fadeTick (Fin (T + 9999)) s')) /\
      ~ In a (V2.actions (V2.fadeTick (Fin (T + 10001)) s'))).
Proof.
  intros HT Hp1 Hd1 Ht1 Hf1 Hp2 Hd2 Hf2.
  assert (HT0 : ~ T + 10000 == 0) by lra.
  split; [split; reflexivity |].
  split; [intros; apply V1_fadeTick_In |].
  split; [intros; apply V2_fadeTick_In |].
  split; [| split].
  - intros created r1 r2 a Hc Ha.
    assert (K : exists t, Act.expireAt a = Some t /\
                          (t = Infinity \/
                           exists q, t = Fin q /\ created < q /\ 0 < q)).
    { destruct Ha as [Ha | Ha]; eexists; (split; [exact Ha |]).
      - now apply V1_newExpireAt_shape.
      - now apply V2_newExpireAt_shape. }
    destruct K as (t & Ea & Ks).
    pose proof (shape_truthy created t Ks) as Tr.
    split.
    + intro now. split.
      * unfold sweep_rule_as_stated. rewrite keepAction_agree.
        now apply (truthy_obeys_rule t).
      * now apply (truthy_obeys_rule t).
    + intros now q Eq Hle. rewrite keepAction_agree.
      assert (Hq : ~ q == 0).
      { rewrite Eq in Ea. injection Ea as <-.
        destruct Ks as [Ki | (q' & Ei & _ & H0)]; [discriminate |].
        injection Ei as <-. lra. }
      destruct (keepAction_timed_iff now q a Eq Hq) as [_ K2].
      split; now apply K2.
  - destruct (V1_mouseUp_10s containerRef T e s1 Hp1 Hd1 Ht1 Hf1) as (a & Ea & Ha).
    exists a. cbv zeta. split; [exact Ea |].
    split.
    { rewrite Ha. unfold V1.newExpireAt. rewrite Hf1. reflexivity. }
    rewrite !V1_fadeTick_In, Ea, !keepAction_agree.
    destruct (keepAction_timed_iff (T + 9999) _ a Ha HT0) as [K1 _].
    destruct (keepAction_timed_iff (T + 10001) _ a Ha HT0) as [_ K2].
    split.
    + split; [apply in_or_app; right; now left | apply K1; lra].
    + intros [_ K]. rewrite keepAction_agree, (proj2 K2) in K; [discriminate | lra].
  - destruct (V2_mouseUp_10s containerRef T e s2 Hp2 Hd2 Hf2) as (a & Ea & Ha).
    exists a. cbv zeta. split; [exact Ea |].
    split.
    { rewrite Ha. unfold V2_newExpireAt. rewrite Hf2. reflexivity. }
    rewrite !V2_fadeTick_In, Ea.
    destruct (keepAction_timed_iff (T + 9999) _ a Ha HT0) as [K1 _].
    destruct (keepAction_timed_iff (T + 10001) _ a Ha HT0) as [_ K2].
    split.
    + split; [apply in_or_app; right; now left | apply K1; lra].
    + intros [_ K]. rewrite (proj2 K2) in K; [discriminate | lra].
Qed.

Lemma expiry_sweep_witness :
  0 <= 1000 /\
  (forall now : number,
      sweep_rule_as_stated V2.keepAction now
        (arrow_action (mkPoint 0 0) (mkPoint 1 1) 10
                      (Some (V2_newExpireAt (Fin 1000) v2_fading_5m)))) /\
  (exists a,
      let s' := V1.handleMouseUp mounted_400x300 (Fin 1000) (mouse_at 10 10)
                                 (v1_drawing []) in
      V1.drawActions s' = [] ++ [a] /\
      Act.expireAt a = Some (V1.newExpireAt (Fin 1000) (v1_drawing [])) /\
      In a (V1.drawActions (V1.fadeTick (Fin (1000 + 9999)) s')) /\
      ~ In a (V1.drawActions (V1.fadeTick (Fin (1000 + 10001)) s'))) /\
  (exists a,
      let s' := V2.handleMouseUp mounted_400x300 (Fin 1000) (mouse_at 10 10)
                                 (v2_drawing []) in
      V2.actions s' = [] ++ [a] /\
      Act.expireAt a = Some (V2_newExpireAt (Fin 1000) (v2_drawing [])) /\
      In a (V2.actions (V2.fadeTick (Fin (1000 + 9999)) s')) /\
      ~ In a (V2.actions (V2.fadeTick (Fin (1000 + 10001)) s'))).
Proof.
  assert (HT : 0 <= 1000) by (vm_compute; discriminate).
  assert (Hpen : V1.activeTool (v1_drawing []) <> pen) by discriminate.
  destruct (expiry_sweep mounted_400x300 (v1_drawing []) (v2_drawing [])
              (mouse_at 10 10) 1000 HT
              eq_refl eq_refl Hpen eq_refl eq_refl eq_refl eq_refl)
    as (_ & _ & _ & Rule & S1 & S2).
  split; [exact HT |].
  split; [| split; [exact S1 | exact S2]].
  intro now.
  exact (proj2 (proj1 (Rule 1000 v1_fading_5m v2_fading_5m
                         (arrow_action (mkPoint 0 0) (mkPoint 1 1) 10
                            (Some (V2_newExpireAt (Fin 1000) v2_fading_5m)))
                         HT (or_intror eq_refl)) now)).
Defined.

(** ** Sweeps compose *)

Lemma keepAction_earlier (now1 now2 : Q) (a : DrawAction) :
  now1 <= now2 -> V2.keepAction now2 a = true -> V2.keepAction now1 a = true.
Proof.
  intros Hle. unfold V2.keepAction.
  destruct (Act.expireAt a) as [[| | t |] |]; cbn [truthy_opt truthy strict_eq_opt
                                                   strict_eq lt_opt negb orb];
    try (intro; reflexivity).
  - unfold lt. cbn. intro H. exact H.
  - destruct (Qeq_bool t 0); cbn [negb orb]; [intro; reflexivity |].
    intro H. apply lt_Fin_true in H. apply lt_Fin_true. lra.
Qed.

Lemma filter_subsumes {A : Type} (f g : A -> bool) (l : list A) :
  (forall a, g a = true -> f a = true) ->
  filter g (filter f l) = filter g l.
Proof.
  intro H. induction l as [| a l IH]; [reflexivity |]. simpl.
  destruct (f a) eqn:Ef; simpl.
  - now rewrite IH.
  - destruct (g a) eqn:Eg; [| exact IH].
    apply H in Eg. congruence.
Qed.

Lemma V1_setDrawActions_twice f g s :
  V1.setDrawActions f (V1.setDrawActions g s)
  = V1.setDrawActions (fun l => f (g l)) s.
Proof. reflexivity. Qed.

Lemma V1_setDrawActions_ext f g s :
  f (V1.drawActions s) = g (V1.drawActions s) ->
  V1.setDrawActions f s = V1.setDrawActions g s.
Proof. intro H. unfold V1.setDrawActions. now rewrite H. Qed.

Lemma V2_setActions_twice f g s :
  V2.setActions f (V2.setActions g s) = V2.setActions (fun l => f (g l)) s.
Proof. reflexivity. Qed.

Lemma V2_setActions_ext f g s :
  f (V2.actions s) = g (V2.actions s) ->
  V2.setActions f s = V2.setActions g s.
Proof. intro H. unfold V2.setActions. now rewrite H. Qed.

(** X3 -- sweeps subsume one another.  In both variants a tick at [now2]
    after a tick at an earlier or equal time [now1] leaves exactly the state
    that the tick at [now2] alone leaves: a missed or repeated tick changes
    nothing, and an action once dropped would not have been kept later. *)
Theorem later_sweep_subsumes (now1 now2 : Q) (s1 : V1.State) (s2 : V2.State) :
  now1 <= now2 ->
  V1.fadeTick now2 (V1.fadeTick now1 s1) = V1.fadeTick now2 s1 /\
  V2.fadeTick now2 (V2.fadeTick now1 s2) = V2.fadeTick now2 s2 /\
  V1.fadeTick now2 (V1.fadeTick now2 s1) = V1.fadeTick now2 s1 /\
  V2.fadeTick now2 (V2.fadeTick now2 s2) = V2.fadeTick now2 s2.
Proof.
  intro Hle.
  assert (F1 : forall (n1 n2 : Q) l, n1 <= n2 ->
             filter (V1.keepAction n2) (filter (V1.keepAction n1) l)
             = filter (V1.keepAction n2) l).
  { intros n1 n2 l H. apply filter_subsumes. intro a.
    rewrite !keepAction_agree. now apply keepAction_earlier. }
  assert (F2 : forall (n1 n2 : Q) l, n1 <= n2 ->
             filter (V2.keepAction n2) (filter (V2.keepAction n1) l)
             = filter (V2.keepAction n2) l).
  { intros n1 n2 l H. apply filter_subsumes. intro a. now apply keepAction_earlier. }
  assert (G1 : forall (n1 n2 : Q), n1 <= n2 ->
             V1.fadeTick n2 (V1.fadeTick n1 s1) = V1.fadeTick n2 s1).
  { intros n1 n2 H. unfold V1.fadeTick.
    rewrite (V1_setDrawActions_twice _ _ s1).
    apply V1_setDrawActions_ext. now apply F1. }
  assert (G2 : forall (n1 n2 : Q), n1 <= n2 ->
             V2.fadeTick n2 (V2.fadeTick n1 s2) = V2.fadeTick n2 s2).
  { intros n1 n2 H. unfold V2.fadeTick.
    rewrite (V2_setActions_twice _ _ s2).
    apply V2_setActions_ext. now apply F2. }
  repeat split; [apply G1 | apply G2 | apply G1 | apply G2]; lra.
Qed.

Lemma later_sweep_subsumes_witness :
  2000 <= 4000 /\
  V2.fadeTick (Fin 4000) (V2.fadeTick (Fin 2000)
                            (v2_drawing [action_A; action_expiring_at_0; action_C]))
  = V2.fadeTick (Fin 4000) (v2_drawing [action_A; action_expiring_at_0; action_C]).
Proof.
  assert (H : 2000 <= 4000) by (vm_compute; discriminate).
  split; [exact H |].
  exact (proj1 (proj2 (later_sweep_subsumes 2000 4000
                         (v1_drawing []) 
                         (v2_drawing [action_A; action_expiring_at_0; action_C]) H))).
Defined.

(** ** Undo, again and again *)

Lemma removelast_firstn_le {A : Type} (l : list A) (m : nat) :
  removelast (firstn m l) = firstn (Nat.pred (Nat.min m (List.length l))) l.
Proof.
  destruct m as [| m]; [reflexivity |].
  destruct (Nat.lt_ge_cases m (List.length l)) as [Hlt | Hge].
  - rewrite removelast_firstn by exact Hlt.
    replace (Nat.min (S m) (List.length l)) with (S m) by lia. reflexivity.
  - rewrite firstn_all2 by lia.
    replace (Nat.min (S m) (List.length l)) with (List.length l) by lia.
    apply removelast_firstn_len.
Qed.

Lemma iter_removelast {A : Type} (n : nat) (l : list A) :
  Nat.iter n (@removelast A) l = firstn (List.length l - n) l.
Proof.
  induction n as [| n IH].
  - simpl. rewrite Nat.sub_0_r. symmetry. apply firstn_all.
  - simpl. rewrite IH, removelast_firstn_le. f_equal. lia.
Qed.

Lemma V1_undo_iter k n : forall s,
  undo_key k ->
  V1.drawActions (Nat.iter n (V1.handleKeyDown k) s)
  = Nat.iter n (@removelast DrawAction) (V1.drawActions s).
Proof.
  induction n as [| n IH]; intros s Hk; [reflexivity |].
  simpl. rewrite (V1_undo_keys k _ Hk). simpl.
  now rewrite slice_drops_last, IH.
Qed.

Lemma V2_undo_iter k n : forall s,
  undo_key k ->
  V2.actions (Nat.iter n (V2.undoHandler k) s)
  = Nat.iter n (@removelast DrawAction) (V2.actions s).
Proof.
  induction n as [| n IH]; intros s Hk; [reflexivity |].
  simpl. rewrite (V2_undo_keys k _ Hk). simpl.
  now rewrite slice_drops_last, IH.
Qed.

(** X4 -- repeated undo.  Pressing an undo shortcut [n] times leaves the
    first [length - n] actions, in their order, in both variants: it removes
    the [n] most recent ones, and once the list is empty further presses do
    nothing. *)
Theorem undo_n_times (k : KeyboardEvent) (n : nat) (s1 : V1.State) (s2 : V2.State) :
  undo_key k ->
  V1.drawActions (Nat.iter n (V1.handleKeyDown k) s1)
  = firstn (List.length (V1.drawActions s1) - n) (V1.drawActions s1) /\
  V2.actions (Nat.iter n (V2.undoHandler k) s2)
  = firstn (List.length (V2.actions s2) - n) (V2.actions s2) /\
  (List.length (V1.drawActions s1) <= n ->
   V1.drawActions (Nat.iter n (V1.handleKeyDown k) s1) = [])%nat /\
  (List.length (V2.actions s2) <= n ->
   V2.actions (Nat.iter n (V2.undoHandler k) s2) = [])%nat.
Proof.
  intro Hk.
  rewrite (V1_undo_iter k n s1 Hk), (V2_undo_iter k n s2 Hk), !iter_removelast.
  repeat split; try reflexivity; intro H;
    match goal with
    | |- firstn ?m _ = [] => replace m with 0%nat by lia
    end; reflexivity.
Qed.

Lemma undo_n_times_witness :
  V2.actions (Nat.iter 2 (V2.undoHandler key_backspace)
                       (v2_drawing [action_A; action_B; action_C]))
  = firstn (3 - 2) [action_A; action_B; action_C].
Proof.
  exact (proj1 (proj2 (undo_n_times key_backspace 2
                         (v1_drawing []) (v2_drawing [action_A; action_B; action_C])
                         (or_introl eq_refl)))).
Defined.

(** ** Keys that are no shortcut *)








(** ** More on the clamp *)

Lemma clamp_monotone (lo hi v w : Q) :
  lo <= hi -> v <= w -> clamp lo hi v <= clamp lo hi w.
Proof.
  intros H Hvw.
  destruct (clamp_cases lo hi v H) as [[? E] | [[? E] | [? E]]];
    destruct (clamp_cases lo hi w H) as [[? E'] | [[? E'] | [? E']]]; lra.
Qed.

Lemma clamp_fixed_iff (lo hi v : Q) :
  lo <= hi -> (clamp lo hi v == v <-> lo <= v <= hi).
Proof.
  intro H. split.
  - intro E. pose proof (clamp_bounds lo hi v H). lra.
  - apply clamp_fixed.
Qed.

Lemma maxPan_small (bg vp sc : Q) : bg <= vp / sc -> maxPan bg vp sc == 0.
Proof. intro H. unfold maxPan. q_solve. Qed.

Lemma clampSpec_facts canvas b (sc : Q) (r r' : Point) (px py px' py' : Q) :
  (toQ (x r) == clamp 0 (maxPan (toQ (img_width b)) (toQ (width canvas)) sc) px /\
   toQ (y r) == clamp 0 (maxPan (toQ (img_height b)) (toQ (height canvas)) sc) py) ->
  (toQ (x r') == clamp 0 (maxPan (toQ (img_width b)) (toQ (width canvas)) sc) px' /\
   toQ (y r') == clamp 0 (maxPan (toQ (img_height b)) (toQ (height canvas)) sc) py') ->
  finite_point r ->
  (same_point r (mkPoint px py) <->
   pan_ok (Some canvas) (Some b) sc (mkPoint px py)) /\
  (toQ (img_width b) <= toQ (width canvas) / sc -> toQ (x r) == 0) /\
  (toQ (img_height b) <= toQ (height canvas) / sc -> toQ (y r) == 0) /\
  (px <= px' -> toQ (x r) <= toQ (x r')) /\
  (py <= py' -> toQ (y r) <= toQ (y r')).
Proof.
  intros [Ex Ey] [Ex' Ey'] [Fx Fy].
  set (mx := maxPan (toQ (img_width b)) (toQ (width canvas)) sc) in *.
  set (my := maxPan (toQ (img_height b)) (toQ (height canvas)) sc) in *.
  assert (Hmx : 0 <= mx) by apply maxPan_nonneg.
  assert (Hmy : 0 <= my) by apply maxPan_nonneg.
  split; [| split; [| split; [| split]]].
  - unfold same_point, pan_ok. cbn [x y toQ finite].
    rewrite (finite_inv _ Fx), (finite_inv _ Fy). cbn [same].
    fold mx my. rewrite Ex, Ey.
    rewrite (clamp_fixed_iff 0 mx px Hmx), (clamp_fixed_iff 0 my py Hmy). tauto.
  - intro H. pose proof (maxPan_small _ _ _ H) as E. fold mx in E.
    pose proof (clamp_bounds 0 mx px Hmx). lra.
  - intro H. pose proof (maxPan_small _ _ _ H) as E. fold my in E.
    pose proof (clamp_bounds 0 my py Hmy). lra.
  - intro H. rewrite Ex, Ex'. now apply clamp_monotone.
  - intro H. rewrite Ey, Ey'. now apply clamp_monotone.
Qed.

(** X6 -- what the clamp fixes, pins and preserves.  With the canvas and a
    background in place, in both variants and for every scale in [1, 4]:
    [clampPan] returns a pan unchanged exactly when that pan is within the
    bounds; on an axis where the background is no larger than the viewport
    (at that scale) the result is 0 whatever was asked for; and the clamp
    is monotone on each axis, so asking for more never yields less. *)
Theorem clampPan_fixes_pins_orders
        (containerRef : option Container) (canvas : Canvas) (b : Image)
        (s1 : V1.State) (s2 : V2.State) (px py px' py' sc : Q) :
  find_canvas containerRef = Some canvas ->
  V1.backgroundImage s1 = Some b -> V2.bgImage s2 = Some b ->
  finite_canvas canvas -> finite_image b -> 1 <= sc <= 4 ->
  let r1 := V1.clampPan containerRef s1 px py sc in
  let r2 := V2.clampPan containerRef s2 px py sc in
  let r1' := V1.clampPan containerRef s1 px' py' sc in
  let r2' := V2.clampPan containerRef s2 px' py' sc in
  ((same_point r1 (mkPoint px py) <->
    pan_ok (Some canvas) (Some b) sc (mkPoint px py)) /\
   (same_point r2 (mkPoint px py) <->
    pan_ok (Some canvas) (Some b) sc (mkPoint px py))) /\
  (toQ (img_width b) <= toQ (width canvas) / sc ->
   toQ (x r1) == 0 /\ toQ (x r2) == 0) /\
  (toQ (img_height b) <= toQ (height canvas) / sc ->
   toQ (y r1) == 0 /\ toQ (y r2) == 0) /\
  (px <= px' -> toQ (x r1) <= toQ (x r1') /\ toQ (x r2) <= toQ (x r2')) /\
  (py <= py' -> toQ (y r1) <= toQ (y r1') /\ toQ (y r2) <= toQ (y r2')).
Proof.
  intros Hc Hb1 Hb2 Fc Fb Hsc r1 r2 r1' r2'.
  assert (Hd1 : finite_dom containerRef (V1.backgroundImage s1))
    by (unfold finite_dom; now rewrite Hc, Hb1).
  assert (Hd2 : finite_dom containerRef (V2.bgImage s2))
    by (unfold finite_dom; now rewrite Hc, Hb2).
  destruct (V1_clampPan_spec containerRef s1 px py sc Hd1 Hsc) as [F1 S1].
  destruct (V1_clampPan_spec containerRef s1 px' py' sc Hd1 Hsc) as [F1' S1'].
  destruct (V2_clampPan_spec containerRef s2 px py sc Hd2 Hsc) as [F2 S2].
  destruct (V2_clampPan_spec containerRef s2 px' py' sc Hd2 Hsc) as [F2' S2'].
  rewrite Hc, Hb1 in S1, S1'. rewrite Hc, Hb2 in S2, S2'.
  destruct (clampSpec_facts canvas b sc _ _ px py px' py' S1 S1' F1)
    as (A1 & B1 & C1 & D1 & E1).
  destruct (clampSpec_facts canvas b sc _ _ px py px' py' S2 S2' F2)
    as (A2 & B2 & C2 & D2 & E2).
  split; [split; assumption |].
  split; [intro H; split; [apply B1 | apply B2]; exact H |].
  split; [intro H; split; [apply C1 | apply C2]; exact H |].
  split; [intro H; split; [apply D1 | apply D2]; exact H |].
  intro H; split; [apply E1 | apply E2]; exact H.
Qed.

Lemma clampPan_fixes_pins_orders_witness :
  1 <= 2 <= 4 /\
  (same_point (V2.clampPan mounted_400x300 (v2_with (Some bg_800x600) 1 0 0) 100 50 2)
              (mkPoint 100 50) <->
   pan_ok (Some canvas_400x300) (Some bg_800x600) 2 (mkPoint 100 50)).
Proof.
  assert (H : 1 <= 2 <= 4) by (split; vm_compute; discriminate).
  split; [exact H |].
  assert (Fc : finite_canvas canvas_400x300) by (vm_compute; tauto).
  assert (Fb : finite_image bg_800x600) by (vm_compute; tauto).
  exact (proj2 (proj1 (clampPan_fixes_pins_orders
                         mounted_400x300 canvas_400x300 bg_800x600
                         (v1_with (Some bg_800x600) 1 0 0)
                         (v2_with (Some bg_800x600) 1 0 0)
                         100 50 200 60 2 eq_refl eq_refl eq_refl Fc Fb H))).
Defined.

(** ** The paint transform, the other way round *)

(** X7 -- world to screen and back, up to floating-point tolerance.  With
    the canvas mounted, for every world point, pan and scale in [1, 4]: the
    place where the paint of variant 2 shows a world point is mapped back
    to that world point by [screenToWorld]; and two world points are shown
    [scale] times as far apart on screen as they are in the world, on each
    axis.  The equalities are those of the rationals the numbers stand
    for; the browser's doubles meet them within rounding. *)
Theorem paint_then_screenToWorld
        (containerRef : option Container) (canvas : Canvas)
        (s : V2.State) (w w' : Point) :
  find_canvas containerRef = Some canvas ->
  finite_rect (getBoundingClientRect canvas) ->
  scale_ok (V2.scale s) -> finite_point (V2.pan s) ->
  finite_point w -> finite_point w' ->
  let rect := getBoundingClientRect canvas in
  let p := V2.worldToScreen rect s w in
  let p' := V2.worldToScreen rect s w' in
  same_point (V2.screenToWorld containerRef s (x p) (y p)) w /\
  toQ (x p') - toQ (x p) == toQ (V2.scale s) * (toQ (x w') - toQ (x w)) /\
  toQ (y p') - toQ (y p) == toQ (V2.scale s) * (toQ (y w') - toQ (y w)).
Proof.
  intros Hc Fr Hs Fp Fw Fw' rect p p'. subst rect p p'.
  rewrite (V2_screenToWorld_mounted _ _ _ _ _ Hc).
  destruct Fr as (F1 & F2 & F3 & F4), Hs as (F5 & Hs), Fp as (F6 & F7),
    Fw as (F8 & F9), Fw' as (F10 & F11).
  destruct canvas as [cw ch [l t rw rh]], s, w as [wx wy], w' as [wx' wy'].
  simpl in *.
  destruct pan as [panx pany]. simpl in *. fin_intro. simpl in Hs.
  unfold V2.worldToScreen, V2.applyPanZoom, canvasToClient, apply_matrix,
    ctx_scale, ctx_translate, set_transform, same_point.
  simpl. js_arith. simpl. repeat split; try (field; lra); ring.
Qed.

Lemma paint_then_screenToWorld_witness :
  let s := v2_with None 2 30 40 in
  let rect := getBoundingClientRect canvas_400x300 in
  let p := V2.worldToScreen rect s (mkPoint 80 65) in
  let p' := V2.worldToScreen rect s (mkPoint 90 60) in
  same_point (V2.screenToWorld mounted_400x300 s (x p) (y p)) (mkPoint 80 65) /\
  toQ (x p') - toQ (x p)
  == toQ (V2.scale s) * (toQ (x (mkPoint 90 60)) - toQ (x (mkPoint 80 65))) /\
  toQ (y p') - toQ (y p)
  == toQ (V2.scale s) * (toQ (y (mkPoint 90 60)) - toQ (y (mkPoint 80 65))).
Proof.
  apply (paint_then_screenToWorld mounted_400x300 canvas_400x300
           (v2_with None 2 30 40) (mkPoint 80 65) (mkPoint 90 60) eq_refl).
  - vm_compute. tauto.
  - split; [exact I | split; vm_compute; discriminate].
  - split; exact I.
  - split; exact I.
  - split; exact I.
Defined.

(** ** The zoom buttons *)

Lemma V2_zoomByFactor_anchor ref canvas f s :
  find_canvas ref = Some canvas ->
  finite_dom ref (V2.bgImage s) -> f <> NaN ->
  scale_ok (V2.scale s) -> finite_point (V2.pan s) ->
  let s' := V2.zoomByFactor ref f s in
  let rect := getBoundingClientRect canvas in
  let c := viewportCentre rect in
  let before := V2.screenToWorld ref s (x c) (y c) in
  let after := V2.screenToWorld ref s' (x c) (y c) in
  let requested :=
    mkPoint (rect_width rect / 2 / V2.scale s + x (V2.pan s)
             - rect_width rect / 2 / V2.scale s')%js
            (rect_height rect / 2 / V2.scale s + y (V2.pan s)
             - rect_height rect / 2 / V2.scale s')%js in
  (forall fq, f = Fin fq -> toQ (V2.scale s') == clamp 1 4 (toQ (V2.scale s) * fq)) /\
  V2.pan s' = V2.clampPan ref s (x requested) (y requested) (V2.scale s') /\
  (same_point (V2.pan s') requested -> same_point after before) /\
  (forall p : Point,
      pan_ok (Some canvas) (V2.bgImage s) (V2.scale s') p ->
      let other := V2.screenToWorld ref (V2.setPan (fun _ => p) s') (x c) (y c) in
      axis_dev (x after) (x before) <= axis_dev (x other) (x before) /\
      axis_dev (y after) (y before) <= axis_dev (y other) (y before)).
Proof.
  intros Hc Hdom Hf Hs Hp.
  pose proof (proj1 Hdom) as Hcv. rewrite Hc in Hcv.
  destruct Hcv as (_ & _ & Fl & Ft & Fw & Fh).
  unfold V2.screenToWorld, V2.zoomByFactor, viewportCentre. rewrite Hc. cbv zeta.
  destruct (V2_newScale _ _ Hs Hf) as (q & -> & Hq & Eq).
  destruct (scale_ok_inv _ Hs) as [Es Hsc].
  apply finite_inv in Fl, Ft, Fw, Fh.
  simpl. split; [exact Eq |]. split; [reflexivity |]. clear Eq.
  rewrite (finite_point_inv _ Hp), Es, Fl, Ft, Fw, Fh. simpl.
  clear Fl Ft Fw Fh Es Hp Hs.
  generalize dependent (toQ (V2.scale s)). intros sc Hsc.
  generalize (toQ (x (V2.pan s)))
             (toQ (y (V2.pan s))) (toQ (rect_left (getBoundingClientRect canvas)))
             (toQ (rect_top (getBoundingClientRect canvas)))
             (toQ (rect_width (getBoundingClientRect canvas)))
             (toQ (rect_height (getBoundingClientRect canvas))).
  intros panx pany l t w h. js_arith.
  match goal with
  | |- context [ V2.clampPan _ _ (Fin ?a) (Fin ?b) _ ] =>
      set (R := V2.clampPan ref s (Fin a) (Fin b) (Fin q)) in *;
      destruct (V2_clampPan_spec ref s a b q Hdom Hq) as [Fr Hr];
      fold R in Fr, Hr;
      pose proof (fun p => clampSpec_nearest _ _ q R p a b Hr) as Hnear
  end.
  rewrite Hc in Hnear. clear Hr.
  clearbody R. destruct R as [rx ry], Fr as [Frx Fry]. simpl in Frx, Fry.
  fin_intro. cbn [x y toQ] in *. js_arith. split.
  - unfold same_point. cbn [same x y]. intros [Ex Ey].
    split; [rewrite Ex | rewrite Ey]; field; lra.
  - intros p Hp'. destruct (Hnear p Hp') as [Nx Ny].
    destruct Hp' as (Fpx & Fpy & _).
    rewrite (finite_inv _ Fpx), (finite_inv _ Fpy) in *. js_arith.
    unfold axis_dev. cbn [x y toQ] in *.
    split; (eapply dev_shift; [| | eassumption]); field; lra.
Qed.

Lemma V1_zoomAroundCenter_anchor ref canvas (q : Q) s :
  find_canvas ref = Some canvas ->
  finite_dom ref (V1.backgroundImage s) -> 1 <= q <= 4 ->
  scale_ok (V1.scale s) -> finite_point (V1_pan s) ->
  let s' := V1.zoomAroundCenter ref (Fin q) s in
  let rect := getBoundingClientRect canvas in
  let c := viewportCentre rect in
  let before := V1.screenToWorld ref s (x c) (y c) in
  let after := V1.screenToWorld ref s' (x c) (y c) in
  let requested :=
    mkPoint (rect_width rect / 2 / V1.scale s + V1.panX s
             - rect_width rect / 2 / Fin q)%js
            (rect_height rect / 2 / V1.scale s + V1.panY s
             - rect_height rect / 2 / Fin q)%js in
  V1.scale s' = Fin q /\
  V1_pan s' = V1.clampPan ref s (x requested) (y requested) (Fin q) /\
  (same_point (V1_pan s') requested -> same_point after before) /\
  (forall p : Point,
      pan_ok (Some canvas) (V1.backgroundImage s) (Fin q) p ->
      let other := V1.screenToWorld ref (V1.setPanY (y p) (V1.setPanX (x p) s'))
                                    (x c) (y c) in
      axis_dev (x after) (x before) <= axis_dev (x other) (x before) /\
      axis_dev (y after) (y before) <= axis_dev (y other) (y before)).
Proof.
  intros Hc Hdom Hq Hs [Fpx Fpy]. simpl in Fpx, Fpy.
  pose proof (proj1 Hdom) as Hcv. rewrite Hc in Hcv.
  destruct Hcv as (_ & _ & Fl & Ft & Fw & Fh).
  cbv zeta.
  assert (Hq' : exists container,
             ref = Some container /\ querySelector_canvas container = Some canvas).
  { destruct ref as [container |]; [| discriminate]. now exists container. }
  destruct Hq' as (container & Eref & Hc').
  unfold V1.screenToWorld. rewrite Eref, Hc', <- Eref.
  unfold V1.zoomAroundCenter, V1_pan, viewportCentre. rewrite Hc. cbv zeta.
  destruct (scale_ok_inv _ Hs) as [Es Hsc].
  apply finite_inv in Fl, Ft, Fw, Fh, Fpx, Fpy.
  simpl. split; [reflexivity |].
  split; [now destruct (V1.clampPan _ _ _ _ _) |].
  rewrite Fpx, Fpy, Es, Fl, Ft, Fw, Fh. simpl.
  clear Fl Ft Fw Fh Es Fpx Fpy Hs.
  generalize dependent (toQ (V1.scale s)). intros sc Hsc.
  generalize (toQ (V1.panX s))
             (toQ (V1.panY s)) (toQ (rect_left (getBoundingClientRect canvas)))
             (toQ (rect_top (getBoundingClientRect canvas)))
             (toQ (rect_width (getBoundingClientRect canvas)))
             (toQ (rect_height (getBoundingClientRect canvas))).
  intros panx pany l t w h. js_arith.
  match goal with
  | |- context [ V1.clampPan _ _ (Fin ?a) (Fin ?b) _ ] =>
      set (R := V1.clampPan ref s (Fin a) (Fin b) (Fin q)) in *;
      destruct (V1_clampPan_spec ref s a b q Hdom Hq) as [Fr Hr];
      fold R in Fr, Hr;
      pose proof (fun p => clampSpec_nearest _ _ q R p a b Hr) as Hnear
  end.
  rewrite Hc in Hnear. clear Hr.
  clearbody R. destruct R as [rx ry], Fr as [Frx Fry]. simpl in Frx, Fry.
  fin_intro. cbn [x y toQ] in *. js_arith. split.
  - unfold same_point. cbn [same x y]. intros [Ex Ey].
    split; [rewrite Ex | rewrite Ey]; field; lra.
  - intros p Hp'. destruct (Hnear p Hp') as [Nx Ny].
    destruct Hp' as (Fpx & Fpy & _).
    rewrite (finite_inv _ Fpx), (finite_inv _ Fpy) in *. js_arith.
    unfold axis_dev. cbn [x y toQ] in *.
    split; (eapply dev_shift; [| | eassumption]); field; lra.
Qed.

Lemma V1_zoom_buttons_scale (s : V1.State) :
  scale_ok (V1.scale s) ->
  exists qi qo,
    (forall ref, V1.zoomIn ref s = V1.zoomAroundCenter ref (Fin qi) s) /\
    (forall ref, V1.zoomOut ref s = V1.zoomAroundCenter ref (Fin qo) s) /\
    1 <= qi <= 4 /\ qi == clamp 1 4 (toQ (V1.scale s) * (11 # 10)) /\
    1 <= qo <= 4 /\ qo == clamp 1 4 (toQ (V1.scale s) * (10 # 11)).
Proof.
  intro Hs.
  destruct (V1_newScale_in _ Hs) as (qi & Ei & Hi & Ci).
  destruct (V1_newScale_out _ Hs) as (qo & Eo & Ho & Co).
  exists qi, qo. cbv zeta in Ei, Eo.
  repeat split; try tauto; intro ref; unfold V1.zoomIn, V1.zoomOut; cbv zeta;
    [now rewrite Ei | now rewrite Eo].
Qed.

(** X8 -- the zoom buttons zoom about the middle of the canvas.  With the
    canvas mounted, [zoomIn] and [zoomOut] of variant 1 and [zoomByFactor]
    of variant 2 (for any factor that is a number) commit the scale
    [clamp (scale * factor) 1 4] and the pan [clampPan] of the pan that
    would keep the world point at the middle of the canvas's box in place.
    Whenever the clamp leaves that pan as it is -- always, when no
    background is loaded -- [screenToWorld] of the middle is the same world
    point after the click as before, up to floating-point tolerance: the
    equality is that of the rationals the numbers stand for, which the
    browser's doubles meet within rounding. *)
Theorem zoom_buttons_keep_centre
        (containerRef : option Container) (canvas : Canvas) (f : Q)
        (s1 : V1.State) (s2 : V2.State) :
  find_canvas containerRef = Some canvas ->
  finite_dom containerRef (V1.backgroundImage s1) ->
  finite_dom containerRef (V2.bgImage s2) ->
  scale_ok (V1.scale s1) -> finite_point (V1_pan s1) ->
  scale_ok (V2.scale s2) -> finite_point (V2.pan s2) ->
  let rect := getBoundingClientRect canvas in
  let c := viewportCentre rect in
  let V1_requested sc :=
    mkPoint (rect_width rect / 2 / V1.scale s1 + V1.panX s1
             - rect_width rect / 2 / sc)%js
            (rect_height rect / 2 / V1.scale s1 + V1.panY s1
             - rect_height rect / 2 / sc)%js in
  let V2_requested sc :=
    mkPoint (rect_width rect / 2 / V2.scale s2 + x (V2.pan s2)
             - rect_width rect / 2 / sc)%js
            (rect_height rect / 2 / V2.scale s2 + y (V2.pan s2)
             - rect_height rect / 2 / sc)%js in
  (let s' := V1.zoomIn containerRef s1 in
   let req := V1_requested (V1.scale s') in
   toQ (V1.scale s') == clamp 1 4 (toQ (V1.scale s1) * (11 # 10)) /\
   V1_pan s' = V1.clampPan containerRef s1 (x req) (y req) (V1.scale s') /\
   (same_point (V1_pan s') req \/ V1.backgroundImage s1 = None ->
    same_point (V1.screenToWorld containerRef s' (x c) (y c))
               (V1.screenToWorld containerRef s1 (x c) (y c)))) /\
  (let s' := V1.zoomOut containerRef s1 in
   let req := V1_requested (V1.scale s') in
   toQ (V1.scale s') == clamp 1 4 (toQ (V1.scale s1) * (10 # 11)) /\
   V1_pan s' = V1.clampPan containerRef s1 (x req) (y req) (V1.scale s') /\
   (same_point (V1_pan s') req \/ V1.backgroundImage s1 = None ->
    same_point (V1.screenToWorld containerRef s' (x c) (y c))
               (V1.screenToWorld containerRef s1 (x c) (y c)))) /\
  (let s' := V2.zoomByFactor containerRef f s2 in
   let req := V2_requested (V2.scale s') in
   toQ (V2.scale s') == clamp 1 4 (toQ (V2.scale s2) * f) /\
   V2.pan s' = V2.clampPan containerRef s2 (x req) (y req) (V2.scale s') /\
   (same_point (V2.pan s') req \/ V2.bgImage s2 = None ->
    same_point (V2.screenToWorld containerRef s' (x c) (y c))
               (V2.screenToWorld containerRef s2 (x c) (y c)))).
Proof.
  intros Hc Hd1 Hd2 Hs1 Hp1 Hs2 Hp2 rect c V1_requested V2_requested.
  destruct (V1_zoom_buttons_scale s1 Hs1) as (qi & qo & Ei & Eo & Hi & Ci & Ho & Co).
  assert (Hsame : forall p : Point, finite_point p -> same_point p p).
  { intros p Fp. rewrite (finite_point_inv _ Fp). split; simpl; reflexivity. }
  pose proof (proj1 Hd1) as Hcv. rewrite Hc in Hcv.
  destruct Hcv as (_ & _ & Fl & Ft & Fw & Fh).
  destruct Hp1 as [Fp1x Fp1y]. simpl in Fp1x, Fp1y.
  destruct Hs1 as [Fs1 Hs1]. destruct Hs2 as [Fs2 Hs2].
  destruct Hp2 as [Fp2x Fp2y].
  assert (Freq1 : forall q : Q, 1 <= q <= 4 -> finite_point (V1_requested (Fin q))).
  { intros q Hq. unfold V1_requested, rect.
    rewrite (finite_inv _ Fw), (finite_inv _ Fh), (finite_inv _ Fs1),
      (finite_inv _ Fp1x), (finite_inv _ Fp1y).
    split; cbn [x y]; js_arith; exact I. }
  assert (Freq2 : forall q : Q, 1 <= q <= 4 -> finite_point (V2_requested (Fin q))).
  { intros q Hq. unfold V2_requested, rect.
    rewrite (finite_inv _ Fw), (finite_inv _ Fh), (finite_inv _ Fs2),
      (finite_inv _ Fp2x), (finite_inv _ Fp2y).
    split; cbn [x y]; js_arith; exact I. }
  split; [| split].
  - rewrite Ei.
    destruct (V1_zoomAroundCenter_anchor containerRef canvas qi s1 Hc Hd1 Hi
                (conj Fs1 Hs1) (conj Fp1x Fp1y)) as (A & B & C & _).
    cbv zeta. rewrite A. split; [exact Ci |]. split; [exact B |].
    intros [H | H]; [exact (C H) |]. apply C. rewrite B.
    rewrite V1_clampPan_no_bg by exact H. apply Hsame, Freq1, Hi.
  - rewrite Eo.
    destruct (V1_zoomAroundCenter_anchor containerRef canvas qo s1 Hc Hd1 Ho
                (conj Fs1 Hs1) (conj Fp1x Fp1y)) as (A & B & C & _).
    cbv zeta. rewrite A. split; [exact Co |]. split; [exact B |].
    intros [H | H]; [exact (C H) |]. apply C. rewrite B.
    rewrite V1_clampPan_no_bg by exact H. apply Hsame, Freq1, Ho.
  - assert (Hf : Fin f <> NaN) by discriminate.
    destruct (V2_zoomByFactor_anchor containerRef canvas (Fin f) s2 Hc Hd2 Hf
                (conj Fs2 Hs2) (conj Fp2x Fp2y)) as (A & B & C & _).
    cbv zeta. split; [exact (A f eq_refl) |]. split; [exact B |].
    intros [H | H]; [exact (C H) |]. apply C. rewrite B.
    rewrite V2_clampPan_no_bg by exact H.
    assert (Hsc : exists q, V2.scale (V2.zoomByFactor containerRef (Fin f) s2) = Fin q
                            /\ 1 <= q <= 4).
    { destruct (V2_zoomByFactor_ok containerRef (Fin f) s2 Hd2 Hf
                  (conj Fs2 Hs2) (conj Fp2x Fp2y)) as [Hok _].
      destruct (scale_ok_inv _ Hok) as [E Hq]. eauto. }
    destruct Hsc as (q & E & Hq). rewrite E. apply Hsame, Freq2, Hq.
Qed.

Lemma zoom_buttons_keep_centre_witness :
  let ref := mounted_400x300 in
  let s2 := v2_with None 2 30 40 in
  let c := viewportCentre (getBoundingClientRect canvas_400x300) in
  let s' := V2.zoomByFactor ref (11 # 10) s2 in
  toQ (V2.scale s') == clamp 1 4 (toQ (V2.scale s2) * (11 # 10)) /\
  same_point (V2.screenToWorld ref s' (x c) (y c))
             (V2.screenToWorld ref s2 (x c) (y c)).
Proof.
  intros ref s2 c.
  assert (Hdom1 : finite_dom ref (V1.backgroundImage (v1_with None 2 30 40)))
    by (vm_compute; tauto).
  assert (Hdom2 : finite_dom ref (V2.bgImage s2)) by (vm_compute; tauto).
  assert (Hs : scale_ok (Fin 2)) by (split; [exact I | split; vm_compute; discriminate]).
  assert (Hp : finite_point (mkPoint 30 40)) by (split; exact I).
  pose proof (zoom_buttons_keep_centre ref canvas_400x300 (11 # 10)
                (v1_with None 2 30 40) s2 eq_refl
                Hdom1 Hdom2 Hs Hp Hs Hp) as H.
  destruct H as (_ & _ & H1 & _ & H3).
  split; [exact H1 | exact (H3 (or_intror eq_refl))].
Defined.

(** ** Dragging the map *)

Lemma same_trans (a b c : number) : same a b -> same b c -> same a c.
Proof.
  destruct a, b, c; simpl; try tauto. intros E1 E2. now rewrite E1.
Qed.

Lemma same_point_trans (p q r : Point) :
  same_point p q -> same_point q r -> same_point p r.
Proof. intros [A B] [C D]. split; eapply same_trans; eassumption. Qed.

Lemma same_point_finite (p q : Point) :
  same_point p q -> finite_point q -> finite_point p.
Proof.
  destruct p as [a b], q as [c d]. intros [A B] [C D]. simpl in *.
  split; simpl; [destruct a, c | destruct b, d]; simpl in *; tauto.
Qed.

Lemma V2_drag_request_finite e s :
  finite_mouse e -> scale_ok (V2.scale s) -> finite_point (V2.pan s) ->
  finite_point (V2.panStart s) -> finite_point (V2_drag_request e s).
Proof.
  intros [Fx Fy] Hs Hp Hps. destruct (scale_ok_inv _ Hs) as [Es Hq].
  unfold V2_drag_request.
  rewrite (finite_point_inv _ Hp), (finite_point_inv _ Hps), Es,
    (finite_inv _ Fx), (finite_inv _ Fy).
  cbn [x y]. js_arith. split; exact I.
Qed.

Lemma V1_drag_request_finite e s :
  finite_mouse e -> scale_ok (V1.scale s) -> finite_point (V1_pan s) ->
  finite_point (V1.panStart s) -> finite_point (V1_drag_request e s).
Proof.
  intros [Fx Fy] Hs [Fpx Fpy] Hps. destruct (scale_ok_inv _ Hs) as [Es Hq].
  simpl in Fpx, Fpy. unfold V1_drag_request.
  rewrite (finite_point_inv _ Hps), Es, (finite_inv _ Fpx), (finite_inv _ Fpy),
    (finite_inv _ Fx), (finite_inv _ Fy).
  cbn [x y]. js_arith. split; exact I.
Qed.

Lemma V2_move_frame ref now e s :
  V2.isPanning s = true ->
  let s' := V2.handleMouseMove ref now e s in
  V2.panStart s' = mkPoint (clientX e) (clientY e) /\
  V2.scale s' = V2.scale s /\ V2.isPanning s' = true /\
  V2.bgImage s' = V2.bgImage s /\
  V2.pan s' = V2.clampPan ref s (x (V2_drag_request e s)) (y (V2_drag_request e s))
                          (V2.scale s).
Proof.
  intro Hpan. unfold V2.handleMouseMove. rewrite Hpan. simpl.
  repeat split; try reflexivity. exact Hpan.
Qed.

Lemma V1_move_frame ref now e s :
  V1.isPanning s = true ->
  let s' := V1.handleMouseMove ref now e s in
  V1.panStart s' = mkPoint (clientX e) (clientY e) /\
  V1.scale s' = V1.scale s /\ V1.isPanning s' = true /\
  V1.backgroundImage s' = V1.backgroundImage s /\
  V1_pan s' = V1.clampPan ref s (x (V1_drag_request e s)) (y (V1_drag_request e s))
                          (V1.scale s).
Proof.
  intro Hpan. unfold V1.handleMouseMove, V1_pan. rewrite Hpan. simpl.
  repeat split; try reflexivity; try exact Hpan.
  now destruct (V1.clampPan _ _ _ _ _).
Qed.

Lemma V2_move_grab ref canvas now e s :
  find_canvas ref = Some canvas ->
  finite_rect (getBoundingClientRect canvas) -> finite_mouse e ->
  V2.isPanning s = true ->
  scale_ok (V2.scale s) -> finite_point (V2.pan s) -> finite_point (V2.panStart s) ->
  let s' := V2.handleMouseMove ref now e s in
  same_point (V2.pan s') (V2_drag_request e s) ->
  same_point (V2_grabbed ref s') (V2_grabbed ref s).
Proof.
  intros Hc (Fl & Ft & _) [Fx Fy] Hpan Hs Hp Hps s' Hfree.
  destruct (V2_move_frame ref now e s Hpan) as (E1 & E2 & _ & _ & _).
  fold s' in E1, E2.
  pose proof (same_point_finite _ _ Hfree
                (V2_drag_request_finite e s (conj Fx Fy) Hs Hp Hps)) as Fp'.
  unfold V2_grabbed.
  rewrite !(V2_screenToWorld_mounted _ _ _ _ _ Hc), E1, E2.
  revert Hfree. rewrite (finite_point_inv _ Fp'). unfold V2_drag_request.
  generalize (toQ (x (V2.pan s'))) (toQ (y (V2.pan s'))). intros rx ry.
  destruct (scale_ok_inv _ Hs) as [Es Hq].
  rewrite (finite_point_inv _ Hp), (finite_point_inv _ Hps), Es,
    (finite_inv _ Fx), (finite_inv _ Fy), (finite_inv _ Fl), (finite_inv _ Ft).
  generalize dependent (toQ (V2.scale s)). intros sc _ Hsc.
  cbn [x y]. js_arith. unfold same_point. cbn [x y same].
  intros [Ex Ey]. split; [rewrite Ex | rewrite Ey]; field; lra.
Qed.

Lemma V1_move_grab ref canvas now e s :
  find_canvas ref = Some canvas ->
  finite_rect (getBoundingClientRect canvas) -> finite_mouse e ->
  V1.isPanning s = true ->
  scale_ok (V1.scale s) -> finite_point (V1_pan s) -> finite_point (V1.panStart s) ->
  let s' := V1.handleMouseMove ref now e s in
  same_point (V1_pan s') (V1_drag_request e s) ->
  same_point (V1_grabbed ref s') (V1_grabbed ref s).
Proof.
  intros Hc (Fl & Ft & _) [Fx Fy] Hpan Hs Hp Hps s' Hfree.
  destruct (V1_move_frame ref now e s Hpan) as (E1 & E2 & _ & _ & _).
  fold s' in E1, E2.
  pose proof (same_point_finite _ _ Hfree
                (V1_drag_request_finite e s (conj Fx Fy) Hs Hp Hps)) as Fp'.
  unfold V1_grabbed.
  rewrite !(V1_screenToWorld_mounted _ _ _ _ _ Hc), E1, E2.
  revert Hfree. destruct Fp' as [Fpx' Fpy']. unfold V1_pan in *.
  cbn [x y] in Fpx', Fpy'.
  rewrite (finite_inv _ Fpx'), (finite_inv _ Fpy'). unfold V1_drag_request.
  generalize (toQ (V1.panX s')) (toQ (V1.panY s')). intros rx ry.
  destruct (scale_ok_inv _ Hs) as [Es Hq]. destruct Hp as [Fpx Fpy].
  cbn [x y] in Fpx, Fpy.
  rewrite (finite_inv _ Fpx), (finite_inv _ Fpy), (finite_point_inv _ Hps), Es,
    (finite_inv _ Fx), (finite_inv _ Fy), (finite_inv _ Fl), (finite_inv _ Ft).
  generalize dependent (toQ (V1.scale s)). intros sc _ Hsc.
  cbn [x y]. js_arith. unfold same_point. cbn [x y same].
  intros [Ex Ey]. split; [rewrite Ex | rewrite Ey]; field; lra.
Qed.

Lemma last_cons_default {A : Type} (l : list A) (a d : A) :
  last (a :: l) d = last l a.
Proof.
  revert a d. induction l as [| b l IH]; intros a d; [reflexivity |].
  change (last (a :: b :: l) d) with (last (b :: l) d).
  now rewrite !IH.
Qed.

Lemma V2_drag_free_no_bg ref ms : forall s,
  V2.isPanning s = true -> V2.bgImage s = None -> V2_drag_free ref ms s.
Proof.
  induction ms as [| [now e] ms IH]; intros s Hpan Hbg; [exact I |].
  destruct (V2_move_frame ref now e s Hpan) as (_ & _ & Ep & Eb & E).
  cbn [V2_drag_free fst snd]. split.
  - rewrite E, V2_clampPan_no_bg by exact Hbg.
    destruct (V2_drag_request e s). apply same_point_refl.
  - apply IH; [exact Ep | now rewrite Eb].
Qed.

Lemma V1_drag_free_no_bg ref ms : forall s,
  V1.isPanning s = true -> V1.backgroundImage s = None -> V1_drag_free ref ms s.
Proof.
  induction ms as [| [now e] ms IH]; intros s Hpan Hbg; [exact I |].
  destruct (V1_move_frame ref now e s Hpan) as (_ & _ & Ep & Eb & E).
  cbn [V1_drag_free fst snd]. split.
  - rewrite E, V1_clampPan_no_bg by exact Hbg.
    destruct (V1_drag_request e s). apply same_point_refl.
  - apply IH; [exact Ep | now rewrite Eb].
Qed.

Lemma V2_drag_grab ref canvas ms : forall s,
  find_canvas ref = Some canvas ->
  finite_rect (getBoundingClientRect canvas) ->
  Forall (fun m => finite_mouse (snd m)) ms ->
  V2.isPanning s = true ->
  scale_ok (V2.scale s) -> finite_point (V2.pan s) -> finite_point (V2.panStart s) ->
  V2_drag_free ref ms s ->
  let s' := R2.run ref (R2_moves ms) s in
  same_point (V2_grabbed ref s') (V2_grabbed ref s) /\
  V2.scale s' = V2.scale s /\
  V2.panStart s' = pointer_after ms (V2.panStart s).
Proof.
  induction ms as [| [now e] ms IH]; intros s Hc Fr Hms Hpan Hs Hp Hps Hfree.
  - simpl. split; [apply same_point_refl | split; reflexivity].
  - inversion Hms as [| ? ? He Hrest]; subst. cbn [snd] in He.
    destruct Hfree as [Hfree1 Hfree]. cbn [fst snd] in Hfree1, Hfree.
    destruct (V2_move_frame ref now e s Hpan) as (E1 & E2 & Ep & _ & _).
    pose proof (V2_move_grab ref canvas now e s Hc Fr He Hpan Hs Hp Hps Hfree1) as G.
    set (s1 := V2.handleMouseMove ref now e s) in *.
    assert (Hp1 : finite_point (V2.pan s1)).
    { eapply same_point_finite; [exact Hfree1 |].
      now apply V2_drag_request_finite. }
    assert (Hps1 : finite_point (V2.panStart s1)) by (rewrite E1; exact He).
    assert (Hs1 : scale_ok (V2.scale s1)) by (now rewrite E2).
    destruct (IH s1 Hc Fr Hrest Ep Hs1 Hp1 Hps1 Hfree) as (A & B & C).
    change (R2.run ref (R2_moves ((now, e) :: ms)) s)
      with (R2.run ref (R2_moves ms) s1).
    cbv zeta. split; [eapply same_point_trans; eassumption |].
    split; [now rewrite B |].
    rewrite C, E1. unfold pointer_after. cbn [map snd].
    now rewrite last_cons_default.
Qed.

Lemma V1_drag_grab ref canvas ms : forall s,
  find_canvas ref = Some canvas ->
  finite_rect (getBoundingClientRect canvas) ->
  Forall (fun m => finite_mouse (snd m)) ms ->
  V1.isPanning s = true ->
  scale_ok (V1.scale s) -> finite_point (V1_pan s) -> finite_point (V1.panStart s) ->
  V1_drag_free ref ms s ->
  let s' := R1.run ref (R1_moves ms) s in
  same_point (V1_grabbed ref s') (V1_grabbed ref s) /\
  V1.scale s' = V1.scale s /\
  V1.panStart s' = pointer_after ms (V1.panStart s).
Proof.
  induction ms as [| [now e] ms IH]; intros s Hc Fr Hms Hpan Hs Hp Hps Hfree.
  - simpl. split; [apply same_point_refl | split; reflexivity].
  - inversion Hms as [| ? ? He Hrest]; subst. cbn [snd] in He.
    destruct Hfree as [Hfree1 Hfree]. cbn [fst snd] in Hfree1, Hfree.
    destruct (V1_move_frame ref now e s Hpan) as (E1 & E2 & Ep & _ & _).
    pose proof (V1_move_grab ref canvas now e s Hc Fr He Hpan Hs Hp Hps Hfree1) as G.
    set (s1 := V1.handleMouseMove ref now e s) in *.
    assert (Hp1 : finite_point (V1_pan s1)).
    { eapply same_point_finite; [exact Hfree1 |].
      now apply V1_drag_request_finite. }
    assert (Hps1 : finite_point (V1.panStart s1)) by (rewrite E1; exact He).
    assert (Hs1 : scale_ok (V1.scale s1)) by (now rewrite E2).
    destruct (IH s1 Hc Fr Hrest Ep Hs1 Hp1 Hps1 Hfree) as (A & B & C).
    change (R1.run ref (R1_moves ((now, e) :: ms)) s)
      with (R1.run ref (R1_moves ms) s1).
    cbv zeta. split; [eapply same_point_trans; eassumption |].
    split; [now rewrite B |].
    rewrite C, E1. unfold pointer_after. cbn [map snd].
    now rewrite last_cons_default.
Qed.

(** X9 -- a pan drag holds on to the map.  With the canvas mounted and a
    pan drag under way, in both variants: after any number of mouse moves,
    none of which runs into the pan bounds (none can when no background is
    loaded), the world point under the pointer is the world point that was
    under it when the moves began, up to floating-point tolerance (the
    equality is that of the rationals the numbers stand for, which the
    browser's doubles meet within rounding); the scale is unchanged, and
    [panStart] is the pointer's last position. *)
Theorem pan_drag_holds_grab
        (containerRef : option Container) (canvas : Canvas)
        (ms : list (number * MouseEvent)) (s1 : V1.State) (s2 : V2.State) :
  find_canvas containerRef = Some canvas ->
  finite_rect (getBoundingClientRect canvas) ->
  Forall (fun m => finite_mouse (snd m)) ms ->
  V1.isPanning s1 = true -> V2.isPanning s2 = true ->
  scale_ok (V1.scale s1) -> finite_point (V1_pan s1) ->
  finite_point (V1.panStart s1) ->
  scale_ok (V2.scale s2) -> finite_point (V2.pan s2) ->
  finite_point (V2.panStart s2) ->
  V1.backgroundImage s1 = None \/ V1_drag_free containerRef ms s1 ->
  V2.bgImage s2 = None \/ V2_drag_free containerRef ms s2 ->
  let s1' := R1.run containerRef (R1_moves ms) s1 in
  let s2' := R2.run containerRef (R2_moves ms) s2 in
  (same_point (V1.screenToWorld containerRef s1'
                 (x (pointer_after ms (V1.panStart s1)))
                 (y (pointer_after ms (V1.panStart s1))))
              (V1.screenToWorld containerRef s1
                 (x (V1.panStart s1)) (y (V1.panStart s1))) /\
   V1.scale s1' = V1.scale s1 /\
   V1.panStart s1' = pointer_after ms (V1.panStart s1)) /\
  (same_point (V2.screenToWorld containerRef s2'
                 (x (pointer_after ms (V2.panStart s2)))
                 (y (pointer_after ms (V2.panStart s2))))
              (V2.screenToWorld containerRef s2
                 (x (V2.panStart s2)) (y (V2.panStart s2))) /\
   V2.scale s2' = V2.scale s2 /\
   V2.panStart s2' = pointer_after ms (V2.panStart s2)).
Proof.
  intros Hc Fr Hms Hpan1 Hpan2 Hs1 Hp1 Hps1 Hs2 Hp2 Hps2 Hf1 Hf2 s1' s2'.
  assert (F1 : V1_drag_free containerRef ms s1).
  { destruct Hf1 as [H | H]; [now apply V1_drag_free_no_bg | exact H]. }
  assert (F2 : V2_drag_free containerRef ms s2).
  { destruct Hf2 as [H | H]; [now apply V2_drag_free_no_bg | exact H]. }
  destruct (V1_drag_grab containerRef canvas ms s1 Hc Fr Hms Hpan1 Hs1 Hp1 Hps1 F1)
    as (A1 & B1 & C1).
  destruct (V2_drag_grab containerRef canvas ms s2 Hc Fr Hms Hpan2 Hs2 Hp2 Hps2 F2)
    as (A2 & B2 & C2).
  fold s1' in A1, B1, C1. fold s2' in A2, B2, C2.
  unfold V1_grabbed in A1. unfold V2_grabbed in A2.
  rewrite C1 in A1. rewrite C2 in A2.
  split; (split; [assumption | split; assumption]).
Qed.

Lemma pan_drag_holds_grab_witness :
  let ref := mounted_400x300 in
  let s2 := v2_panning (Some bg_800x600) 2 100 80 (mkPoint 100 50) in
  let s2' := R2.run ref (R2_moves two_moves) s2 in
  V2_drag_free ref two_moves s2 /\
  same_point (V2.screenToWorld ref s2'
                (x (pointer_after two_moves (V2.panStart s2)))
                (y (pointer_after two_moves (V2.panStart s2))))
             (V2.screenToWorld ref s2 (x (V2.panStart s2)) (y (V2.panStart s2))) /\
  V2.scale s2' = V2.scale s2 /\
  V2.panStart s2' = pointer_after two_moves (V2.panStart s2).
Proof.
  intros ref s2.
  assert (F1 : V1_drag_free ref two_moves
                 (v1_panning (Some bg_800x600) 2 100 80 (mkPoint 100 50)))
    by (vm_compute; repeat split; reflexivity).
  assert (F2 : V2_drag_free ref two_moves s2)
    by (vm_compute; repeat split; reflexivity).
  assert (Fr : finite_rect (getBoundingClientRect canvas_400x300))
    by (vm_compute; tauto).
  assert (Hms : Forall (fun m => finite_mouse (snd m)) two_moves)
    by (repeat constructor).
  assert (Hs : scale_ok (Fin 2)) by (split; [exact I | split; vm_compute; discriminate]).
  assert (Hp : finite_point (mkPoint 100 80)) by (split; exact I).
  assert (Hps : finite_point (mkPoint 100 50)) by (split; exact I).
  split; [exact F2 |].
  exact (proj2 (pan_drag_holds_grab ref canvas_400x300 two_moves
                  (v1_panning (Some bg_800x600) 2 100 80 (mkPoint 100 50)) s2
                  eq_refl Fr Hms eq_refl eq_refl Hs Hp Hps Hs Hp Hps
                  (or_intror F1) (or_intror F2))).
Defined.

(** ** What a drawing gesture records *)

Lemma point_eta (p : Point) : mkPoint (x p) (y p) = p.
Proof. now destruct p. Qed.

Lemma tool_not_pen (t : ToolType) :
  t <> pen ->
  ToolType_eqb t pen = false /\
  ToolType_eqb t arrow || ToolType_eqb t circle || ToolType_eqb t emoji = true.
Proof. destruct t; intro H; try congruence; now split. Qed.

Lemma V1_run_app ref evs evs' s :
  R1.run ref (evs ++ evs') s = R1.run ref evs' (R1.run ref evs s).
Proof. apply fold_left_app. Qed.

Lemma V2_run_app ref evs evs' s :
  R2.run ref (evs ++ evs') s = R2.run ref evs' (R2.run ref evs s).
Proof. apply fold_left_app. Qed.

Lemma V1_shape_moves ref ms : forall s,
  V1.isPanning s = false -> V1.activeTool s <> pen ->
  R1.run ref (R1_moves ms) s = s.
Proof.
  induction ms as [| [now e] ms IH]; intros s Hp Ht; [reflexivity |].
  change (R1.run ref (R1_moves ((now, e) :: ms)) s)
    with (R1.run ref (R1_moves ms) (V1.handleMouseMove ref now e s)).
  assert (E : V1.handleMouseMove ref now e s = s).
  { unfold V1.handleMouseMove. rewrite Hp, (proj1 (tool_not_pen _ Ht)).
    now destruct (V1.isDrawing s). }
  rewrite E. now apply IH.
Qed.

Lemma V2_shape_moves ref ms : forall s,
  V2.isPanning s = false -> V2.currentTool s <> pen ->
  R2.run ref (R2_moves ms) s = s.
Proof.
  induction ms as [| [now e] ms IH]; intros s Hp Ht; [reflexivity |].
  change (R2.run ref (R2_moves ((now, e) :: ms)) s)
    with (R2.run ref (R2_moves ms) (V2.handleMouseMove ref now e s)).
  assert (E : V2.handleMouseMove ref now e s = s).
  { unfold V2.handleMouseMove. rewrite Hp, (proj1 (tool_not_pen _ Ht)).
    now rewrite andb_false_r. }
  rewrite E. now apply IH.
Qed.

(** X10 -- a shape gesture records one action.  With a tool other than the
    pen and no pan drag under way, a whole gesture -- button down without
    Ctrl (in variant 2: not the right button, the menu closed), any moves,
    button up -- appends exactly one action to the list: the author's id,
    name, colour and line width, the tool, the selected emoji, the world
    points under the pointer at button down and at button up, and the
    expiry computed at button up.  The moves record nothing, earlier
    actions stay as they were, the view is unchanged, no gesture is left
    under way, and an undo shortcut pressed next restores the list of
    actions as it was before the gesture. *)
Theorem shape_gesture_records_one
        (containerRef : option Container) (container : Container)
        (e0 e1 : MouseEvent) (ms : list (number * MouseEvent)) (now : number)
        (s1 : V1.State) (s2 : V2.State) :
  containerRef = Some container ->
  ctrlKey e0 = false -> button e0 <> 2%Z ->
  V1.isPanning s1 = false -> V1.activeTool s1 <> pen ->
  V2.isPanning s2 = false -> V2.currentTool s2 <> pen -> V2.menuOpen s2 = false ->
  let s1' := R1.run containerRef (R1_gesture e0 ms now e1) s1 in
  let s2' := R2.run containerRef (R2_gesture e0 ms now e1) s2 in
  (V1.drawActions s1' =
   V1.drawActions s1 ++
   [Act.mkAction (V1.userId s1) (V1.userName s1) (V1.userColor s1)
                 (V1.activeTool s1) (V1.lineWidth s1)
                 (V1.screenToWorld containerRef s1 (clientX e0) (clientY e0))
                 (V1.screenToWorld containerRef s1 (clientX e1) (clientY e1))
                 (Some (V1.selectedEmoji s1))
                 (Some (V1.newExpireAt now s1))] /\
   V1.isDrawing s1' = false /\ V1.isPanning s1' = false /\
   V1.scale s1' = V1.scale s1 /\ V1_pan s1' = V1_pan s1 /\
   (forall k, undo_key k ->
              V1.drawActions (V1.handleKeyDown k s1') = V1.drawActions s1)) /\
  (V2.actions s2' =
   V2.actions s2 ++
   [Act.mkAction (V2.userId s2) (V2.userName s2) (V2.userColour s2)
                 (V2.currentTool s2) (V2.lineWidth s2)
                 (V2.screenToWorld containerRef s2 (clientX e0) (clientY e0))
                 (V2.screenToWorld containerRef s2 (clientX e1) (clientY e1))
                 (Some (V2.selectedEmoji s2))
                 (Some (V2_newExpireAt now s2))] /\
   V2.isDrawing s2' = false /\ V2.isPanning s2' = false /\
   V2.scale s2' = V2.scale s2 /\ V2.pan s2' = V2.pan s2 /\
   (forall k, undo_key k ->
              V2.actions (V2.undoHandler k s2') = V2.actions s2)).
Proof.
  intros Href Hctrl Hbtn Hp1 Ht1 Hp2 Ht2 Hm2 s1' s2'.
  assert (U1 : forall k s a, undo_key k ->
                 V1.drawActions s = V1.drawActions s1 ++ [a] ->
                 V1.drawActions (V1.handleKeyDown k s) = V1.drawActions s1).
  { intros k s a Hk E. rewrite (V1_undo_keys k s Hk).
    unfold V1.setDrawActions. cbn [V1.drawActions].
    now rewrite slice_drops_last, E, removelast_last. }
  assert (U2 : forall k s a, undo_key k ->
                 V2.actions s = V2.actions s2 ++ [a] ->
                 V2.actions (V2.undoHandler k s) = V2.actions s2).
  { intros k s a Hk E. rewrite (V2_undo_keys k s Hk).
    unfold V2.setActions. cbn [V2.actions].
    now rewrite slice_drops_last, E, removelast_last. }
  cut ((V1.drawActions s1' =
        V1.drawActions s1 ++
        [Act.mkAction (V1.userId s1) (V1.userName s1) (V1.userColor s1)
                      (V1.activeTool s1) (V1.lineWidth s1)
                      (V1.screenToWorld containerRef s1 (clientX e0) (clientY e0))
                      (V1.screenToWorld containerRef s1 (clientX e1) (clientY e1))
                      (Some (V1.selectedEmoji s1))
                      (Some (V1.newExpireAt now s1))] /\
        V1.isDrawing s1' = false /\ V1.isPanning s1' = false /\
        V1.scale s1' = V1.scale s1 /\ V1_pan s1' = V1_pan s1) /\
       (V2.actions s2' =
        V2.actions s2 ++
        [Act.mkAction (V2.userId s2) (V2.userName s2) (V2.userColour s2)
                      (V2.currentTool s2) (V2.lineWidth s2)
                      (V2.screenToWorld containerRef s2 (clientX e0) (clientY e0))
                      (V2.screenToWorld containerRef s2 (clientX e1) (clientY e1))
                      (Some (V2.selectedEmoji s2))
                      (Some (V2_newExpireAt now s2))] /\
        V2.isDrawing s2' = false /\ V2.isPanning s2' = false /\
        V2.scale s2' = V2.scale s2 /\ V2.pan s2' = V2.pan s2)).
  { intros [(A1 & B1 & C1 & D1 & E1) (A2 & B2 & C2 & D2 & E2)].
    split.
    - split; [exact A1 |]. split; [exact B1 |]. split; [exact C1 |].
      split; [exact D1 |]. split; [exact E1 |].
      intros k Hk. exact (U1 k s1' _ Hk A1).
    - split; [exact A2 |]. split; [exact B2 |]. split; [exact C2 |].
      split; [exact D2 |]. split; [exact E2 |].
      intros k Hk. exact (U2 k s2' _ Hk A2). }
  clear U1 U2. subst s1' s2'.
  unfold R1_gesture, R2_gesture.
  change (R1.run containerRef (R1.MouseDown e0 :: R1_moves ms ++ [R1.MouseUp now e1]) s1)
    with (R1.run containerRef (R1_moves ms ++ [R1.MouseUp now e1])
            (V1.handleMouseDown containerRef e0 s1)).
  change (R2.run containerRef (R2.MouseDown e0 :: R2_moves ms ++ [R2.MouseUp now e1]) s2)
    with (R2.run containerRef (R2_moves ms ++ [R2.MouseUp now e1])
            (V2.handleMouseDown containerRef e0 s2)).
  rewrite V1_run_app, V2_run_app.
  assert (D1 : V1.handleMouseDown containerRef e0 s1 =
               V1.setIsDrawing true
                 (V1.setStartPoint
                    (V1.screenToWorld containerRef s1 (clientX e0) (clientY e0)) s1)).
  { unfold V1.handleMouseDown. rewrite Href, Hctrl, <- Href. cbv zeta.
    now rewrite point_eta. }
  assert (D2 : V2.handleMouseDown containerRef e0 s2 =
               V2.set_drawStart
                 (V2.screenToWorld containerRef s2 (clientX e0) (clientY e0))
                 (V2.set_isDrawing true s2)).
  { unfold V2.handleMouseDown. rewrite Hm2, Hctrl.
    destruct (Z.eqb_spec (button e0) 2); [contradiction | reflexivity]. }
  rewrite D1, D2.
  rewrite V1_shape_moves by assumption.
  rewrite V2_shape_moves by assumption.
  destruct (tool_not_pen _ Ht1) as [_ T1].
  split.
  - cbn [R1.run fold_left R1.step]. unfold V1.handleMouseUp.
    cbn [V1.isPanning V1.isDrawing V1.setIsDrawing V1.setStartPoint
         V1.activeTool negb].
    rewrite Hp1. cbn [negb]. rewrite T1. cbv zeta.
    rewrite point_eta.
    unfold V1.newExpireAt, V1.screenToWorld, V1_pan. simpl.
    rewrite Hp1. rewrite point_eta. repeat split; reflexivity.
  - cbn [R2.run fold_left R2.step]. unfold V2.handleMouseUp.
    cbn [V2.isPanning V2.isDrawing V2.set_isDrawing V2.set_drawStart negb].
    rewrite Hp2. cbn [negb]. cbv zeta.
    unfold V2.pushAction, V2_newExpireAt, V2.screenToWorld. simpl.
    rewrite Hp2. repeat split; reflexivity.
Qed.

Lemma shape_gesture_records_one_witness :
  let ref := mounted_400x300 in
  let s2 := v2_with None 2 30 40 in
  let s2' :=
    R2.run ref (R2_gesture (mouse_at 100 50) two_moves 1000 (mouse_at 200 150)) s2 in
  V2.actions s2' =
  V2.actions s2 ++
  [Act.mkAction (V2.userId s2) (V2.userName s2) (V2.userColour s2)
                (V2.currentTool s2) (V2.lineWidth s2)
                (V2.screenToWorld ref s2 (clientX (mouse_at 100 50))
                                         (clientY (mouse_at 100 50)))
                (V2.screenToWorld ref s2 (clientX (mouse_at 200 150))
                                         (clientY (mouse_at 200 150)))
                (Some (V2.selectedEmoji s2))
                (Some (V2_newExpireAt 1000 s2))].
Proof.
  intros ref s2.
  assert (Hb : button (mouse_at 100 50) <> 2%Z) by discriminate.
  assert (Ht : arrow <> pen) by discriminate.
  exact (proj1 (proj2 (shape_gesture_records_one
                         ref (mkContainer (Some canvas_400x300))
                         (mouse_at 100 50) (mouse_at 200 150) two_moves 1000
                         (v1_with None 2 30 40) s2
                         eq_refl eq_refl Hb eq_refl Ht eq_refl Ht eq_refl))).
Defined.

(** ** What a freehand stroke records *)

Lemma segments_connected mk start pts :
  (forall p q t, Act.start (mk p q t) = p /\ Act.end_ (mk p q t) = q) ->
  connected start (segments mk start pts).
Proof.
  intro Hmk. revert start.
  induction pts as [| [t p] pts IH]; intro start; [exact I |].
  cbn [segments connected]. destruct (Hmk start p t) as [-> ->].
  split; [reflexivity | apply IH].
Qed.

Lemma segments_app mk start pts t p :
  segments mk start (pts ++ [(t, p)]) =
  segments mk start pts ++ [mk (last (map snd pts) start) p t].
Proof.
  revert start. induction pts as [| [t' p'] pts IH]; intro start; [reflexivity |].
  cbn [app segments map snd]. rewrite IH, last_cons_default. reflexivity.
Qed.

Lemma segments_length mk start pts :
  List.length (segments mk start pts) = List.length pts.
Proof.
  revert start. induction pts as [| [t p] pts IH]; intro start; [reflexivity |].
  cbn [segments List.length]. now rewrite IH.
Qed.

Lemma V1_pen_moves ref ms : forall s,
  V1.isPanning s = false -> V1.isDrawing s = true -> V1.activeTool s = pen ->
  R1.run ref (R1_moves ms) s =
  V1.setStartPoint
    (last (map snd (V1_stroke_points ref s ms)) (V1.startPoint s))
    (V1.setDrawActions
       (fun prev => prev ++ segments (V1_pen_segment s) (V1.startPoint s)
                                     (V1_stroke_points ref s ms)) s).
Proof.
  induction ms as [| [now e] ms IH]; intros s Hp Hd Ht.
  - destruct s. unfold V1.setStartPoint, V1.setDrawActions. simpl.
    now rewrite app_nil_r.
  - change (R1.run ref (R1_moves ((now, e) :: ms)) s)
      with (R1.run ref (R1_moves ms) (V1.handleMouseMove ref now e s)).
    assert (E : V1.handleMouseMove ref now e s =
                V1.setStartPoint (V1.screenToWorld ref s (clientX e) (clientY e))
                  (V1.setDrawActions
                     (fun prev => prev ++
                        [V1_pen_segment s (V1.startPoint s)
                           (V1.screenToWorld ref s (clientX e) (clientY e)) now]) s)).
    { unfold V1.handleMouseMove. rewrite Hp, Hd, Ht. cbn [negb ToolType_eqb].
      cbv zeta. rewrite !point_eta. reflexivity. }
    rewrite E. rewrite IH.
    + destruct s. cbn [V1_stroke_points map fst snd segments].
      rewrite last_cons_default.
      unfold V1.setStartPoint, V1.setDrawActions. simpl.
      rewrite <- app_assoc. reflexivity.
    + destruct s; exact Hp.
    + destruct s; exact Hd.
    + destruct s; exact Ht.
Qed.

Lemma V2_pen_moves ref ms : forall s,
  V2.isPanning s = false -> V2.isDrawing s = true -> V2.currentTool s = pen ->
  R2.run ref (R2_moves ms) s =
  V2.set_drawStart
    (last (map snd (V2_stroke_points ref s ms)) (V2.drawStart s))
    (V2.setActions
       (fun prev => prev ++ segments (V2_pen_segment s) (V2.drawStart s)
                                     (V2_stroke_points ref s ms)) s).
Proof.
  induction ms as [| [now e] ms IH]; intros s Hp Hd Ht.
  - destruct s. unfold V2.set_drawStart, V2.setActions. simpl.
    now rewrite app_nil_r.
  - change (R2.run ref (R2_moves ((now, e) :: ms)) s)
      with (R2.run ref (R2_moves ms) (V2.handleMouseMove ref now e s)).
    assert (E : V2.handleMouseMove ref now e s =
                V2.set_drawStart (V2.screenToWorld ref s (clientX e) (clientY e))
                  (V2.setActions
                     (fun prev => prev ++
                        [V2_pen_segment s (V2.drawStart s)
                           (V2.screenToWorld ref s (clientX e) (clientY e)) now]) s)).
    { unfold V2.handleMouseMove. rewrite Hp, Hd, Ht. reflexivity. }
    rewrite E. rewrite IH.
    + destruct s. cbn [V2_stroke_points map fst snd segments].
      rewrite last_cons_default.
      unfold V2.set_drawStart, V2.setActions. simpl.
      rewrite <- app_assoc. reflexivity.
    + destruct s; exact Hp.
    + destruct s; exact Hd.
    + destruct s; exact Ht.
Qed.

Lemma V1_pen_segment_ends s p q t :
  Act.start (V1_pen_segment s p q t) = p /\ Act.end_ (V1_pen_segment s p q t) = q.
Proof. now split. Qed.

Lemma V2_pen_segment_ends s p q t :
  Act.start (V2_pen_segment s p q t) = p /\ Act.end_ (V2_pen_segment s p q t) = q.
Proof. now split. Qed.

(** X11 -- a freehand stroke is a connected polyline.  With the pen and no
    pan drag under way, a whole gesture -- button down without Ctrl (in
    variant 2: not the right button, the menu closed), [n] moves, button up
    -- appends to the list one pen action per move, each from the world
    point of the previous pointer position to that of the new one, so that
    each starts where the one before ended; variant 1 records nothing at
    button up ([n] actions), variant 2 records one more segment to the
    point of release ([n + 1] actions).  Every segment carries the author's
    id, name, colour and line width and the expiry computed at its own
    time.  An undo shortcut pressed next takes back the last segment only,
    not the stroke. *)
Theorem pen_stroke_is_polyline
        (containerRef : option Container) (container : Container)
        (e0 e1 : MouseEvent) (ms : list (number * MouseEvent)) (now : number)
        (s1 : V1.State) (s2 : V2.State) :
  containerRef = Some container ->
  ctrlKey e0 = false -> button e0 <> 2%Z ->
  V1.isPanning s1 = false -> V1.activeTool s1 = pen ->
  V2.isPanning s2 = false -> V2.currentTool s2 = pen -> V2.menuOpen s2 = false ->
  let s1' := R1.run containerRef (R1_gesture e0 ms now e1) s1 in
  let s2' := R2.run containerRef (R2_gesture e0 ms now e1) s2 in
  let w1 := V1.screenToWorld containerRef s1 (clientX e0) (clientY e0) in
  let w2 := V2.screenToWorld containerRef s2 (clientX e0) (clientY e0) in
  let stroke1 :=
    segments (V1_pen_segment s1) w1 (V1_stroke_points containerRef s1 ms) in
  let stroke2 :=
    segments (V2_pen_segment s2) w2
             (V2_stroke_points containerRef s2 (ms ++ [(now, e1)])) in
  (V1.drawActions s1' = V1.drawActions s1 ++ stroke1 /\
   connected w1 stroke1 /\ List.length stroke1 = List.length ms /\
   V1.isDrawing s1' = false /\
   (forall k, undo_key k -> ms <> [] ->
              V1.drawActions (V1.handleKeyDown k s1')
              = V1.drawActions s1 ++ removelast stroke1)) /\
  (V2.actions s2' = V2.actions s2 ++ stroke2 /\
   connected w2 stroke2 /\ List.length stroke2 = S (List.length ms) /\
   V2.isDrawing s2' = false /\
   (forall k, undo_key k ->
              V2.actions (V2.undoHandler k s2')
              = V2.actions s2 ++ removelast stroke2)).
Proof.
  intros Href Hctrl Hbtn Hp1 Ht1 Hp2 Ht2 Hm2 s1' s2' w1 w2 stroke1 stroke2.
  assert (U1 : forall k s, undo_key k -> stroke1 <> [] ->
                 V1.drawActions s = V1.drawActions s1 ++ stroke1 ->
                 V1.drawActions (V1.handleKeyDown k s)
                 = V1.drawActions s1 ++ removelast stroke1).
  { intros k s Hk Hne E. rewrite (V1_undo_keys k s Hk).
    unfold V1.setDrawActions. cbn [V1.drawActions].
    rewrite slice_drops_last, E. now apply removelast_app. }
  assert (U2 : forall k s, undo_key k -> stroke2 <> [] ->
                 V2.actions s = V2.actions s2 ++ stroke2 ->
                 V2.actions (V2.undoHandler k s)
                 = V2.actions s2 ++ removelast stroke2).
  { intros k s Hk Hne E. rewrite (V2_undo_keys k s Hk).
    unfold V2.setActions. cbn [V2.actions].
    rewrite slice_drops_last, E. now apply removelast_app. }
  cut ((V1.drawActions s1' = V1.drawActions s1 ++ stroke1 /\
        connected w1 stroke1 /\ List.length stroke1 = List.length ms /\
        V1.isDrawing s1' = false) /\
       (V2.actions s2' = V2.actions s2 ++ stroke2 /\
        connected w2 stroke2 /\ List.length stroke2 = S (List.length ms) /\
        V2.isDrawing s2' = false)).
  { intros [(A1 & B1 & C1 & D1) (A2 & B2 & C2 & D2)].
    split.
    - split; [exact A1 |]. split; [exact B1 |]. split; [exact C1 |].
      split; [exact D1 |].
      intros k Hk Hms. apply U1; try assumption.
      intro E0. rewrite E0 in C1. destruct ms; [congruence | discriminate C1].
    - split; [exact A2 |]. split; [exact B2 |]. split; [exact C2 |].
      split; [exact D2 |].
      intros k Hk. apply U2; try assumption.
      intro E0. rewrite E0 in C2. discriminate C2. }
  clear U1 U2.
  subst s1' s2'. unfold R1_gesture, R2_gesture.
  change (R1.run containerRef (R1.MouseDown e0 :: R1_moves ms ++ [R1.MouseUp now e1]) s1)
    with (R1.run containerRef (R1_moves ms ++ [R1.MouseUp now e1])
            (V1.handleMouseDown containerRef e0 s1)).
  change (R2.run containerRef (R2.MouseDown e0 :: R2_moves ms ++ [R2.MouseUp now e1]) s2)
    with (R2.run containerRef (R2_moves ms ++ [R2.MouseUp now e1])
            (V2.handleMouseDown containerRef e0 s2)).
  rewrite V1_run_app, V2_run_app.
  assert (D1 : V1.handleMouseDown containerRef e0 s1 =
               V1.setIsDrawing true (V1.setStartPoint w1 s1)).
  { unfold V1.handleMouseDown. rewrite Href, Hctrl, <- Href. cbv zeta.
    now rewrite point_eta. }
  assert (D2 : V2.handleMouseDown containerRef e0 s2 =
               V2.set_drawStart w2 (V2.set_isDrawing true s2)).
  { unfold V2.handleMouseDown. rewrite Hm2, Hctrl.
    destruct (Z.eqb_spec (button e0) 2); [contradiction | reflexivity]. }
  rewrite D1, D2.
  rewrite V1_pen_moves; [| destruct s1; assumption | destruct s1; reflexivity
                         | destruct s1; assumption].
  rewrite V2_pen_moves; [| destruct s2; assumption | destruct s2; reflexivity
                         | destruct s2; assumption].
  split.
  - split; [| split; [apply segments_connected, V1_pen_segment_ends
                     | split; [unfold stroke1, V1_stroke_points;
                               now rewrite segments_length, length_map |]]].
    + subst stroke1 w1. destruct s1. simpl in Hp1, Ht1. subst.
      reflexivity.
    + destruct s1. simpl in Hp1. subst. reflexivity.
  - split; [| split; [apply segments_connected, V2_pen_segment_ends
                     | split; [unfold stroke2, V2_stroke_points;
                               rewrite segments_length, length_map, length_app;
                               simpl; lia |]]].
    + subst stroke2 w2. unfold V2_stroke_points. rewrite map_app.
      cbn [map fst snd]. rewrite segments_app.
      destruct s2. simpl in Hp2, Ht2. subst.
      cbn. rewrite <- app_assoc. reflexivity.
    + destruct s2. simpl in Hp2. subst. reflexivity.
Qed.

Lemma pen_stroke_is_polyline_witness :
  let ref := mounted_400x300 in
  let e0 := mouse_at 100 50 in
  let e1 := mouse_at 200 150 in
  let s2' := R2.run ref (R2_gesture e0 two_moves 1000 e1) v2_pen in
  let w2 := V2.screenToWorld ref v2_pen (clientX e0) (clientY e0) in
  let stroke2 :=
    segments (V2_pen_segment v2_pen) w2
             (V2_stroke_points ref v2_pen (two_moves ++ [(Fin 1000, e1)])) in
  V2.actions s2' = V2.actions v2_pen ++ stroke2 /\
  connected w2 stroke2 /\ List.length stroke2 = 3%nat /\
  V2.isDrawing s2' = false.
Proof.
  intros ref e0 e1.
  assert (Hb : button e0 <> 2%Z) by discriminate.
  destruct (pen_stroke_is_polyline
              ref (mkContainer (Some canvas_400x300))
              e0 e1 two_moves 1000 v1_pen v2_pen
              eq_refl eq_refl Hb eq_refl eq_refl eq_refl eq_refl eq_refl)
    as (_ & H1 & H2 & H3 & H4 & _).
  split; [exact H1 | split; [exact H2 | split; [exact H3 | exact H4]]].
Defined.

(** ** What the handlers do to the list of actions *)

Lemma sublist_refl {A : Type} (l : list A) : sublist l l.
Proof. induction l; constructor; assumption. Qed.

Lemma sublist_nil_l {A : Type} (l : list A) : sublist [] l.
Proof. induction l; constructor; assumption. Qed.

Lemma sublist_filter {A : Type} (f : A -> bool) (l1 l2 : list A) :
  sublist l1 l2 -> sublist (filter f l1) l2.
Proof.
  induction 1 as [| a l1 l2 H IH | a l1 l2 H IH]; simpl.
  - constructor.
  - now constructor.
  - destruct (f a); now constructor.
Qed.

Lemma sublist_removelast {A : Type} (l1 l2 : list A) :
  sublist l1 l2 -> sublist (removelast l1) l2.
Proof.
  induction 1 as [| a l1 l2 H IH | a l1 l2 H IH].
  - constructor.
  - now constructor.
  - destruct l1 as [| b l1].
    + simpl. constructor. apply sublist_nil_l.
    + change (removelast (a :: b :: l1)) with (a :: removelast (b :: l1)).
      now constructor.
Qed.

Lemma Forall_removelast {A : Type} (P : A -> Prop) (l : list A) :
  Forall P l -> Forall P (removelast l).
Proof.
  induction 1 as [| a l Ha Hl IH]; [constructor |].
  destruct l as [| b l]; [constructor |].
  change (removelast (a :: b :: l)) with (a :: removelast (b :: l)).
  now constructor.
Qed.

Lemma Forall_filter {A : Type} (P : A -> Prop) (f : A -> bool) (l : list A) :
  Forall P l -> Forall P (filter f l).
Proof.
  induction 1 as [| a l Ha Hl IH]; [constructor |].
  simpl. destruct (f a); [now constructor | assumption].
Qed.

(** One change keeps the shape "some of the old ones, in order, then only
    mine". *)
Lemma list_change_shape {A : Type} (mine : A -> Prop) (l0 l l' : list A) :
  list_change mine l l' ->
  (exists old new, l = old ++ new /\ sublist old l0 /\ Forall mine new) ->
  exists old new, l' = old ++ new /\ sublist old l0 /\ Forall mine new.
Proof.
  intros Hc (old & new & -> & Hs & Hf). inversion Hc; subst.
  - now exists old, new.
  - exists old, (new ++ [a]). rewrite app_assoc.
    split; [reflexivity | split; [assumption |]].
    apply Forall_app. split; [assumption | now constructor].
  - destruct new as [| b new].
    + rewrite app_nil_r. exists (removelast old), [].
      rewrite app_nil_r. split; [reflexivity |].
      split; [now apply sublist_removelast | constructor].
    + exists old, (removelast (b :: new)).
      split; [apply removelast_app; discriminate |].
      split; [assumption | now apply Forall_removelast].
  - exists (filter f old), (filter f new). rewrite filter_app.
    split; [reflexivity |].
    split; [now apply sublist_filter | now apply Forall_filter].
Qed.

Lemma V1_step_change ref ev s :
  let s' := R1.step ref ev s in
  V1_same_author s s' /\
  list_change (V1_authored s) (V1.drawActions s) (V1.drawActions s').
Proof.
  assert (Same : V1_same_author s s) by (repeat split).
  destruct ev as [e | now e | now e | e | k | | | | now]; cbn [R1.step]; cbv zeta.
  - unfold V1.handleMouseDown. destruct ref; [| split; [exact Same | constructor]].
    destruct (ctrlKey e); split; try exact Same; constructor.
  - unfold V1.handleMouseMove.
    destruct (V1.isPanning s); [split; [exact Same | constructor] |].
    destruct (V1.isDrawing s); cbn [negb]; [| split; [exact Same | constructor]].
    destruct (ToolType_eqb (V1.activeTool s) pen);
      [| split; [exact Same | constructor]].
    cbv zeta. split; [exact Same |]. destruct s; cbn.
    apply change_append. repeat split. now exists now.
  - unfold V1.handleMouseUp.
    destruct (V1.isPanning s); [split; [exact Same | constructor] |].
    destruct (V1.isDrawing s); cbn [negb]; [| split; [exact Same | constructor]].
    cbv zeta.
    destruct (ToolType_eqb (V1.activeTool s) arrow
              || ToolType_eqb (V1.activeTool s) circle
              || ToolType_eqb (V1.activeTool s) emoji);
      [| split; [exact Same | constructor]].
    split; [exact Same |]. destruct s; cbn.
    apply change_append. repeat split. now exists now.
  - unfold V1.handleWheel.
    destruct (find_canvas ref); split; try exact Same; constructor.
  - unfold V1.handleKeyDown.
    destruct (String.eqb (key k) "Backspace").
    + split; [exact Same |]. unfold V1.setDrawActions; cbn [V1.drawActions].
      rewrite slice_drops_last. constructor.
    + cbv zeta.
      destruct ((key_ctrlKey k || key_metaKey k)
                && String.eqb (toLowerCase (key k)) "z");
        [| split; [exact Same | constructor]].
      split; [exact Same |]. unfold V1.setDrawActions; cbn [V1.drawActions].
      rewrite slice_drops_last. constructor.
  - unfold V1.zoomIn, V1.zoomAroundCenter.
    destruct (find_canvas ref); split; try exact Same; constructor.
  - unfold V1.zoomOut, V1.zoomAroundCenter.
    destruct (find_canvas ref); split; try exact Same; constructor.
  - split; [exact Same | constructor].
  - split; [exact Same |]. destruct s; cbn. constructor.
Qed.

Lemma V2_undoHandler_change (mine : DrawAction -> Prop) k s :
  V2_same_author s (V2.undoHandler k s) /\
  list_change mine (V2.actions s) (V2.actions (V2.undoHandler k s)).
Proof.
  assert (Same : V2_same_author s s) by (repeat split).
  unfold V2.undoHandler.
  destruct (String.eqb (key k) "Backspace").
  - split; [exact Same |]. unfold V2.setActions; cbn [V2.actions].
    rewrite slice_drops_last. constructor.
  - cbv zeta.
    destruct ((key_ctrlKey k || key_metaKey k)
              && String.eqb (toLowerCase (key k)) "z");
      [| split; [exact Same | constructor]].
    split; [exact Same |]. unfold V2.setActions; cbn [V2.actions].
    rewrite slice_drops_last. constructor.
Qed.

Lemma V2_thicknessHandler_frame k s :
  V2.actions (V2.thicknessHandler k s) = V2.actions s /\
  V2_same_identity s (V2.thicknessHandler k s) /\
  (V2.THICK_PRESETS (key k) = None -> V2.thicknessHandler k s = s).
Proof.
  unfold V2.thicknessHandler.
  destruct (V2.THICK_PRESETS (key k)) as [w |].
  - destruct (truthy w); repeat split; discriminate.
  - repeat split.
Qed.

Lemma V2_same_author_identity s s' : V2_same_author s s' -> V2_same_identity s s'.
Proof. intros (E1 & E2 & _ & _ & E5). now repeat split. Qed.

Lemma V2_same_identity_trans s0 s s' :
  V2_same_identity s0 s -> V2_same_identity s s' -> V2_same_identity s0 s'.
Proof.
  intros (E1 & E2 & E3) (F1 & F2 & F3).
  unfold V2_same_identity. rewrite F1, F2, F3. now repeat split.
Qed.

(** One event: the identity stays, the style stays unless the event sets
    it, and the list of actions changes in one of four ways. *)
Lemma V2_step_change ref ev s :
  let s' := R2.step ref ev s in
  V2_same_identity s s' /\
  (R2_sets_style ev = false -> V2_same_author s s') /\
  list_change (V2_authored s) (V2.actions s) (V2.actions s').
Proof.
  assert (Same : V2_same_author s s) by (repeat split).
  assert (Quiet : forall s',
             V2_same_author s s' ->
             list_change (V2_authored s) (V2.actions s) (V2.actions s') ->
             V2_same_identity s s' /\
             (R2_sets_style ev = false -> V2_same_author s s') /\
             list_change (V2_authored s) (V2.actions s) (V2.actions s')).
  { intros s' Hs Hc. split; [now apply V2_same_author_identity |]. now split. }
  destruct ev as [e | now e | now e | e | k | f | now | id | id | |];
    cbn [R2.step]; cbv zeta.
  - apply Quiet; unfold V2.handleMouseDown.
    + destruct (button e =? 2)%Z; [exact Same |].
      destruct (V2.menuOpen s); [exact Same |].
      destruct (ctrlKey e); exact Same.
    + destruct (button e =? 2)%Z; [constructor |].
      destruct (V2.menuOpen s); [constructor |].
      destruct (ctrlKey e); constructor.
  - apply Quiet; unfold V2.handleMouseMove.
    + destruct (V2.isPanning s); [exact Same |].
      destruct (V2.isDrawing s && ToolType_eqb (V2.currentTool s) pen); exact Same.
    + destruct (V2.isPanning s); [constructor |].
      destruct (V2.isDrawing s && ToolType_eqb (V2.currentTool s) pen);
        [| constructor].
      cbv zeta. destruct s; cbn.
      apply change_append. repeat split. now exists now.
  - apply Quiet; unfold V2.handleMouseUp.
    + destruct (V2.isPanning s); [exact Same |].
      destruct (V2.isDrawing s); exact Same.
    + destruct (V2.isPanning s); [constructor |].
      destruct (V2.isDrawing s); cbn [negb]; [| constructor].
      cbv zeta. destruct s; cbn.
      apply change_append. repeat split. now exists now.
  - apply Quiet; unfold V2.handleWheel;
      destruct (find_canvas ref); try exact Same; constructor.
  - destruct (V2_thicknessHandler_frame k s) as (Ta & Ti & Tn).
    destruct (V2_undoHandler_change (V2_authored s) k (V2.thicknessHandler k s))
      as [Us Uc].
    rewrite Ta in Uc.
    split; [| split; [| exact Uc]].
    + eapply V2_same_identity_trans;
        [exact Ti | now apply V2_same_author_identity].
    + intro Hq. cbn [R2_sets_style] in Hq.
      destruct (V2.THICK_PRESETS (key k)) eqn:E; [discriminate |].
      rewrite (Tn eq_refl) in Us |- *. exact Us.
  - apply Quiet; unfold V2.zoomByFactor; cbv zeta;
      destruct (find_canvas ref); try exact Same; constructor.
  - apply Quiet; [exact Same |]. destruct s; cbn. constructor.
  - apply Quiet; destruct (V2.menuOpen s); try exact Same; constructor.
  - destruct (V2.menuOpen s); [| apply Quiet; [exact Same | constructor]].
    split; [| split; [intro H; discriminate H |]].
    + unfold V2_same_identity. destruct id; cbn; auto.
    + destruct id; cbn; constructor.
  - destruct (V2.menuOpen s); [| apply Quiet; [exact Same | constructor]].
    split; [| split; [intro H; discriminate H |]].
    + unfold V2_same_identity. destruct (V2.hoverId s) as [[c | t] |]; cbn; auto.
    + destruct (V2.hoverId s) as [[c | t] |]; cbn; constructor.
  - apply Quiet; destruct (V2.menuOpen s); try exact Same; constructor.
Qed.

Lemma list_change_mono {A : Type} (P Q : A -> Prop) (l l' : list A) :
  (forall a, P a -> Q a) -> list_change P l l' -> list_change Q l l'.
Proof. intros H Hc. inversion Hc; subst; constructor. now apply H. Qed.

Lemma V1_authored_same s0 s a :
  V1_same_author s0 s -> V1_authored s a -> V1_authored s0 a.
Proof.
  intros (E1 & E2 & E3 & E4 & E5) (A1 & A2 & A3 & A4 & now & A5).
  unfold V1_authored. rewrite A1, A2, A3, A4, A5, E1, E2, E3, E4.
  repeat split. exists now. unfold V1.newExpireAt. now rewrite E5.
Qed.

Lemma V2_authored_same s0 s a :
  V2_same_author s0 s -> V2_authored s a -> V2_authored s0 a.
Proof.
  intros (E1 & E2 & E3 & E4 & E5) (A1 & A2 & A3 & A4 & now & A5).
  unfold V2_authored. rewrite A1, A2, A3, A4, A5, E1, E2, E3, E4.
  repeat split. exists now. unfold V2_newExpireAt. now rewrite E5.
Qed.

Lemma V1_same_author_trans s0 s s' :
  V1_same_author s0 s -> V1_same_author s s' -> V1_same_author s0 s'.
Proof.
  intros (E1 & E2 & E3 & E4 & E5) (F1 & F2 & F3 & F4 & F5).
  unfold V1_same_author. rewrite F1, F2, F3, F4, F5. now repeat split.
Qed.

Lemma V2_same_author_trans s0 s s' :
  V2_same_author s0 s -> V2_same_author s s' -> V2_same_author s0 s'.
Proof.
  intros (E1 & E2 & E3 & E4 & E5) (F1 & F2 & F3 & F4 & F5).
  unfold V2_same_author. rewrite F1, F2, F3, F4, F5. now repeat split.
Qed.

Lemma V1_run_shape ref evs s0 : forall s,
  V1_same_author s0 s ->
  (exists old new, V1.drawActions s = old ++ new /\
                   sublist old (V1.drawActions s0) /\ Forall (V1_authored s0) new) ->
  V1_same_author s0 (R1.run ref evs s) /\
  exists old new, V1.drawActions (R1.run ref evs s) = old ++ new /\
                  sublist old (V1.drawActions s0) /\ Forall (V1_authored s0) new.
Proof.
  induction evs as [| ev evs IH]; intros s Hs Hl; [now split |].
  destruct (V1_step_change ref ev s) as [Hs' Hc].
  change (R1.run ref (ev :: evs) s) with (R1.run ref evs (R1.step ref ev s)).
  apply IH.
  - eapply V1_same_author_trans; eassumption.
  - eapply list_change_shape; [| exact Hl].
    eapply list_change_mono; [| exact Hc].
    intros a Ha. eapply V1_authored_same; eassumption.
Qed.

Lemma V2_run_shape ref evs s0 : forall s,
  Forall (fun ev => R2_sets_style ev = false) evs ->
  V2_same_author s0 s ->
  (exists old new, V2.actions s = old ++ new /\
                   sublist old (V2.actions s0) /\ Forall (V2_authored s0) new) ->
  V2_same_author s0 (R2.run ref evs s) /\
  exists old new, V2.actions (R2.run ref evs s) = old ++ new /\
                  sublist old (V2.actions s0) /\ Forall (V2_authored s0) new.
Proof.
  induction evs as [| ev evs IH]; intros s Hq Hs Hl; [now split |].
  inversion Hq as [| ev' evs' Hev Hevs]; subst ev' evs'.
  destruct (V2_step_change ref ev s) as (_ & Hs' & Hc).
  change (R2.run ref (ev :: evs) s) with (R2.run ref evs (R2.step ref ev s)).
  apply IH; [exact Hevs | |].
  - eapply V2_same_author_trans; [eassumption | exact (Hs' Hev)].
  - eapply list_change_shape; [| exact Hl].
    eapply list_change_mono; [| exact Hc].
    intros a Ha. eapply V2_authored_same; eassumption.
Qed.

Lemma V2_run_identity ref evs : forall s, V2_same_identity s (R2.run ref evs s).
Proof.
  induction evs as [| ev evs IH]; intro s; [now repeat split |].
  change (R2.run ref (ev :: evs) s) with (R2.run ref evs (R2.step ref ev s)).
  destruct (V2_step_change ref ev s) as (Hi & _).
  eapply V2_same_identity_trans; [exact Hi | apply IH].
Qed.

Lemma V2_authored_along_now ref done s a :
  V2_authored (R2.run ref done s) a -> V2_authored_along ref (done ++ []) s a.
Proof.
  intros (A1 & A2 & A3 & A4 & now & A5).
  destruct (V2_run_identity ref done s) as (E1 & E2 & E3).
  unfold V2_authored_along. rewrite A1, A2, E1, E2.
  split; [reflexivity | split; [reflexivity | split]].
  - exists now. rewrite A5. unfold V2_newExpireAt. now rewrite E3.
  - exists done, []. now repeat split.
Qed.

Lemma V2_authored_along_more ref evs ev s a :
  V2_authored_along ref evs s a -> V2_authored_along ref (evs ++ [ev]) s a.
Proof.
  intros (A1 & A2 & A3 & done & rest & -> & A4 & A5).
  split; [exact A1 | split; [exact A2 | split; [exact A3 |]]].
  exists done, (rest ++ [ev]). rewrite app_assoc. now repeat split.
Qed.

Lemma V2_run_along ref s0 evs : forall done,
  (exists old new, V2.actions (R2.run ref done s0) = old ++ new /\
                   sublist old (V2.actions s0) /\
                   Forall (V2_authored_along ref done s0) new) ->
  exists old new, V2.actions (R2.run ref (done ++ evs) s0) = old ++ new /\
                  sublist old (V2.actions s0) /\
                  Forall (V2_authored_along ref (done ++ evs) s0) new.
Proof.
  induction evs as [| ev evs IH]; intros done Hl.
  - now rewrite app_nil_r.
  - replace (done ++ ev :: evs) with ((done ++ [ev]) ++ evs)
      by (rewrite <- app_assoc; reflexivity).
    apply IH. rewrite V2_run_app.
    change (R2.run ref [ev] (R2.run ref done s0))
      with (R2.step ref ev (R2.run ref done s0)).
    destruct (V2_step_change ref ev (R2.run ref done s0)) as (_ & _ & Hc).
    eapply list_change_shape.
    + eapply list_change_mono; [| exact Hc].
      intros a Ha. apply V2_authored_along_more.
      rewrite <- (app_nil_r done). now apply V2_authored_along_now.
    + destruct Hl as (old & new & E & Hs & Hf).
      exists old, new. split; [exact E | split; [exact Hs |]].
      eapply Forall_impl; [| exact Hf].
      intros a Ha. now apply V2_authored_along_more.
Qed.

(** X12 -- the handlers only append the user's own actions.  After any
    run of the events of the canvas and the window (mouse, wheel, keys,
    zoom buttons, sweeps, and in part_001 the radial menu; in any order,
    whether or not they form whole gestures), the list of actions is some of
    the actions it held before, in their original order, followed by
    actions that carry the user's id and name and an expiry computed from
    the user's fade setting.  No handler alters, reorders or duplicates an
    action that is already there, and none records one in another user's
    name.  In part_000 these events touch none of the settings, and the new
    actions carry the user's colour and line width.  In part_001 the keys 1
    to 4 set the line width and a slice of the radial menu sets the colour
    or the tool: there the id, the name and the fade setting stay, and a new
    action carries the colour and the line width of the state reached at
    some point of the run; in a run without preset keys, slice clicks and
    leaves of the menu the colour and the line width stay too, and the new
    actions carry them. *)
Theorem actions_grow_by_own_only
        (containerRef : option Container)
        (evs1 : list R1.Event) (evs2 : list R2.Event)
        (s1 : V1.State) (s2 : V2.State) :
  let s1' := R1.run containerRef evs1 s1 in
  let s2' := R2.run containerRef evs2 s2 in
  (V1_same_author s1 s1' /\
   exists old new, V1.drawActions s1' = old ++ new /\
                   sublist old (V1.drawActions s1) /\
                   Forall (V1_authored s1) new) /\
  (V2_same_identity s2 s2' /\
   exists old new, V2.actions s2' = old ++ new /\
                   sublist old (V2.actions s2) /\
                   Forall (V2_authored_along containerRef evs2 s2) new) /\
  (Forall (fun ev => R2_sets_style ev = false) evs2 ->
   V2_same_author s2 s2' /\
   exists old new, V2.actions s2' = old ++ new /\
                   sublist old (V2.actions s2) /\
                   Forall (V2_authored s2) new).
Proof.
  split; [| split].
  - apply V1_run_shape; [repeat split |].
    exists (V1.drawActions s1), []. rewrite app_nil_r.
    split; [reflexivity | split; [apply sublist_refl | constructor]].
  - split; [apply V2_run_identity |].
    apply (V2_run_along containerRef s2 evs2 []).
    exists (V2.actions s2), []. cbn [R2.run fold_left]. rewrite app_nil_r.
    split; [reflexivity | split; [apply sublist_refl | constructor]].
  - intro Hq. apply V2_run_shape; [exact Hq | repeat split |].
    exists (V2.actions s2), []. rewrite app_nil_r.
    split; [reflexivity | split; [apply sublist_refl | constructor]].
Qed.

Lemma actions_grow_by_own_only_witness :
  let ref := mounted_400x300 in
  let quiet := [R2.MouseDown (mouse_at 100 50); R2.KeyDown key_plain_z;
                R2.MouseUp 1000 (mouse_at 140 70); R2.FadeTick 3000] in
  let s2 := v2_with None 2 30 40 in
  V2_same_author s2 (R2.run ref quiet s2) /\
  exists old new, V2.actions (R2.run ref quiet s2) = old ++ new /\
                  sublist old (V2.actions s2) /\
                  Forall (V2_authored s2) new.
Proof.
  intros ref quiet s2.
  apply (actions_grow_by_own_only ref [] quiet (v1_with None 1 0 0) s2).
  repeat constructor.
Defined.

(** ** Clicks that belong to the radial menu *)

Lemma V2_idle_moves ref ms : forall s,
  V2.isPanning s = false -> V2.isDrawing s = false ->
  R2.run ref (R2_moves ms) s = s.
Proof.
  induction ms as [| [now e] ms IH]; intros s Hp Hd; [reflexivity |].
  change (R2.run ref (R2_moves ((now, e) :: ms)) s)
    with (R2.run ref (R2_moves ms) (V2.handleMouseMove ref now e s)).
  assert (E : V2.handleMouseMove ref now e s = s).
  { unfold V2.handleMouseMove. now rewrite Hp, Hd. }
  rewrite E. now apply IH.
Qed.

Lemma V2_idle_up ref now e s :
  V2.isPanning s = false -> V2.isDrawing s = false ->
  V2.handleMouseUp ref now e s = s.
Proof. intros Hp Hd. unfold V2.handleMouseUp. now rewrite Hp, Hd. Qed.

Lemma V2_menu_only_refl s : V2_menu_only s s.
Proof. destruct s; reflexivity. Qed.

Lemma V2_menu_only_trans s0 s s' :
  V2_menu_only s0 s -> V2_menu_only s s' -> V2_menu_only s0 s'.
Proof.
  unfold V2_menu_only. intros H1 H2. rewrite H2. rewrite H1.
  destruct s0; reflexivity.
Qed.

Lemma V2_menu_only_frame s s' :
  V2_menu_only s s' ->
  V2.actions s' = V2.actions s /\ V2.scale s' = V2.scale s /\
  V2.pan s' = V2.pan s /\ V2.isPanning s' = V2.isPanning s /\
  V2.isDrawing s' = V2.isDrawing s /\ V2.lineWidth s' = V2.lineWidth s /\
  V2_same_identity s s'.
Proof.
  unfold V2_menu_only, V2_same_identity. intro H. rewrite H.
  destruct s; cbn. repeat split.
Qed.

(** An event of the pointer or of the menu, with no gesture under way. *)
Lemma V2_menu_step ref ev s :
  R2_pointer_or_menu ev = true ->
  V2.isPanning s = false -> V2.isDrawing s = false ->
  V2_menu_only s (R2.step ref ev s).
Proof.
  intros Hev Hp Hd.
  destruct ev as [e | now e | now e | e | k | f | now | id | id | |];
    try discriminate Hev; cbn [R2.step].
  - unfold V2.handleMouseMove. rewrite Hp, Hd. apply V2_menu_only_refl.
  - rewrite V2_idle_up by assumption. apply V2_menu_only_refl.
  - destruct (V2.menuOpen s); destruct s; reflexivity.
  - destruct (V2.menuOpen s); [| apply V2_menu_only_refl].
    destruct id; destruct s; reflexivity.
  - destruct (V2.menuOpen s); [| apply V2_menu_only_refl].
    destruct (V2.hoverId s) as [[c | t] |] eqn:E;
      [| | apply V2_menu_only_refl]; destruct s; reflexivity.
  - destruct (V2.menuOpen s); destruct s; reflexivity.
Qed.

Lemma V2_menu_run ref evs : forall s,
  forallb R2_pointer_or_menu evs = true ->
  V2.isPanning s = false -> V2.isDrawing s = false ->
  V2_menu_only s (R2.run ref evs s).
Proof.
  induction evs as [| ev evs IH]; intros s Hevs Hp Hd;
    [apply V2_menu_only_refl |].
  cbn [forallb] in Hevs. apply andb_prop in Hevs. destruct Hevs as [Hev Hevs].
  change (R2.run ref (ev :: evs) s) with (R2.run ref evs (R2.step ref ev s)).
  pose proof (V2_menu_step ref ev s Hev Hp Hd) as Hs.
  destruct (V2_menu_only_frame _ _ Hs) as (_ & _ & _ & Fp & Fd & _).
  eapply V2_menu_only_trans; [exact Hs |].
  apply IH; [exact Hevs | now rewrite Fp | now rewrite Fd].
Qed.

Lemma V2_down_for_menu ref e s :
  button e = 2%Z \/ V2.menuOpen s = true ->
  V2.handleMouseDown ref e s =
  if (button e =? 2)%Z
  then V2.setMenuOpen true (V2.setMenuPos (mkPoint (clientX e) (clientY e)) s)
  else V2.setMenuOpen false s.
Proof.
  intro Hm. unfold V2.handleMouseDown.
  destruct (Z.eqb_spec (button e) 2) as [E2 | N2]; [reflexivity |].
  destruct Hm as [H | H]; [contradiction | now rewrite H].
Qed.

(** X13 -- menu clicks draw nothing.  In variant 2, from a state with no
    gesture under way, a button-down with the right button opens the radial
    menu at the place of the button-down, and one with any other button
    while the menu is open closes the menu, Ctrl held or not.  If only
    moves and a button-up follow, that is all that changes.  Whatever
    follows before the next button-down -- moves, button-ups, and the
    events of the menu (entering a slice, clicking one, leaving the menu,
    clicking its centre) -- only the user's colour, the tool and the menu's
    own state can change: no action is recorded, the view does not move, no
    gesture is left under way.  After a right button-down, entering a slice
    and then leaving the menu commits the slice: it sets the colour, or the
    tool, to the slice's value, clears the hover and closes the menu. *)
Theorem menu_clicks_draw_nothing
        (containerRef : option Container)
        (e0 e1 : MouseEvent) (ms : list (number * MouseEvent)) (now : number)
        (s : V2.State) :
  V2.isPanning s = false -> V2.isDrawing s = false ->
  button e0 = 2%Z \/ V2.menuOpen s = true ->
  let s' := R2.run containerRef (R2_gesture e0 ms now e1) s in
  (s' = (if (button e0 =? 2)%Z
         then V2.setMenuOpen true (V2.setMenuPos (mkPoint (clientX e0) (clientY e0)) s)
         else V2.setMenuOpen false s) /\
   V2.actions s' = V2.actions s /\
   V2.scale s' = V2.scale s /\ V2.pan s' = V2.pan s /\
   V2.isPanning s' = false /\ V2.isDrawing s' = false) /\
  (forall evs, forallb R2_pointer_or_menu evs = true ->
     let s'' := R2.run containerRef (R2.MouseDown e0 :: evs) s in
     V2_menu_only s s'' /\
     V2.actions s'' = V2.actions s /\
     V2.scale s'' = V2.scale s /\ V2.pan s'' = V2.pan s /\
     V2.isPanning s'' = false /\ V2.isDrawing s'' = false) /\
  (forall id ms1 ms2, button e0 = 2%Z ->
     let s'' := R2.run containerRef
                  (R2.MouseDown e0 :: R2_moves ms1 ++
                   R2.SliceEnter id :: R2_moves ms2 ++ [R2.MenuLeave]) s in
     V2_picked id s s'' /\ V2.menuOpen s'' = false /\ V2.hoverId s'' = None).
Proof.
  intros Hp Hd Hm s'.
  pose proof (V2_down_for_menu containerRef e0 s Hm) as D.
  assert (Idle : V2.isPanning (V2.handleMouseDown containerRef e0 s) = false /\
                 V2.isDrawing (V2.handleMouseDown containerRef e0 s) = false).
  { rewrite D. destruct (button e0 =? 2)%Z; destruct s; split; assumption. }
  destruct Idle as [Ip Id].
  assert (Down : V2_menu_only s (V2.handleMouseDown containerRef e0 s)).
  { rewrite D. destruct (button e0 =? 2)%Z; destruct s; reflexivity. }
  assert (E : s' = V2.handleMouseDown containerRef e0 s).
  { subst s'. unfold R2_gesture.
    change (R2.run containerRef
              (R2.MouseDown e0 :: R2_moves ms ++ [R2.MouseUp now e1]) s)
      with (R2.run containerRef (R2_moves ms ++ [R2.MouseUp now e1])
              (V2.handleMouseDown containerRef e0 s)).
    rewrite V2_run_app, V2_idle_moves by assumption.
    cbn [R2.run fold_left R2.step]. now apply V2_idle_up. }
  split; [| split].
  - destruct (V2_menu_only_frame _ _ Down) as (Fa & Fs & Fq & _).
    rewrite E. split; [exact D |].
    split; [exact Fa |]. split; [exact Fs |]. split; [exact Fq |].
    split; assumption.
  - intros evs Hevs s''.
    assert (M : V2_menu_only s s'').
    { eapply V2_menu_only_trans; [exact Down |].
      subst s''. change (R2.run containerRef (R2.MouseDown e0 :: evs) s)
        with (R2.run containerRef evs (V2.handleMouseDown containerRef e0 s)).
      now apply V2_menu_run. }
    destruct (V2_menu_only_frame _ _ M) as (Fa & Fs & Fq & Fp & Fd & _).
    split; [exact M |].
    split; [exact Fa |]. split; [exact Fs |]. split; [exact Fq |].
    split; [now rewrite Fp | now rewrite Fd].
  - intros id ms1 ms2 Hb s''. subst s''.
    change (R2.run containerRef
              (R2.MouseDown e0 :: R2_moves ms1 ++
               R2.SliceEnter id :: R2_moves ms2 ++ [R2.MenuLeave]) s)
      with (R2.run containerRef
              (R2_moves ms1 ++ R2.SliceEnter id :: R2_moves ms2 ++ [R2.MenuLeave])
              (V2.handleMouseDown containerRef e0 s)).
    rewrite V2_run_app, V2_idle_moves by assumption.
    change (R2.run containerRef
              (R2.SliceEnter id :: R2_moves ms2 ++ [R2.MenuLeave])
              (V2.handleMouseDown containerRef e0 s))
      with (R2.run containerRef (R2_moves ms2 ++ [R2.MenuLeave])
              (R2.step containerRef (R2.SliceEnter id)
                 (V2.handleMouseDown containerRef e0 s))).
    rewrite D. apply Z.eqb_eq in Hb. rewrite Hb.
    rewrite V2_run_app, V2_idle_moves by (destruct s; assumption).
    destruct id; destruct s; cbn; repeat split.
Qed.

Lemma menu_clicks_draw_nothing_witness :
  let e0 := mkMouse 100 50 2 true 0 in
  let s := v2_with None 2 30 40 in
  let s' := R2.run mounted_400x300 (R2_gesture e0 two_moves 1000 (mouse_at 200 150)) s in
  let s'' := R2.run mounted_400x300
               (R2.MouseDown e0 :: R2_moves two_moves ++
                R2.SliceEnter (slice_id orange_slice) :: R2_moves two_moves ++
                [R2.MenuLeave]) s in
  s' = V2.setMenuOpen true (V2.setMenuPos (mkPoint 100 50) s) /\
  V2.actions s' = V2.actions s /\
  V2.actions (R2.run mounted_400x300
                [R2.MouseDown e0; R2.SliceClick (V2.toolId pen);
                 R2.MouseMove 0 (mouse_at 120 80); R2.MouseUp 1 (mouse_at 120 80)] s)
  = V2.actions s /\
  V2.userColour s'' = "#f59e0b"%string /\ V2.menuOpen s'' = false.
Proof.
  intros e0 s.
  pose proof (menu_clicks_draw_nothing mounted_400x300 e0 (mouse_at 200 150)
                two_moves 1000 s eq_refl eq_refl (or_introl eq_refl)) as H.
  destruct H as ((H1 & H2 & _) & Hm & Hc).
  split; [exact H1 | split; [exact H2 | split]].
  - exact (proj1 (proj2 (Hm [R2.SliceClick (V2.toolId pen);
                             R2.MouseMove 0 (mouse_at 120 80);
                             R2.MouseUp 1 (mouse_at 120 80)] eq_refl))).
  - destruct (Hc (slice_id orange_slice) two_moves two_moves eq_refl)
      as ([Hcol _] & Ho & _).
    split; [exact Hcol | exact Ho].
Defined.

(** ** Loading a background *)

Lemma V1_upload_inv ref lock file c k :
  V1_handleFileUpload ref lock file c = Some k ->
  lock = false /\ (exists f, file = Some f /\ is_image f = true) /\
  k = V1_img_onload ref c.
Proof.
  unfold V1_handleFileUpload. destruct lock; [discriminate |].
  destruct file as [f |]; [| discriminate].
  destruct (is_image f) eqn:E; [| discriminate].
  intro H. injection H as <-. split; [reflexivity |].
  split; [now exists f | reflexivity].
Qed.

Lemma V2_upload_inv ref lock file c k :
  V2_handleFileUpload ref lock file c = Some k ->
  lock = false /\ (exists f, file = Some f /\ is_image f = true) /\
  k = V2_img_onload ref c.
Proof.
  unfold V2_handleFileUpload. destruct lock; [discriminate |].
  destruct file as [f |]; [| discriminate].
  destruct (is_image f) eqn:E; [| discriminate].
  intro H. injection H as <-. split; [reflexivity |].
  split; [now exists f | reflexivity].
Qed.

(** X14 -- an upload clamps by the bounds of the render that started it.
    When [handleFileUpload] arranges for a load at all, the lock is off and
    the file's type starts with [image/].  When the image has loaded, it is
    the background, and scale and actions are as they were; but the pan is
    clamped with the background of the render in which the file was picked,
    not with the image just loaded: variant 1 writes the clamp of that
    render's pan, variant 2 the clamp of the current pan.  So an upload
    onto an empty map leaves the pan of variant 2 exactly as it is, and
    sets that of variant 1 back to what it was when the file was picked. *)
Theorem upload_clamps_by_old_bounds
        (containerRef : option Container) (lock : bool) (file : option File)
        (img : Image) (c1 s1 : V1.State) (c2 s2 : V2.State)
        (k1 : Image -> V1.State -> V1.State) (k2 : Image -> V2.State -> V2.State) :
  V1_handleFileUpload containerRef lock file c1 = Some k1 ->
  V2_handleFileUpload containerRef lock file c2 = Some k2 ->
  let s1' := k1 img s1 in
  let s2' := k2 img s2 in
  (lock = false /\ exists f, file = Some f /\ is_image f = true) /\
  (V1.backgroundImage s1' = Some img /\ V1.scale s1' = V1.scale s1 /\
   V1.drawActions s1' = V1.drawActions s1 /\
   V1_pan s1' = V1.clampPan containerRef c1 (V1.panX c1) (V1.panY c1) (V1.scale c1) /\
   (V1.backgroundImage c1 = None -> V1_pan s1' = V1_pan c1)) /\
  (V2.bgImage s2' = Some img /\ V2.scale s2' = V2.scale s2 /\
   V2.actions s2' = V2.actions s2 /\
   V2.pan s2' = V2.clampPan containerRef c2 (x (V2.pan s2)) (y (V2.pan s2))
                            (V2.scale c2) /\
   (V2.bgImage c2 = None -> s2' = V2_setBgImage (Some img) s2)).
Proof.
  intros H1 H2 s1' s2'.
  destruct (V1_upload_inv _ _ _ _ _ H1) as (Hl & Hf & E1).
  destruct (V2_upload_inv _ _ _ _ _ H2) as (_ & _ & E2).
  subst s1' s2' k1 k2. split; [now split |]. split.
  - unfold V1_img_onload, V1_pan. cbv zeta. simpl.
    repeat split; try reflexivity.
    + now destruct (V1.clampPan _ _ _ _ _).
    + intro Hb. now rewrite V1_clampPan_no_bg by exact Hb.
  - unfold V2_img_onload. cbv zeta. simpl.
    repeat split; try reflexivity.
    intro Hb. unfold V2.setPan. simpl.
    rewrite V2_clampPan_no_bg by exact Hb. rewrite point_eta.
    now destruct s2.
Qed.

Lemma upload_clamps_by_old_bounds_witness :
  let ref := mounted_400x300 in
  let c2 := v2_with None 1 0 0 in
  let s2 := v2_with None 1 500 20 in
  V2_img_onload ref c2 bg_800x600 s2 = V2_setBgImage (Some bg_800x600) s2.
Proof.
  intros ref c2 s2.
  pose proof (upload_clamps_by_old_bounds ref false (Some png_file) bg_800x600
                (v1_with None 1 0 0) (v1_with None 1 500 20) c2 s2
                _ _ eq_refl eq_refl) as H.
  destruct H as (_ & _ & _ & _ & _ & _ & H). exact (H eq_refl).
Defined.

Lemma V2_onload_ready ref c img s :
  finite_dom ref (V2.bgImage c) -> scale_ok (V2.scale c) ->
  scale_ok (V2.scale s) -> finite_point (V2.pan s) ->
  let s' := V2_img_onload ref c img s in
  V2.bgImage s' = Some img /\ V2.scale s' = V2.scale s /\
  V2.panStart s' = V2.panStart s /\ V2.isPanning s' = V2.isPanning s /\
  finite_point (V2.pan s').
Proof.
  intros Hd Hc Hs Hp. unfold V2_img_onload. cbv zeta. simpl.
  repeat split; try reflexivity;
    destruct (scale_ok_inv _ Hc) as [Ec Hq];
    rewrite (finite_point_inv _ Hp), Ec; cbn [x y];
    apply (V2_clampPan_spec ref c _ _ _ Hd Hq).
Qed.

Lemma V1_onload_ready ref c img s :
  finite_dom ref (V1.backgroundImage c) -> scale_ok (V1.scale c) ->
  finite_point (V1_pan c) ->
  let s' := V1_img_onload ref c img s in
  V1.backgroundImage s' = Some img /\ V1.scale s' = V1.scale s /\
  V1.panStart s' = V1.panStart s /\ V1.isPanning s' = V1.isPanning s /\
  finite_point (V1_pan s').
Proof.
  intros Hd Hc [Fx Fy]. unfold V1_img_onload, V1_pan. cbv zeta. simpl.
  simpl in Fx, Fy.
  repeat split; try reflexivity;
    destruct (scale_ok_inv _ Hc) as [Ec Hq];
    rewrite (finite_inv _ Fx), (finite_inv _ Fy), Ec;
    apply (V1_clampPan_spec ref c _ _ _ Hd Hq).
Qed.

(** X15 -- the bounds of a new background take hold at the next move of
    the view.  Right after an image has loaded onto an empty map, variant
    2 satisfies the viewport invariant for the new image exactly when the
    pan it already had happens to lie within the new bounds.  Whatever the
    map held before, the first wheel zoom, zoom button or pan move after
    the load clamps against the new image, and from then on the invariant
    holds, in both variants. *)
Theorem upload_bounds_take_hold_later
        (containerRef : option Container) (img : Image)
        (c1 s1 : V1.State) (c2 s2 : V2.State)
        (ev1 : R1.Event) (ev2 : R2.Event) :
  finite_dom containerRef (Some img) ->
  finite_dom containerRef (V1.backgroundImage c1) ->
  finite_dom containerRef (V2.bgImage c2) ->
  scale_ok (V1.scale c1) -> finite_point (V1_pan c1) ->
  scale_ok (V1.scale s1) -> finite_point (V1.panStart s1) ->
  scale_ok (V2.scale c2) ->
  scale_ok (V2.scale s2) -> finite_point (V2.pan s2) -> finite_point (V2.panStart s2) ->
  R1_finite_event ev1 -> R2_finite_event ev2 ->
  let s1' := V1_img_onload containerRef c1 img s1 in
  let s2' := V2_img_onload containerRef c2 img s2 in
  (V2.bgImage c2 = None ->
   (V2_viewport_ok containerRef s2' <->
    pan_ok (find_canvas containerRef) (Some img) (V2.scale s2) (V2.pan s2))) /\
  (R1_viewport_transition ev1 s1' = true ->
   V1_viewport_ok containerRef (R1.step containerRef ev1 s1') /\
   V1.backgroundImage (R1.step containerRef ev1 s1') = Some img) /\
  (R2_viewport_transition ev2 s2' = true ->
   V2_viewport_ok containerRef (R2.step containerRef ev2 s2') /\
   V2.bgImage (R2.step containerRef ev2 s2') = Some img).
Proof.
  intros Hdi Hd1 Hd2 Hc1 Hpc1 Hs1 Hps1 Hc2 Hs2 Hp2 Hps2 He1 He2 s1' s2'.
  destruct (V1_onload_ready containerRef c1 img s1 Hd1 Hc1 Hpc1)
    as (B1 & S1 & P1 & _ & F1).
  destruct (V2_onload_ready containerRef c2 img s2 Hd2 Hc2 Hs2 Hp2)
    as (B2 & S2 & P2 & _ & F2).
  fold s1' in B1, S1, P1, F1. fold s2' in B2, S2, P2, F2.
  split; [| split].
  - intro Hb. unfold V2_viewport_ok. rewrite B2, S2.
    assert (E : V2.pan s2' = V2.pan s2).
    { subst s2'. unfold V2_img_onload. cbv zeta. simpl.
      rewrite V2_clampPan_no_bg by exact Hb. apply point_eta. }
    rewrite E. tauto.
  - intro Ht. split.
    + apply V1_transition_ok; rewrite ?B1, ?S1, ?P1; assumption.
    + now rewrite V1_step_backgroundImage.
  - intro Ht. split.
    + apply V2_transition_ok; rewrite ?B2, ?S2, ?P2; assumption.
    + now rewrite V2_step_bgImage.
Qed.

Lemma upload_bounds_take_hold_later_witness :
  let ref := mounted_400x300 in
  let c2 := v2_with None 1 0 0 in
  let s2 := v2_with None 1 500 20 in
  let s2' := V2_img_onload ref c2 bg_800x600 s2 in
  ~ V2_viewport_ok ref s2' /\
  V2_viewport_ok ref (R2.step ref (R2.Wheel wheel_up_100_50) s2').
Proof.
  intros ref c2 s2.
  assert (Hdi : finite_dom ref (Some bg_800x600)) by (vm_compute; tauto).
  assert (Hdn : finite_dom ref None) by (vm_compute; tauto).
  assert (Hs : scale_ok (Fin 1)) by (split; [exact I | split; vm_compute; discriminate]).
  assert (Hp0 : finite_point (mkPoint 0 0)) by (split; exact I).
  assert (Hp : finite_point (mkPoint 500 20)) by (split; exact I).
  assert (He : finite_mouse wheel_up_100_50) by (split; exact I).
  pose proof (upload_bounds_take_hold_later ref bg_800x600
                (v1_with None 1 0 0) (v1_with None 1 500 20) c2 s2
                (R1.Wheel wheel_up_100_50) (R2.Wheel wheel_up_100_50)
                Hdi Hdn Hdn Hs Hp0 Hs Hp0 Hs Hs Hp Hp0 He He) as H.
  destruct H as (H1 & _ & H3). split.
  - intro Hok. apply (H1 eq_refl) in Hok.
    destruct Hok as (_ & _ & [[_ Hx] _]). vm_compute in Hx. now apply Hx.
  - exact (proj1 (H3 eq_refl)).
Defined.

(** ** What a paint of variant 2 issues *)

Section PaintCalls.
Context {M : MathLib}.

Lemma V2_paintAction_emits (ctx : Context2D) (act : DrawAction) :
  exists new,
    calls (V2.paintAction ctx act) = calls ctx ++ new /\
    Forall (painted_for act) new /\
    List.length (filter is_stroke new) = (if uses_stroke act then 1 else 0)%nat /\
    List.length (filter is_fill new) = (if uses_fill act then 1 else 0)%nat /\
    List.length (filter is_fillText new) = (if uses_fillText act then 1 else 0)%nat /\
    transform (V2.paintAction ctx act) = transform ctx.
Proof.
  destruct ctx as [ss fs w f t cs].
  destruct act as [uid un col tl lw st en em ex].
  unfold uses_stroke, uses_fill, uses_fillText.
  destruct tl;
    cbv beta iota zeta delta
        [V2.paintAction V2.drawArrow V2.drawCircle call ctx_stroke ctx_fill
         ctx_fillText set_fillStyle set_strokeStyle set_lineWidth set_font
         calls strokeStyle fillStyle ctx_lineWidth font transform
         Act.tool Act.color Act.lineWidth Act.start Act.end_ Act.emoji_
         ToolType_eqb negb];
    rewrite <- ?app_assoc; cbn [app];
    (eexists; split; [reflexivity |]);
    (split; [repeat constructor; cbn; try discriminate |]);
    repeat split; reflexivity.
Qed.

Lemma V2_fold_paint_emits (acts : list DrawAction) : forall ctx,
  exists new,
    calls (fold_left V2.paintAction acts ctx) = calls ctx ++ new /\
    Forall (fun c => exists act, In act acts /\ painted_for act c) new /\
    List.length (filter is_stroke new) = List.length (filter uses_stroke acts) /\
    List.length (filter is_fill new) = List.length (filter uses_fill acts) /\
    List.length (filter is_fillText new) = List.length (filter uses_fillText acts) /\
    transform (fold_left V2.paintAction acts ctx) = transform ctx.
Proof.
  induction acts as [| act acts IH]; intro ctx.
  - exists []. rewrite app_nil_r. repeat split; constructor.
  - destruct (V2_paintAction_emits ctx act) as (n1 & E1 & F1 & S1 & L1 & T1 & M1).
    destruct (IH (V2.paintAction ctx act)) as (n2 & E2 & F2 & S2 & L2 & T2 & M2).
    exists (n1 ++ n2). cbn [fold_left].
    rewrite E2, E1, <- app_assoc, M2, M1, !filter_app, !length_app, S1, S2, L1, L2,
      T1, T2.
    cbn [filter].
    split; [reflexivity |]. split.
    + apply Forall_app. split.
      * eapply Forall_impl; [| exact F1]. intros c Hc. exists act.
        split; [now left | exact Hc].
      * eapply Forall_impl; [| exact F2]. intros c (a & Ha & Hc). exists a.
        split; [now right | exact Hc].
    + repeat split; try reflexivity;
        [destruct (uses_stroke act) | destruct (uses_fill act)
         | destruct (uses_fillText act)]; reflexivity.
Qed.

(** X16 -- what a paint issues.  For any implementation of the [Math]
    functions, any window size and any state, the paint of variant 2 is: one
    [clearRect] of the visible world rectangle, then the background at the
    world origin if there is one, then only calls made for the actions of
    the list -- every stroke in the colour and line width of an action that
    is no emoji, every fill in the colour of an arrow, every text at the end
    point of an emoji action in the 32px font.  There is exactly one stroke
    per pen, arrow or circle action, one fill per arrow and one text per
    emoji; and when the paint is over, the styles and the matrix of the
    context are what they were before it. *)
Theorem paint_issues_own_styles (w h : number) (s : V2.State) :
  let ctx := V2.paint w h s in
  exists rest,
    calls ctx =
    (clearRect (x (V2.pan s)) (y (V2.pan s)) (w / V2.scale s)%js (h / V2.scale s)%js
     :: (match V2.bgImage s with Some bg => [drawImage bg 0 0] | None => [] end)
     ++ rest) /\
    Forall (fun c => exists act, In act (V2.actions s) /\ painted_for act c) rest /\
    List.length (filter is_stroke rest) = List.length (filter uses_stroke (V2.actions s)) /\
    List.length (filter is_fill rest) = List.length (filter uses_fill (V2.actions s)) /\
    List.length (filter is_fillText rest)
    = List.length (filter uses_fillText (V2.actions s)) /\
    transform ctx = transform freshContext /\
    strokeStyle ctx = strokeStyle freshContext /\
    fillStyle ctx = fillStyle freshContext /\
    ctx_lineWidth ctx = ctx_lineWidth freshContext /\
    font ctx = font freshContext.
Proof.
  intro ctx. subst ctx. unfold V2.paint. cbv zeta.
  match goal with
  | |- context [fold_left V2.paintAction _ ?c] =>
      destruct (V2_fold_paint_emits (V2.actions s) c) as (new & E & F & S1 & S2 & S3 & _)
  end.
  exists new. unfold ctx_restore. cbn [calls transform strokeStyle fillStyle
                                       ctx_lineWidth font].
  rewrite E. split; [| now repeat split].
  destruct (V2.bgImage s); reflexivity.
Qed.

End PaintCalls.

(** ** What the draw helpers of variant 1 issue *)

Section DrawCalls.
Context {M : MathLib}.

(** X17 -- variant 1 paints a short arrow in a borrowed colour.  For any
    implementation of the [Math] functions, any context and any action, the
    draw helper chosen for the action's tool issues only pieces of path,
    strokes, fills and texts, appended to what was painted before.  Every
    stroke is in the action's own colour and line width, and a pen, a
    circle or an arrow with its shaft has exactly one.  An arrow has
    exactly one fill: in its own colour when the shaft is drawn, but, when
    the arrow is so short that the shaft is skipped, in whatever stroke
    style the context was left with, which is then left as it is.  An
    emoji issues one text and no stroke, and changes no colour. *)
Theorem short_arrow_borrows_colour (ctx : Context2D) (act : DrawAction) :
  let ctx' := D1.drawAction ctx act in
  let short := match Act.tool act with
               | arrow => D1.shaft_skipped act
               | _ => false
               end in
  exists new,
    calls ctx' = calls ctx ++ new /\
    Forall (V1_painted_for (strokeStyle ctx) short act) new /\
    List.length (filter is_stroke new)
    = (if uses_stroke act && negb short then 1 else 0)%nat /\
    List.length (filter is_fill new) = (if uses_fill act then 1 else 0)%nat /\
    List.length (filter is_fillText new) = (if uses_fillText act then 1 else 0)%nat /\
    strokeStyle ctx'
    = (if uses_stroke act && negb short then Act.color act else strokeStyle ctx) /\
    transform ctx' = transform ctx.
Proof.
  destruct ctx as [ss fs w f t cs].
  destruct act as [uid un col tl lw st en em ex].
  unfold uses_stroke, uses_fill, uses_fillText.
  destruct tl.
  - cbv beta iota zeta delta
        [D1.drawAction D1.drawPenStroke call ctx_stroke set_strokeStyle
         set_lineWidth calls strokeStyle fillStyle ctx_lineWidth font transform
         Act.tool Act.color Act.lineWidth Act.start Act.end_ Act.emoji_
         ToolType_eqb negb andb].
    rewrite <- ?app_assoc; cbn [app].
    eexists; split; [reflexivity |].
    split; [repeat constructor |]. repeat split; reflexivity.
  - cbv beta iota zeta delta
        [D1.drawAction D1.shaft_skipped V1.drawArrow V1.drawArrowHead
         Act.tool Act.color Act.lineWidth Act.start Act.end_ Act.emoji_
         ToolType_eqb negb].
    match goal with
    | |- context [if (?a <? ?b)%js then _ else _] => destruct (a <? b)%js
    end;
      cbv beta iota zeta delta
          [call ctx_stroke ctx_fill set_fillStyle set_strokeStyle set_lineWidth
           calls strokeStyle fillStyle ctx_lineWidth font transform andb negb];
      rewrite <- ?app_assoc; cbn [app];
      (eexists; split; [reflexivity |]);
      (split; [repeat constructor |]); repeat split; reflexivity.
  - cbv beta iota zeta delta
        [D1.drawAction D1.drawCircle call ctx_stroke set_strokeStyle
         set_lineWidth calls strokeStyle fillStyle ctx_lineWidth font transform
         Act.tool Act.color Act.lineWidth Act.start Act.end_ Act.emoji_
         ToolType_eqb negb andb].
    rewrite <- ?app_assoc; cbn [app].
    eexists; split; [reflexivity |].
    split; [repeat constructor |]. repeat split; reflexivity.
  - cbv beta iota zeta delta
        [D1.drawAction D1.drawEmoji call ctx_fillText set_font
         calls strokeStyle fillStyle ctx_lineWidth font transform
         Act.tool Act.color Act.lineWidth Act.start Act.end_ Act.emoji_
         ToolType_eqb negb andb].
    eexists; split; [reflexivity |].
    split; [repeat constructor |]. repeat split; reflexivity.
Qed.

End DrawCalls.

(** ** The list of users *)

Lemma findIndex_ge {A : Type} (p : A -> bool) (l : list A) :
  (-1 <= findIndex p l)%Z.
Proof.
  induction l as [| a l IH]; cbn [findIndex]; [lia |].
  destruct (p a); [lia |]. cbv zeta.
  destruct (Z.ltb_spec (findIndex p l) 0); lia.
Qed.

Lemma findIndex_set {A : Type} (p : A -> bool) (v : A) (l : list A) :
  (if (0 <=? findIndex p l)%Z
   then array_set l (Z.to_nat (findIndex p l)) v
   else l ++ [v]) = replace_first p v l.
Proof.
  induction l as [| a l IH]; cbn [findIndex replace_first]; [reflexivity |].
  destruct (p a); [reflexivity |]. cbv zeta.
  pose proof (findIndex_ge p l) as Hge.
  destruct (Z.ltb_spec (findIndex p l) 0) as [Hlt | Hle].
  - cbn. f_equal. rewrite <- IH.
    destruct (Z.leb_spec 0 (findIndex p l)); [lia | reflexivity].
  - destruct (Z.leb_spec 0 (findIndex p l + 1)); [| lia].
    replace (Z.to_nat (findIndex p l + 1)) with (S (Z.to_nat (findIndex p l)))
      by lia.
    cbn [array_set]. f_equal. rewrite <- IH.
    destruct (Z.leb_spec 0 (findIndex p l)); [reflexivity | lia].
Qed.

Lemma findIndex_nth {A : Type} (p : A -> bool) (l : list A) :
  (0 <= findIndex p l)%Z ->
  exists a, nth_error l (Z.to_nat (findIndex p l)) = Some a /\ p a = true.
Proof.
  induction l as [| a l IH]; cbn [findIndex]; [lia |].
  destruct (p a) eqn:E; [intros _; now exists a |]. cbv zeta.
  destruct (Z.ltb_spec (findIndex p l) 0) as [Hlt | Hle]; [lia |].
  intros _. destruct (IH Hle) as (b & Hb & Pb). exists b.
  replace (Z.to_nat (findIndex p l + 1)) with (S (Z.to_nat (findIndex p l)))
    by lia.
  now split.
Qed.

Lemma V2_sync_replace uid name col prev :
  V2_syncUserList uid name col prev =
  replace_first (fun u => String.eqb (user_userId u) uid) (mkUser uid name col) prev.
Proof. unfold V2_syncUserList. cbv zeta. apply findIndex_set. Qed.

Lemma V1_reserve_replace uid name col f prev :
  V1_reserveColor uid name col = Some f ->
  col <> EmptyString /\
  f prev = replace_first (fun u => String.eqb (user_userId u) uid)
                         (mkUser uid name col) prev.
Proof.
  unfold V1_reserveColor.
  destruct (String.eqb_spec col EmptyString) as [E | N]; [discriminate |].
  intro H. injection H as <-. split; [exact N |]. cbv zeta.
  rewrite <- findIndex_set.
  destruct (Z.leb_spec 0 (findIndex (fun u => String.eqb (user_userId u) uid) prev))
    as [Hle | Hlt]; [| reflexivity].
  destruct (findIndex_nth _ _ Hle) as (u & -> & Pu).
  apply String.eqb_eq in Pu. now rewrite Pu.
Qed.

Section ReplaceFirst.
Variable uid : string.
Variable v : User.
Hypothesis v_mine : user_userId v = uid.

Lemma replace_first_find (l : list User) :
  find (is_user uid) (replace_first (is_user uid) v l) = Some v.
Proof.
  assert (Hv : is_user uid v = true)
    by (unfold is_user; rewrite v_mine; apply String.eqb_refl).
  induction l as [| a l IH]; cbn [replace_first find].
  - now rewrite Hv.
  - destruct (is_user uid a) eqn:E; cbn [find]; [now rewrite Hv | now rewrite E].
Qed.

Lemma replace_first_others (l : list User) :
  filter (fun u => negb (is_user uid u)) (replace_first (is_user uid) v l)
  = filter (fun u => negb (is_user uid u)) l.
Proof.
  assert (Hv : is_user uid v = true)
    by (unfold is_user; rewrite v_mine; apply String.eqb_refl).
  induction l as [| a l IH]; cbn [replace_first filter].
  - now rewrite Hv.
  - destruct (is_user uid a) eqn:E; cbn [filter]; rewrite ?Hv, ?E; cbn [negb];
      [reflexivity | now rewrite IH].
Qed.

Lemma replace_first_idem (l : list User) :
  replace_first (is_user uid) v (replace_first (is_user uid) v l)
  = replace_first (is_user uid) v l.
Proof.
  assert (Hv : is_user uid v = true)
    by (unfold is_user; rewrite v_mine; apply String.eqb_refl).
  induction l as [| a l IH]; cbn [replace_first].
  - now rewrite Hv.
  - destruct (is_user uid a) eqn:E; cbn [replace_first]; rewrite ?Hv, ?E;
      [reflexivity | now rewrite IH].
Qed.

Lemma replace_first_length (l : list User) :
  List.length (replace_first (is_user uid) v l)
  = (if existsb (is_user uid) l then List.length l else S (List.length l)).
Proof.
  induction l as [| a l IH]; cbn [replace_first existsb]; [reflexivity |].
  destruct (is_user uid a); cbn [orb List.length]; [reflexivity |].
  rewrite IH. now destruct (existsb (is_user uid) l).
Qed.

Lemma replace_first_ids (l : list User) :
  NoDup (map user_userId l) ->
  NoDup (map user_userId (replace_first (is_user uid) v l)).
Proof.
  induction l as [| a l IH]; cbn [replace_first map]; intro H.
  - constructor; [intros [] | constructor].
  - inversion H as [| x0 xs Hn Hl]; subst x0 xs.
    destruct (is_user uid a) eqn:E; cbn [map].
    + unfold is_user in E. apply String.eqb_eq in E.
      rewrite v_mine, <- E. now constructor.
    + constructor; [| now apply IH].
      intro Hin. apply Hn. clear IH Hl H Hn.
      induction l as [| b l IHl]; cbn [replace_first map] in *.
      * destruct Hin as [Hin | []]. unfold is_user in E.
        rewrite v_mine in Hin. rewrite <- Hin, String.eqb_refl in E. discriminate.
      * destruct (is_user uid b) eqn:Eb; cbn [map] in Hin.
        -- destruct Hin as [Hin | Hin]; [| now right].
           unfold is_user in E. rewrite v_mine in Hin.
           rewrite <- Hin, String.eqb_refl in E. discriminate.
        -- destruct Hin as [Hin | Hin]; [now left | right; now apply IHl].
Qed.

End ReplaceFirst.

Lemma NoDup_map_eq {A B : Type} (g : A -> B) (l : list A) (a b : A) :
  NoDup (map g l) -> In a l -> In b l -> g a = g b -> a = b.
Proof.
  induction l as [| c l IH]; cbn [map]; intros H Ha Hb E; [destruct Ha |].
  inversion H as [| x0 xs Hn Hl]; subst x0 xs.
  destruct Ha as [Ha | Ha], Hb as [Hb | Hb].
  - congruence.
  - exfalso. apply Hn. subst c. rewrite E. now apply in_map.
  - exfalso. apply Hn. subst c. rewrite <- E. now apply in_map.
  - now apply IH.
Qed.

Lemma find_In {A : Type} (p : A -> bool) (l : list A) (a : A) :
  find p l = Some a -> In a l.
Proof. intro H. now apply find_some in H. Qed.

(** X18 -- the user list holds the user once, up to date.  Whenever the
    colour reservation effect of variant 1 updates the list at all (the
    colour is not empty), it computes the same list as the sync effect of
    variant 2: the first entry with the user's id becomes the user's current
    id, name and colour, or that entry is appended when there is none.  The
    entries of other users are left as they were, in their order; running
    the effect again changes nothing; the list grows by one exactly when
    the user was not in it; and if the ids in the list were distinct they
    still are, in which case the name effect of variant 1 has nothing left
    to change. *)
Theorem user_sync_upserts
        (userId userName userColor : string) (prev : list User)
        (f : list User -> list User) :
  V1_reserveColor userId userName userColor = Some f ->
  let me := mkUser userId userName userColor in
  let mine := fun u => String.eqb (user_userId u) userId in
  f prev = V2_syncUserList userId userName userColor prev /\
  find mine (f prev) = Some me /\
  filter (fun u => negb (mine u)) (f prev) = filter (fun u => negb (mine u)) prev /\
  f (f prev) = f prev /\
  List.length (f prev)
  = (if existsb mine prev then List.length prev else S (List.length prev)) /\
  (NoDup (map user_userId prev) ->
   NoDup (map user_userId (f prev)) /\
   V1_updateName userId userName (f prev) = f prev).
Proof.
  intros Hf me mine.
  assert (R : forall l, f l = replace_first mine me l).
  { intro l. now destruct (V1_reserve_replace _ _ _ _ l Hf). }
  assert (Hme : user_userId me = userId) by reflexivity.
  rewrite !R, V2_sync_replace. fold mine me.
  split; [reflexivity |].
  split; [now apply replace_first_find |].
  split; [now apply replace_first_others |].
  split; [now apply replace_first_idem |].
  split; [now apply replace_first_length |].
  intro Hnd.
  pose proof (replace_first_ids userId me Hme prev Hnd) as Hnd'.
  fold mine in Hnd'. split; [exact Hnd' |].
  unfold V1_updateName.
  rewrite <- (map_id (replace_first mine me prev)) at 2.
  apply map_ext_in. intros u Hu.
  destruct (String.eqb_spec (user_userId u) userId) as [E | _]; [| reflexivity].
  assert (Eu : u = me).
  { apply (NoDup_map_eq user_userId (replace_first mine me prev)); try assumption.
    apply (find_In mine). now apply replace_first_find. }
  now rewrite Eu.
Qed.

Lemma user_sync_upserts_witness :
  find (fun u => String.eqb (user_userId u) "u1")
       (V2_syncUserList "u1" "Alicia" "#22c55e" [user_bob; user_alice])
  = Some (mkUser "u1" "Alicia" "#22c55e") /\
  filter (fun u => negb (String.eqb (user_userId u) "u1"))
         (V2_syncUserList "u1" "Alicia" "#22c55e" [user_bob; user_alice])
  = [user_bob].
Proof.
  destruct (V1_reserveColor "u1" "Alicia" "#22c55e") as [g |] eqn:Hg;
    [| discriminate Hg].
  destruct (user_sync_upserts "u1" "Alicia" "#22c55e" [user_bob; user_alice] g Hg)
    as (E & H1 & H2 & _).
  rewrite <- E. split; [exact H1 | exact H2].
Defined.

(** X19 -- a colour held by someone else cannot be picked.  In variant 1 a
    click on a colour option selects that colour unless the option is taken,
    and an option is taken exactly when some entry of the user list holds
    the colour and it is not the user's own.  So the user's own colour is
    never taken, a click never changes the selection to a colour that is in
    the list, and a click on a colour nobody holds always selects it. *)
Theorem taken_colour_not_selectable
        (users : list User) (userColor c : string) :
  let r := V1_colorClick users userColor c in
  (V1_isTaken users userColor c = true <->
   In c (map user_color users) /\ c <> userColor) /\
  V1_isTaken users userColor userColor = false /\
  (V1_isTaken users userColor c = true -> r = userColor) /\
  (V1_isTaken users userColor c = false -> r = c) /\
  (r <> userColor -> r = c /\ ~ In r (map user_color users)) /\
  (~ In c (map user_color users) -> r = c).
Proof.
  intro r. subst r. unfold V1_colorClick.
  assert (T : V1_isTaken users userColor c = true <->
              In c (map user_color users) /\ c <> userColor).
  { unfold V1_isTaken. rewrite andb_true_iff, negb_true_iff, existsb_exists.
    split.
    - intros [(y & Hy & Ey) Hn]. apply String.eqb_eq in Ey. subst y.
      split; [exact Hy |]. intro E. subst c. now rewrite String.eqb_refl in Hn.
    - intros [Hin Hn]. split.
      + exists c. split; [exact Hin | apply String.eqb_refl].
      + now apply String.eqb_neq. }
  split; [exact T |].
  split; [unfold V1_isTaken; now rewrite String.eqb_refl, andb_false_r |].
  destruct (V1_isTaken users userColor c) eqn:E; cbn [negb orb].
  - destruct (String.eqb_spec c userColor) as [Ec | Nc].
    + exfalso. now apply (proj2 (proj1 T eq_refl)).
    + split; [reflexivity |]. split; [discriminate |].
      split; [congruence |].
      intro Hn. exfalso. apply Hn. now apply T.
  - assert (Hf : ~ (In c (map user_color users) /\ c <> userColor)).
    { intro K. apply T in K. discriminate K. }
    split; [discriminate |]. split; [reflexivity |].
    split; [| reflexivity].
    intro Hr. split; [reflexivity |]. intro Hin. apply Hf. now split.
Qed.

(** ** Variant 3: undo by author *)

Lemma slice_prefix {A : Type} (l : list A) (i : nat) :
  (i <= List.length l)%nat -> slice l 0 (Z.of_nat i) = firstn i l.
Proof.
  intro H. unfold slice, rel_index. cbn [Z.ltb Z.compare].
  destruct (Z.ltb_spec (Z.of_nat i) 0); [lia |].
  cbn [Z.to_nat Nat.min skipn]. rewrite Nat2Z.id, Nat.sub_0_r.
  now rewrite Nat.min_l by exact H.
Qed.

Lemma slice_suffix {A : Type} (l : list A) (i : nat) :
  (i < List.length l)%nat -> V3.slice_from l (Z.of_nat i + 1) = skipn (S i) l.
Proof.
  intro H. unfold V3.slice_from, slice, rel_index.
  destruct (Z.ltb_spec (Z.of_nat i + 1) 0); [lia |].
  destruct (Z.ltb_spec (Z.of_nat (List.length l)) 0); [lia |].
  rewrite Nat2Z.id, Nat.min_id.
  replace (Z.to_nat (Z.of_nat i + 1)) with (S i) by lia.
  rewrite Nat.min_l by lia.
  apply firstn_all2. rewrite length_skipn. lia.
Qed.

Section OwnUndo.
Variables myColor username : string.

Lemma undo_loop_none (prev : list V3.Shape) (n : nat) :
  forallb (fun sh => negb (V3_mine myColor username sh)) prev = true ->
  V3.undo_loop myColor username prev n = prev.
Proof.
  intro H. induction n as [| i IH]; [reflexivity |].
  cbn [V3.undo_loop].
  destruct (nth_error prev i) as [sh |] eqn:E; [| exact IH].
  rewrite forallb_forall in H. apply nth_error_In in E. apply H in E.
  unfold V3_mine in E. apply negb_true_iff in E. now rewrite E.
Qed.

Lemma undo_loop_last (before after : list V3.Shape) (sh : V3.Shape) (k : nat) :
  V3_mine myColor username sh = true ->
  forallb (fun sh => negb (V3_mine myColor username sh)) after = true ->
  (k <= List.length after)%nat ->
  V3.undo_loop myColor username (before ++ sh :: after) (List.length before + 1 + k)
  = before ++ after.
Proof.
  intros Hsh Hafter. induction k as [| k IH]; intro Hk.
  - rewrite Nat.add_0_r, Nat.add_1_r. cbn [V3.undo_loop].
    rewrite nth_error_app2, Nat.sub_diag by lia. cbn [nth_error].
    unfold V3_mine in Hsh. rewrite Hsh.
    rewrite slice_prefix by (rewrite length_app; lia).
    rewrite slice_suffix by (rewrite length_app; cbn [List.length]; lia).
    rewrite firstn_app, firstn_all, Nat.sub_diag. cbn [firstn].
    rewrite app_nil_r.
    f_equal. clear. induction before as [| b before IH]; [reflexivity | exact IH].
  - replace (List.length before + 1 + S k)%nat
      with (S (List.length before + 1 + k)) by lia.
    cbn [V3.undo_loop].
    rewrite nth_error_app2 by lia.
    replace (List.length before + 1 + k - List.length before)%nat with (S k) by lia.
    cbn [nth_error].
    destruct (nth_error after k) as [sh' |] eqn:E.
    + rewrite forallb_forall in Hafter. pose proof (nth_error_In _ _ E) as Hin.
      apply Hafter in Hin. unfold V3_mine in Hin.
      apply negb_true_iff in Hin. rewrite Hin. apply IH. lia.
    + apply IH. lia.
Qed.

Lemma last_mine_split (l : list V3.Shape) :
  forallb (fun sh => negb (V3_mine myColor username sh)) l = true \/
  exists before sh after,
    l = before ++ sh :: after /\ V3_mine myColor username sh = true /\
    forallb (fun sh => negb (V3_mine myColor username sh)) after = true.
Proof.
  induction l as [| a l IH]; [now left |].
  destruct IH as [Hn | (before & sh & after & -> & Hsh & Ha)].
  - destruct ((V3_mine myColor username) a) eqn:E.
    + right. exists [], a, l. now repeat split.
    + left. cbn [forallb]. now rewrite E.
  - right. exists (a :: before), sh, after. now repeat split.
Qed.

Lemma filter_none (l : list V3.Shape) :
  forallb (fun sh => negb (V3_mine myColor username sh)) l = true ->
  filter (V3_mine myColor username) l = [].
Proof.
  induction l as [| a l IH]; [reflexivity |]. cbn [forallb filter].
  intro H. apply andb_prop in H. destruct H as [Ha Hl].
  apply negb_true_iff in Ha. rewrite Ha. now apply IH.
Qed.

Lemma own_undo_char (l : list V3.Shape) :
  let r := V3.undo_loop myColor username l (List.length l) in
  filter (fun sh => negb (V3_mine myColor username sh)) r
  = filter (fun sh => negb (V3_mine myColor username sh)) l /\
  filter (V3_mine myColor username) r = removelast (filter (V3_mine myColor username) l) /\
  (forallb (fun sh => negb (V3_mine myColor username sh)) l = true -> r = l) /\
  (forall before sh after,
      l = before ++ sh :: after -> V3_mine myColor username sh = true ->
      forallb (fun sh => negb (V3_mine myColor username sh)) after = true ->
      r = before ++ after).
Proof.
  intro r. subst r.
  assert (L : forall before sh after, V3_mine myColor username sh = true ->
              forallb (fun sh => negb (V3_mine myColor username sh)) after = true ->
              V3.undo_loop myColor username (before ++ sh :: after)
                           (List.length (before ++ sh :: after))
              = before ++ after).
  { intros before sh after Hsh Ha.
    replace (List.length (before ++ sh :: after))
      with (List.length before + 1 + List.length after)%nat
      by (rewrite length_app; cbn [List.length]; lia).
    now apply undo_loop_last. }
  split; [| split; [| split]].
  - destruct (last_mine_split l) as [Hn | (before & sh & after & -> & Hsh & Ha)].
    + now rewrite undo_loop_none.
    + rewrite L by assumption. rewrite !filter_app. cbn [filter].
      now rewrite Hsh.
  - destruct (last_mine_split l) as [Hn | (before & sh & after & -> & Hsh & Ha)].
    + rewrite undo_loop_none by exact Hn. now rewrite filter_none.
    + rewrite L by assumption. rewrite !filter_app. cbn [filter].
      rewrite Hsh, (filter_none after Ha), app_nil_r.
      now rewrite removelast_last.
  - intro Hn. now apply undo_loop_none.
  - intros before sh after -> Hsh Ha. now apply L.
Qed.

End OwnUndo.

(** X20 -- undo takes back the user's own last shape.  In variant 3 an
    undo removes the most recent shape that carries the user's colour and
    name, wherever it stands in the list, and nothing else: the shapes of
    others stay, in their order, the user's own shapes lose their last, and
    a list without a shape of the user's is left as it is. *)
Theorem undo_removes_own_last (s : V3.State) :
  let mine := V3_mine (V3.myColor s) (V3.username s) in
  let s' := V3.handleUndo s in
  s' = V3.setShapes (fun _ => V3.shapes s') s /\
  filter (fun sh => negb (mine sh)) (V3.shapes s')
  = filter (fun sh => negb (mine sh)) (V3.shapes s) /\
  filter mine (V3.shapes s') = removelast (filter mine (V3.shapes s)) /\
  (forallb (fun sh => negb (mine sh)) (V3.shapes s) = true ->
   V3.shapes s' = V3.shapes s) /\
  (forall before sh after,
      V3.shapes s = before ++ sh :: after -> mine sh = true ->
      forallb (fun sh => negb (mine sh)) after = true ->
      V3.shapes s' = before ++ after).
Proof.
  intros mine s'.
  destruct (own_undo_char (V3.myColor s) (V3.username s) (V3.shapes s))
    as (H1 & H2 & H3 & H4).
  split; [reflexivity |]. now repeat split.
Qed.

Example undo_skips_the_shapes_of_others :
  V3.shapes (V3.handleUndo
               (v3_state [ shape_of "User_7" "#FF0000"; shape_of "Bob" "#00FF00";
                           shape_of "User_7" "#FF0000"; shape_of "User_7" "#0000FF";
                           shape_of "Bob" "#FF0000" ]))
  = [ shape_of "User_7" "#FF0000"; shape_of "Bob" "#00FF00";
      shape_of "User_7" "#0000FF"; shape_of "Bob" "#FF0000" ].
Proof. reflexivity. Qed.

(** ** Variant 3: what a gesture records *)

Section Gesture3.
Context {M : MathLib}.
Variable rect : DOMRect.

Lemma V3_moves_path (es : list MouseEvent) : forall s,
  V3.isDrawing (V3.drawingRef s) = true ->
  V3.moves (Some rect) es s =
  Some (V3.set_drawingRef
          (V3.mkDrawing true (V3.startX (V3.drawingRef s))
                        (V3.startY (V3.drawingRef s))
                        (V3.currentPath (V3.drawingRef s)
                         ++ match V3.selectedTool s with
                            | V3.freeform => map (V3_local rect) es
                            | _ => []
                            end)) s).
Proof.
  induction es as [| e es IH]; intros s Hd.
  - destruct s as [un mc tl th sh [d sx sy path]]. cbn in Hd. subst d.
    cbn. destruct tl; now rewrite app_nil_r.
  - cbn [V3.moves]. unfold V3.handlePointerMove. rewrite Hd. cbn [negb orb].
    destruct s as [un mc tl th sh [d sx sy path]]. cbn in Hd. subst d.
    destruct tl; cbn [V3.selectedTool V3.Tool_eqb negb].
    + rewrite IH by reflexivity. cbn. now rewrite <- app_assoc.
    + rewrite IH by reflexivity. reflexivity.
    + rewrite IH by reflexivity. reflexivity.
Qed.

(** X21 -- a gesture of variant 3 records one shape, and undo takes it
    back.  With the map mounted, a whole gesture -- pointer down, any
    moves, pointer up -- raises no error and appends exactly one shape,
    stamped with the user's colour, name and thickness.  A freeform shape
    holds the place of the pointer-down and of every move, in order, each
    relative to the map's box, and not the place of the pointer-up; a
    circle is centred where the pointer went down, with the distance to
    where it came up as radius; an arrow runs from the one to the other.
    No gesture is left under way, and an undo right after it restores the
    list of shapes as it was before the gesture. *)
Theorem gesture_records_then_undo
        (newId : string) (e0 e1 : MouseEvent) (es : list MouseEvent)
        (s : V3.State) :
  let p0 := V3_local rect e0 in
  let p1 := V3_local rect e1 in
  let dx := (x p1 - x p0)%js in
  let dy := (y p1 - y p0)%js in
  let recorded :=
    V3.mkShape newId (V3.myColor s) (V3.username s) (V3.thickness s)
               match V3.selectedTool s with
               | V3.freeform => V3.Freeform (p0 :: map (V3_local rect) es)
               | V3.circle => V3.Circle p0 (Math_sqrt (dx * dx + dy * dy)%js)
               | V3.arrow => V3.Arrow p0 p1
               end in
  exists s',
    V3.gesture (Some rect) newId e0 es e1 s = Some s' /\
    V3.shapes s' = V3.shapes s ++ [recorded] /\
    V3.isDrawing (V3.drawingRef s') = false /\
    V3.currentPath (V3.drawingRef s') = [] /\
    V3.shapes (V3.handleUndo s') = V3.shapes s.
Proof.
  intros p0 p1 dx dy recorded.
  unfold V3.gesture. rewrite V3_moves_path by reflexivity.
  unfold V3.handlePointerUp, V3.handlePointerDown.
  destruct s as [un mc tl th sh d].
  cbn [V3.drawingRef V3.set_drawingRef V3.isDrawing V3.selectedTool negb
       V3.startX V3.startY V3.currentPath V3.username V3.myColor V3.thickness
       V3.shapes].
  cbv zeta.
  eexists. split; [reflexivity |].
  assert (Hrec : V3_mine mc un recorded = true).
  { unfold V3_mine, recorded. cbn. now rewrite !String.eqb_refl. }
  assert (Hundo : V3.undo_loop mc un (sh ++ [recorded]) (List.length (sh ++ [recorded]))
                  = sh).
  { destruct (own_undo_char mc un (sh ++ [recorded])) as (_ & _ & _ & H).
    rewrite (H sh recorded [] eq_refl Hrec eq_refl). apply app_nil_r. }
  destruct tl; cbn; (split; [reflexivity |]); (split; [reflexivity |]);
    (split; [reflexivity |]); exact Hundo.
Qed.

End Gesture3.

(** ** The slices of the radial menu *)

Lemma chained_wd (from from' : Q) (l : list RadialMenu.Slice) (to : Q) :
  from == from' -> chained from l to -> chained from' l to.
Proof.
  intro E. destruct l as [| s l]; cbn [chained].
  - intro H. now rewrite <- E.
  - intros (F1 & F2 & H1 & H2 & H3). repeat split; try assumption.
    now rewrite <- E.
Qed.

Lemma inject_succ (i : nat) :
  inject_Z (Z.of_nat (S i)) == inject_Z (Z.of_nat i) + 1.
Proof. rewrite Nat2Z.inj_succ, <- Z.add_1_r, inject_Z_plus. reflexivity. Qed.

Lemma inject_ge1 (n : nat) : (0 < n)%nat -> 1 <= inject_Z (Z.of_nat n).
Proof.
  intro H. change 1 with (inject_Z 1). rewrite <- Zle_Qle. lia.
Qed.

Section Slices.
Variable A : Type.
Variable tag : A -> RadialMenu.SliceValue.
Variables base d : Q.
Hypothesis d_pos : 0 < d.
Hypothesis d_small : d <= 180.

Lemma map_idx_chained (f : A -> number -> RadialMenu.Slice) (l : list A) :
  (forall v (i : Q), exists s e,
      f v (Fin i) = RadialMenu.mkSlice (tag v) (Fin s) (Fin e) /\
      s == base + i * d /\ e == base + (i + 1) * d) ->
  forall i,
    chained (base + inject_Z (Z.of_nat i) * d) (RadialMenu.map_idx f l i)
            (base + inject_Z (Z.of_nat (i + List.length l)) * d) /\
    map RadialMenu.kind_value (RadialMenu.map_idx f l i) = map tag l /\
    Forall (fun s => RadialMenu.arcPath_large (RadialMenu.start s) (RadialMenu.end_ s)
                     = 0%Z) (RadialMenu.map_idx f l i).
Proof.
  intro Hf. induction l as [| v l IH]; intro i.
  - cbn [RadialMenu.map_idx chained List.length map]. rewrite Nat.add_0_r.
    split; [reflexivity | split; [reflexivity | constructor]].
  - cbn [RadialMenu.map_idx chained List.length map].
    destruct (Hf v (inject_Z (Z.of_nat i))) as (s & e & -> & Es & Ee).
    destruct (IH (S i)) as (C & K & L).
    cbn [RadialMenu.start RadialMenu.end_ RadialMenu.kind_value
                          toQ finite].
    split; [| split].
    + split; [exact I |]. split; [exact I |]. split; [exact Es |].
      split; [rewrite Es, Ee; lra |].
      replace (i + S (List.length l))%nat with (S i + List.length l)%nat by lia.
      eapply chained_wd; [| exact C]. rewrite Ee, inject_succ. reflexivity.
    + now rewrite K.
    + constructor; [| exact L].
      cbn [RadialMenu.start RadialMenu.end_]. unfold RadialMenu.arcPath_large, gt.
      rewrite sub_Fin.
      assert (H : (Fin 180 <? Fin (e - s))%js = false)
        by (apply lt_Fin_false; rewrite Es, Ee; lra).
      now rewrite H.
Qed.

End Slices.

Lemma chained_to_wd (l : list RadialMenu.Slice) : forall (from to to' : Q),
  to == to' -> chained from l to -> chained from l to'.
Proof.
  induction l as [| s l IH]; intros from to to' E; cbn [chained].
  - intro H. now rewrite <- E.
  - intros (F1 & F2 & H1 & H2 & H3). repeat split; try assumption.
    now apply (IH _ to).
Qed.

Lemma slice_degrees (n : nat) :
  (0 < n)%nat ->
  (180 / Fin (inject_Z (Z.of_nat n)))%js = Fin (180 / inject_Z (Z.of_nat n)) /\
  0 < 180 / inject_Z (Z.of_nat n) <= 180 /\
  inject_Z (Z.of_nat n) * (180 / inject_Z (Z.of_nat n)) == 180.
Proof.
  intro H. pose proof (inject_ge1 n H) as H1.
  set (q := inject_Z (Z.of_nat n)) in *.
  split; [apply div_Fin; lra |].
  assert (E : q * (180 / q) == 180) by (field; lra).
  split; [| exact E].
  assert (P : 0 < 180 / q).
  { apply Qlt_shift_div_l; lra. }
  split; [exact P |].
  apply Qle_shift_div_r; lra.
Qed.

(** X22 -- the slices of the radial menu tile the circle.  For any
    non-empty colour pool and tool list (those of the file among them), the
    slice descriptors are one per colour, in the pool's order, followed by
    one per tool; the colour slices follow one another from 180 to 360
    degrees and the tool slices from 0 to 180, each starting exactly where
    the one before ended and ending later, so that no two overlap and no
    angle is left out; and no slice is wider than 180 degrees, so [arcPath]
    never sets the large-arc flag for one. *)
Theorem slices_tile_the_circle (pool : list string) (tools : list ToolType) :
  pool <> [] -> tools <> [] ->
  let sl := RadialMenu.slices_of pool tools in
  map RadialMenu.kind_value sl
  = map RadialMenu.colour pool ++ map RadialMenu.tool tools /\
  chained 180 (firstn (List.length pool) sl) 360 /\
  chained 0 (skipn (List.length pool) sl) 180 /\
  Forall (fun s => RadialMenu.arcPath_large (RadialMenu.start s) (RadialMenu.end_ s)
                   = 0%Z) sl.
Proof.
  intros Hp Ht sl. subst sl. unfold RadialMenu.slices_of, RadialMenu.array_length.
  cbv zeta.
  assert (Np : (0 < List.length pool)%nat) by (destruct pool; [congruence | cbn; lia]).
  assert (Nt : (0 < List.length tools)%nat) by (destruct tools; [congruence | cbn; lia]).
  destruct (slice_degrees _ Np) as (-> & [Pp Sp] & Ep).
  destruct (slice_degrees _ Nt) as (-> & [Pt St] & Et).
  set (dp := 180 / inject_Z (Z.of_nat (List.length pool))) in *.
  set (dt := 180 / inject_Z (Z.of_nat (List.length tools))) in *.
  match goal with
  | |- context [RadialMenu.map_idx ?f pool 0 ++ RadialMenu.map_idx ?g tools 0] =>
      destruct (map_idx_chained string RadialMenu.colour 180 dp Pp Sp f pool)
        with (i := 0%nat) as (C1 & K1 & L1);
      [ intros v i; do 2 eexists; split;
        [ rewrite !add_Fin, !mul_Fin, !add_Fin; reflexivity
        | split; reflexivity ]
      | destruct (map_idx_chained ToolType RadialMenu.tool 0 dt Pt St g tools)
          with (i := 0%nat) as (C2 & K2 & L2);
        [ intros v i; do 2 eexists; split;
          [ rewrite !add_Fin, !mul_Fin; reflexivity
          | split; ring ]
        | set (X := RadialMenu.map_idx f pool 0) in *;
          set (Y := RadialMenu.map_idx g tools 0) in * ] ]
  end.
  assert (LX : List.length X = List.length pool).
  { rewrite <- (length_map RadialMenu.kind_value X), K1. apply length_map. }
  split; [now rewrite map_app, K1, K2 |].
  split; [| split].
  - rewrite <- LX, firstn_app, firstn_all, Nat.sub_diag. cbn [firstn].
    rewrite app_nil_r.
    eapply chained_wd; [| eapply chained_to_wd; [| exact C1]].
    + cbn. ring.
    + cbn [Nat.add]. rewrite Ep. reflexivity.
  - rewrite <- LX, skipn_app, skipn_all, Nat.sub_diag. cbn [skipn app].
    eapply chained_wd; [| eapply chained_to_wd; [| exact C2]].
    + cbn. ring.
    + cbn [Nat.add]. rewrite Et. ring.
  - apply Forall_app. now split.
Qed.

Lemma slices_tile_the_circle_witness :
  chained 180 (firstn 8 RadialMenu.slices) 360 /\
  chained 0 (skipn 8 RadialMenu.slices) 180.
Proof.
  assert (Hp : RadialMenu.COLOUR_POOL <> []) by discriminate.
  assert (Ht : RadialMenu.TOOL_LIST <> []) by discriminate.
  destruct (slices_tile_the_circle RadialMenu.COLOUR_POOL RadialMenu.TOOL_LIST Hp Ht)
    as (_ & H1 & H2 & _).
  split; [exact H1 | exact H2].
Defined.

(** ** Zooming in and out again *)

Lemma clamp_inside (lo hi v : Q) : lo <= v <= hi -> clamp lo hi v == v.
Proof. intro H. apply clamp_fixed; lra. Qed.

Lemma V2_wheel_free ref canvas e s :
  find_canvas ref = Some canvas ->
  finite_dom ref (V2.bgImage s) -> V2.bgImage s = None -> finite_mouse e ->
  scale_ok (V2.scale s) -> finite_point (V2.pan s) ->
  let s' := V2.handleWheel ref e s in
  scale_ok (V2.scale s') /\ finite_point (V2.pan s') /\ V2.bgImage s' = None /\
  toQ (V2.scale s') == clamp 1 4 (toQ (V2.scale s) * wheelFactor e) /\
  same_point (V2.screenToWorld ref s' (clientX e) (clientY e))
             (V2.screenToWorld ref s (clientX e) (clientY e)).
Proof.
  intros Hc Hd Hb He Hs Hp s'.
  destruct (V2_handleWheel_anchor ref canvas e s Hc Hd He Hs Hp)
    as (A & B & C & D & E & _).
  fold s' in A, B, C, D, E.
  split; [exact A |]. split; [exact (pan_ok_finite _ _ _ _ D) |].
  split; [subst s'; change (V2.handleWheel ref e s) with (R2.step ref (R2.Wheel e) s);
          now rewrite V2_step_bgImage |].
  split; [exact B |].
  apply E. rewrite C, V2_clampPan_no_bg by exact Hb.
  apply same_point_refl.
Qed.

Lemma V1_wheel_free ref canvas e s :
  find_canvas ref = Some canvas ->
  finite_dom ref (V1.backgroundImage s) -> V1.backgroundImage s = None ->
  finite_mouse e ->
  scale_ok (V1.scale s) -> finite_point (V1_pan s) ->
  let s' := V1.handleWheel ref e s in
  scale_ok (V1.scale s') /\ finite_point (V1_pan s') /\
  V1.backgroundImage s' = None /\
  toQ (V1.scale s') == clamp 1 4 (toQ (V1.scale s) * wheelFactor e) /\
  same_point (V1.screenToWorld ref s' (clientX e) (clientY e))
             (V1.screenToWorld ref s (clientX e) (clientY e)).
Proof.
  intros Hc Hd Hb He Hs Hp s'.
  destruct (V1_handleWheel_anchor ref canvas e s Hc Hd He Hs Hp)
    as (A & B & C & D & E & _).
  fold s' in A, B, C, D, E.
  split; [exact A |]. split; [exact (pan_ok_finite _ _ _ _ D) |].
  split; [subst s'; change (V1.handleWheel ref e s) with (R1.step ref (R1.Wheel e) s);
          now rewrite V1_step_backgroundImage |].
  split; [exact B |].
  apply E. rewrite C, V1_clampPan_no_bg by exact Hb.
  apply same_point_refl.
Qed.

Lemma pan_from_world (l sc sc' p p' : Q) :
  1 <= sc -> sc' == sc -> l / sc' + p' == l / sc + p -> p' == p.
Proof.
  intros H E W. rewrite E in W. lra.
Qed.

Lemma V2_world_pan ref canvas (s s' : V2.State) (cx cy : number) :
  find_canvas ref = Some canvas ->
  finite_rect (getBoundingClientRect canvas) -> finite cx -> finite cy ->
  scale_ok (V2.scale s) -> scale_ok (V2.scale s') ->
  finite_point (V2.pan s) -> finite_point (V2.pan s') ->
  toQ (V2.scale s') == toQ (V2.scale s) ->
  same_point (V2.screenToWorld ref s' cx cy) (V2.screenToWorld ref s cx cy) ->
  same_point (V2.pan s') (V2.pan s).
Proof.
  intros Hc (Fl & Ft & _) Fx Fy Hs Hs' Hp Hp' E.
  rewrite !(V2_screenToWorld_mounted _ _ _ _ _ Hc).
  destruct (scale_ok_inv _ Hs) as [Es Hq]. destruct (scale_ok_inv _ Hs') as [Es' Hq'].
  rewrite (finite_point_inv _ Hp), (finite_point_inv _ Hp'), Es, Es',
    (finite_inv _ Fx), (finite_inv _ Fy), (finite_inv _ Fl), (finite_inv _ Ft).
  revert E Hq Hq'.
  generalize (toQ (V2.scale s)) (toQ (V2.scale s')) (toQ (x (V2.pan s)))
             (toQ (y (V2.pan s))) (toQ (x (V2.pan s'))) (toQ (y (V2.pan s')))
             (toQ cx) (toQ cy) (toQ (rect_left (getBoundingClientRect canvas)))
             (toQ (rect_top (getBoundingClientRect canvas))).
  intros sc sc' px py px' py' qx qy l t E Hq Hq'.
  js_arith. unfold same_point. cbn [x y same]. intros [Wx Wy].
  rewrite ?add_Fin in Wx, Wy. cbn [same] in Wx, Wy.
  split.
  - apply (pan_from_world (qx - l) sc sc' px px'); [lra | exact E | exact Wx].
  - apply (pan_from_world (qy - t) sc sc' py py'); [lra | exact E | exact Wy].
Qed.

Lemma V1_world_pan ref canvas (s s' : V1.State) (cx cy : number) :
  find_canvas ref = Some canvas ->
  finite_rect (getBoundingClientRect canvas) -> finite cx -> finite cy ->
  scale_ok (V1.scale s) -> scale_ok (V1.scale s') ->
  finite_point (V1_pan s) -> finite_point (V1_pan s') ->
  toQ (V1.scale s') == toQ (V1.scale s) ->
  same_point (V1.screenToWorld ref s' cx cy) (V1.screenToWorld ref s cx cy) ->
  same_point (V1_pan s') (V1_pan s).
Proof.
  intros Hc (Fl & Ft & _) Fx Fy Hs Hs' [Fpx Fpy] [Fpx' Fpy'] E.
  rewrite !(V1_screenToWorld_mounted _ _ _ _ _ Hc). unfold V1_pan in *.
  cbn [x y] in Fpx, Fpy, Fpx', Fpy'.
  destruct (scale_ok_inv _ Hs) as [Es Hq]. destruct (scale_ok_inv _ Hs') as [Es' Hq'].
  rewrite (finite_inv _ Fpx), (finite_inv _ Fpy), (finite_inv _ Fpx'),
    (finite_inv _ Fpy'), Es, Es',
    (finite_inv _ Fx), (finite_inv _ Fy), (finite_inv _ Fl), (finite_inv _ Ft).
  revert E Hq Hq'.
  generalize (toQ (V1.scale s)) (toQ (V1.scale s')) (toQ (V1.panX s))
             (toQ (V1.panY s)) (toQ (V1.panX s')) (toQ (V1.panY s'))
             (toQ cx) (toQ cy) (toQ (rect_left (getBoundingClientRect canvas)))
             (toQ (rect_top (getBoundingClientRect canvas))).
  intros sc sc' px py px' py' qx qy l t E Hq Hq'.
  js_arith. unfold same_point. cbn [x y same]. intros [Wx Wy].
  rewrite ?add_Fin in Wx, Wy. cbn [same] in Wx, Wy.
  split.
  - apply (pan_from_world (qx - l) sc sc' px px'); [lra | exact E | exact Wx].
  - apply (pan_from_world (qy - t) sc sc' py py'); [lra | exact E | exact Wy].
Qed.

Lemma in_out_scale (sc a b : Q) :
  1 <= sc -> sc * (11 # 10) <= 4 ->
  a == clamp 1 4 (sc * (11 # 10)) -> b == clamp 1 4 (a * (10 # 11)) -> b == sc.
Proof.
  intros H1 H4 Ea Eb.
  rewrite clamp_inside in Ea by lra.
  rewrite Eb. rewrite clamp_inside; rewrite Ea; [field | lra].
Qed.

(** X23 -- zooming in and out again restores the view.  With the canvas
    mounted and no background loaded, in both variants: a wheel step in
    followed by a wheel step out at the same pointer position, from a scale
    that the step in does not push beyond 4, leaves the scale and the pan
    as they were before the two steps, up to floating-point tolerance: the
    equalities are those of the rationals the numbers stand for, and the
    browser's doubles meet them within rounding ([1.1 * (1 / 1.1)] is 1
    only up to the last bit). *)
Theorem zoom_in_out_restores
        (containerRef : option Container) (canvas : Canvas)
        (e_in e_out : MouseEvent) (s1 : V1.State) (s2 : V2.State) :
  find_canvas containerRef = Some canvas -> finite_canvas canvas ->
  finite_mouse e_in ->
  (deltaY e_in <? 0)%js = true -> (deltaY e_out <? 0)%js = false ->
  clientX e_out = clientX e_in -> clientY e_out = clientY e_in ->
  V1.backgroundImage s1 = None -> V2.bgImage s2 = None ->
  scale_ok (V1.scale s1) -> toQ (V1.scale s1) * (11 # 10) <= 4 ->
  finite_point (V1_pan s1) ->
  scale_ok (V2.scale s2) -> toQ (V2.scale s2) * (11 # 10) <= 4 ->
  finite_point (V2.pan s2) ->
  let s1' := V1.handleWheel containerRef e_out (V1.handleWheel containerRef e_in s1) in
  let s2' := V2.handleWheel containerRef e_out (V2.handleWheel containerRef e_in s2) in
  (toQ (V1.scale s1') == toQ (V1.scale s1) /\ scale_ok (V1.scale s1') /\
   same_point (V1_pan s1') (V1_pan s1)) /\
  (toQ (V2.scale s2') == toQ (V2.scale s2) /\ scale_ok (V2.scale s2') /\
   same_point (V2.pan s2') (V2.pan s2)).
Proof.
  intros Hc Fc He Hin Hout Ex Ey Hb1 Hb2 Hs1 Hm1 Hp1 Hs2 Hm2 Hp2 s1' s2'.
  assert (Heo : finite_mouse e_out).
  { destruct He as [Fx Fy]. split; [now rewrite Ex | now rewrite Ey]. }
  assert (Fin_in : wheelFactor e_in = 11 # 10) by (unfold wheelFactor; now rewrite Hin).
  assert (Fin_out : wheelFactor e_out = 10 # 11)
    by (unfold wheelFactor; now rewrite Hout).
  assert (Fr : finite_rect (getBoundingClientRect canvas)) by apply Fc.
  split.
  - assert (Hd : finite_dom containerRef (V1.backgroundImage s1)).
    { unfold finite_dom. rewrite Hc, Hb1. now split. }
    destruct (V1_wheel_free containerRef canvas e_in s1 Hc Hd Hb1 He Hs1 Hp1)
      as (A1 & F1 & B1 & S1 & W1).
    set (sA := V1.handleWheel containerRef e_in s1) in *.
    assert (HdA : finite_dom containerRef (V1.backgroundImage sA)).
    { unfold finite_dom. rewrite Hc, B1. now split. }
    destruct (V1_wheel_free containerRef canvas e_out sA Hc HdA B1 Heo A1 F1)
      as (A2 & F2 & B2 & S2 & W2).
    fold s1' in A2, F2, B2, S2, W2.
    rewrite Fin_in in S1. rewrite Fin_out in S2.
    assert (E : toQ (V1.scale s1') == toQ (V1.scale s1)).
    { eapply in_out_scale; [apply Hs1 | exact Hm1 | exact S1 | exact S2]. }
    split; [exact E |]. split; [exact A2 |].
    rewrite Ex, Ey in W2.
    apply (V1_world_pan containerRef canvas s1 s1' (clientX e_in) (clientY e_in));
      try assumption; try apply He.
    eapply same_point_trans; eassumption.
  - assert (Hd : finite_dom containerRef (V2.bgImage s2)).
    { unfold finite_dom. rewrite Hc, Hb2. now split. }
    destruct (V2_wheel_free containerRef canvas e_in s2 Hc Hd Hb2 He Hs2 Hp2)
      as (A1 & F1 & B1 & S1 & W1).
    set (sA := V2.handleWheel containerRef e_in s2) in *.
    assert (HdA : finite_dom containerRef (V2.bgImage sA)).
    { unfold finite_dom. rewrite Hc, B1. now split. }
    destruct (V2_wheel_free containerRef canvas e_out sA Hc HdA B1 Heo A1 F1)
      as (A2 & F2 & B2 & S2 & W2).
    fold s2' in A2, F2, B2, S2, W2.
    rewrite Fin_in in S1. rewrite Fin_out in S2.
    assert (E : toQ (V2.scale s2') == toQ (V2.scale s2)).
    { eapply in_out_scale; [apply Hs2 | exact Hm2 | exact S1 | exact S2]. }
    split; [exact E |]. split; [exact A2 |].
    rewrite Ex, Ey in W2.
    apply (V2_world_pan containerRef canvas s2 s2' (clientX e_in) (clientY e_in));
      try assumption; try apply He.
    eapply same_point_trans; eassumption.
Qed.

Lemma zoom_in_out_restores_witness :
  let ref := mounted_400x300 in
  let s2 := v2_with None 2 30 40 in
  let s2' := V2.handleWheel ref (mkMouse 100 50 0 false 100)
               (V2.handleWheel ref wheel_up_100_50 s2) in
  toQ (V2.scale s2') == toQ (V2.scale s2) /\ scale_ok (V2.scale s2') /\
  same_point (V2.pan s2') (V2.pan s2).
Proof.
  intros ref s2.
  assert (Fc : finite_canvas canvas_400x300) by (vm_compute; tauto).
  assert (He : finite_mouse wheel_up_100_50) by (split; exact I).
  assert (Hs : scale_ok (Fin 2)) by (split; [exact I | split; vm_compute; discriminate]).
  assert (Hm : 2 * (11 # 10) <= 4) by (vm_compute; discriminate).
  assert (Hp : finite_point (mkPoint 30 40)) by (split; exact I).
  exact (proj2 (zoom_in_out_restores ref canvas_400x300 wheel_up_100_50
                  (mkMouse 100 50 0 false 100)
                  (v1_with None 2 30 40) s2
                  eq_refl Fc He eq_refl eq_refl eq_refl eq_refl eq_refl eq_refl
                  Hs Hm Hp Hs Hm Hp)).
Defined.
